(** * native-llama: the chat store of [src/store.js]

    A shallow embedding of the zustand chat store: the data model
    (chats, messages), the synchronous operations, and [sendMessage] as
    a task that is suspended at every [await] and resumed by the network
    event that settles it; and of the handlers of [src/App.jsx] that
    call the store.  The platform functions the store calls
    ([TextDecoder], [String.prototype.trim], [indexOf], [slice],
    [JSON.parse]) are modelled in module [JS]. *)

From Stdlib Require Import List NArith ZArith Bool Lia String Ascii.
From Stdlib Require Import Strings.Byte.
From Stdlib Require Import Floats.SpecFloat.
Import ListNotations.

Set Warnings "-register-all".

(** ** Platform model *)

Module JS.

(** A JavaScript string is a sequence of UTF-16 code units. *)
Abbreviation code_unit := N (only parsing).
Abbreviation jsstring := (list N) (only parsing).

(** String literals: [js] reads a Rocq string of ASCII characters,
    [jsq] does the same and reads an apostrophe as a quotation mark, so
    that JSON text can be written down. *)
Definition js (s : string) : jsstring :=
  map N_of_ascii (list_ascii_of_string s).

Definition jsq (s : string) : jsstring :=
  map (fun a => let n := N_of_ascii a in if N.eqb n 39 then 34%N else n)
      (list_ascii_of_string s).

Definition bytes_of (s : jsstring) : list byte :=
  map (fun n => match Byte.of_N n with Some b => b | None => x00 end) s.

Fixpoint str_eqb (a b : jsstring) : bool :=
  match a, b with
  | [], [] => true
  | x :: a', y :: b' => N.eqb x y && str_eqb a' b'
  | _, _ => false
  end.

Definition is_empty (s : jsstring) : bool :=
  match s with [] => true | _ => false end.

(** *** [TextDecoder] (UTF-8, [stream: true]) *)

Local Open Scope N_scope.

(** The state of the UTF-8 decoder of the Encoding standard, and the
    "BOM seen" flag of the [TextDecoder] that owns it. *)
Record Utf8Decoder := mkDecoder {
  code_point : N;
  bytes_seen : N;
  bytes_needed : N;
  lower_boundary : N;
  upper_boundary : N;
  bom_seen : bool
}.

Definition new_TextDecoder : Utf8Decoder :=
  mkDecoder 0 0 0 0x80 0xBF false.

Definition reset_sequence (d : Utf8Decoder) : Utf8Decoder :=
  mkDecoder 0 0 0 0x80 0xBF (bom_seen d).

Definition in_range (lo hi b : N) : bool := (lo <=? b) && (b <=? hi).

(** The handler when no sequence is open ([bytes_needed = 0]). *)
Definition utf8_lead (d : Utf8Decoder) (b : N) : Utf8Decoder * list N :=
  if b <=? 0x7F then (d, [b])
  else if in_range 0xC2 0xDF b then
    (mkDecoder (N.land b 0x1F) (bytes_seen d) 1
               (lower_boundary d) (upper_boundary d) (bom_seen d), [])
  else if in_range 0xE0 0xEF b then
    (mkDecoder (N.land b 0xF) (bytes_seen d) 2
               (if b =? 0xE0 then 0xA0 else lower_boundary d)
               (if b =? 0xED then 0x9F else upper_boundary d) (bom_seen d), [])
  else if in_range 0xF0 0xF4 b then
    (mkDecoder (N.land b 0x7) (bytes_seen d) 3
               (if b =? 0xF0 then 0x90 else lower_boundary d)
               (if b =? 0xF4 then 0x8F else upper_boundary d) (bom_seen d), [])
  else (d, [0xFFFD]).

(** One byte through the decoder: the new state and the code points it
    emits.  A byte that cannot continue the open sequence yields U+FFFD
    and is then read again as a lead byte. *)
Definition utf8_handler (d : Utf8Decoder) (b : N) : Utf8Decoder * list N :=
  if bytes_needed d =? 0 then utf8_lead d b
  else if negb (in_range (lower_boundary d) (upper_boundary d) b) then
    let (d', out) := utf8_lead (reset_sequence d) b in
    (d', 0xFFFD :: out)
  else
    let cp := N.lor (N.shiftl (code_point d) 6) (N.land b 0x3F) in
    let seen := bytes_seen d + 1 in
    if seen =? bytes_needed d then (reset_sequence d, [cp])
    else (mkDecoder cp seen (bytes_needed d) 0x80 0xBF (bom_seen d), []).

(** Serialising the decoded code points: the first one is dropped when
    it is the byte order mark ([ignoreBOM] is off by default). *)
Fixpoint strip_bom (seen : bool) (cps : list N) : bool * list N :=
  match cps with
  | [] => (seen, [])
  | cp :: rest =>
      if seen then (true, cps)
      else if cp =? 0xFEFF then strip_bom true rest
      else (true, cps)
  end.

Definition utf16_units (cp : N) : jsstring :=
  if cp <=? 0xFFFF then [cp]
  else let v := cp - 0x10000 in
       [0xD800 + N.shiftr v 10; 0xDC00 + N.land v 0x3FF].

Definition decode_byte (d : Utf8Decoder) (b : byte) : Utf8Decoder * jsstring :=
  let (d1, cps) := utf8_handler d (Byte.to_N b) in
  let (seen, kept) := strip_bom (bom_seen d1) cps in
  (mkDecoder (code_point d1) (bytes_seen d1) (bytes_needed d1)
             (lower_boundary d1) (upper_boundary d1) seen,
   flat_map utf16_units kept).

(** [decoder.decode(value, { stream: true })]: the bytes of the chunk go
    through the decoder one by one; an unfinished sequence stays in the
    state for the next call. *)
Fixpoint decode (d : Utf8Decoder) (value : list byte) : Utf8Decoder * jsstring :=
  match value with
  | [] => (d, [])
  | b :: rest =>
      let (d1, out1) := decode_byte d b in
      let (d2, out2) := decode d1 rest in
      (d2, out1 ++ out2)
  end.

(** *** String methods *)

(** White space and line terminators, the code units [trim] removes. *)
Definition is_white_space (c : N) : bool :=
  in_range 0x09 0x0D c || (c =? 0x20) || (c =? 0xA0) || (c =? 0x1680)
  || in_range 0x2000 0x200A c || (c =? 0x2028) || (c =? 0x2029)
  || (c =? 0x202F) || (c =? 0x205F) || (c =? 0x3000) || (c =? 0xFEFF).

Fixpoint trim_start (s : jsstring) : jsstring :=
  match s with
  | c :: rest => if is_white_space c then trim_start rest else s
  | [] => []
  end.

Definition trim (s : jsstring) : jsstring :=
  rev (trim_start (rev (trim_start s))).

(** [s.indexOf(c)] for a one-unit needle; [None] stands for [-1]. *)
Fixpoint indexOf (c : N) (s : jsstring) : option nat :=
  match s with
  | [] => None
  | x :: rest => if x =? c then Some O
                 else option_map S (indexOf c rest)
  end.

Definition slice (from to : nat) (s : jsstring) : jsstring :=
  firstn (to - from) (skipn from s).

Definition slice_from (from : nat) (s : jsstring) : jsstring := skipn from s.

Definition newline : N := 10.

(** *** [JSON.parse] *)

(** The value [JSON.parse] builds.  A number keeps the text of its
    literal; an object keeps its members in source order (a later member
    shadows an earlier one of the same name). *)
Inductive json :=
| JNull
| JBool (b : bool)
| JNum (literal : jsstring)
| JStr (s : jsstring)
| JArr (elements : list json)
| JObj (members : list (jsstring * json)).

Definition is_json_space (c : N) : bool :=
  (c =? 0x20) || (c =? 0x09) || (c =? 0x0A) || (c =? 0x0D).

Fixpoint skip_ws (s : jsstring) : jsstring :=
  match s with
  | c :: rest => if is_json_space c then skip_ws rest else s
  | [] => []
  end.

Definition is_digit (c : N) : bool := in_range 48 57 c.

Definition hex_value (c : N) : option N :=
  if in_range 48 57 c then Some (c - 48)
  else if in_range 65 70 c then Some (c - 55)
  else if in_range 97 102 c then Some (c - 87)
  else None.

Definition hex4 (a b c d : N) : option N :=
  match hex_value a, hex_value b, hex_value c, hex_value d with
  | Some x, Some y, Some z, Some w => Some (((x * 16 + y) * 16 + z) * 16 + w)
  | _, _, _, _ => None
  end.

(** The single-character escapes of a JSON string. *)
Definition escape_value (e : N) : option N :=
  if e =? 34 then Some 34        (* quotation mark *)
  else if e =? 92 then Some 92   (* reverse solidus *)
  else if e =? 47 then Some 47   (* solidus *)
  else if e =? 98 then Some 8    (* b *)
  else if e =? 102 then Some 12  (* f *)
  else if e =? 110 then Some 10  (* n *)
  else if e =? 114 then Some 13  (* r *)
  else if e =? 116 then Some 9   (* t *)
  else None.

(** The characters of a string after its opening quotation mark, up to
    and including the closing one; [acc] holds the units read so far, in
    reverse. *)
Fixpoint parse_string_chars (s acc : jsstring) : option (jsstring * jsstring) :=
  match s with
  | [] => None
  | c :: rest =>
      if c =? 34 then Some (rev acc, rest)
      else if c =? 92 then
        match rest with
        | [] => None
        | e :: rest' =>
            if e =? 117 then
              match rest' with
              | h1 :: h2 :: h3 :: h4 :: rest'' =>
                  match hex4 h1 h2 h3 h4 with
                  | Some u => parse_string_chars rest'' (u :: acc)
                  | None => None
                  end
              | _ => None
              end
            else
              match escape_value e with
              | Some u => parse_string_chars rest' (u :: acc)
              | None => None
              end
        end
      else if c <? 0x20 then None
      else parse_string_chars rest (c :: acc)
  end.

Fixpoint span_digits (s : jsstring) : jsstring * jsstring :=
  match s with
  | c :: rest =>
      if is_digit c then let (ds, r) := span_digits rest in (c :: ds, r)
      else ([], s)
  | [] => ([], [])
  end.

Definition parse_int_part (s : jsstring) : option (jsstring * jsstring) :=
  match s with
  | d :: rest =>
      if d =? 48 then Some ([d], rest)
      else if in_range 49 57 d then
        let (ds, r) := span_digits rest in Some (d :: ds, r)
      else None
  | [] => None
  end.

Definition parse_frac_part (s : jsstring) : option (jsstring * jsstring) :=
  match s with
  | c :: rest =>
      if c =? 46 then
        match span_digits rest with
        | ([], _) => None
        | (ds, r) => Some (c :: ds, r)
        end
      else Some ([], s)
  | [] => Some ([], s)
  end.

Definition parse_exp_digits (mark : jsstring) (s : jsstring)
  : option (jsstring * jsstring) :=
  match span_digits s with
  | ([], _) => None
  | (ds, r) => Some (mark ++ ds, r)
  end.

Definition parse_exp_part (s : jsstring) : option (jsstring * jsstring) :=
  match s with
  | e :: rest =>
      if (e =? 101) || (e =? 69) then
        match rest with
        | sg :: rest' =>
            if (sg =? 43) || (sg =? 45) then parse_exp_digits [e; sg] rest'
            else parse_exp_digits [e] rest
        | [] => None
        end
      else Some ([], s)
  | [] => Some ([], s)
  end.

(** A number literal: its text and what follows it. *)
Definition parse_number (s : jsstring) : option (jsstring * jsstring) :=
  let (sign, s1) := match s with
                    | c :: rest => if c =? 45 then ([c], rest) else ([], s)
                    | [] => ([], s)
                    end in
  match parse_int_part s1 with
  | None => None
  | Some (int, s2) =>
      match parse_frac_part s2 with
      | None => None
      | Some (frac, s3) =>
          match parse_exp_part s3 with
          | None => None
          | Some (exp, s4) => Some (sign ++ int ++ frac ++ exp, s4)
          end
      end
  end.

Fixpoint strip_prefix (p s : jsstring) : option jsstring :=
  match p, s with
  | [], _ => Some s
  | x :: p', y :: s' => if x =? y then strip_prefix p' s' else None
  | _ :: _, [] => None
  end.

(** One JSON value, with the white space before it.  The three
    functions descend together: a value, the elements of an array after
    its bracket or a comma, the members of an object after its brace or
    a comma.  [fuel] bounds the descent. *)
Fixpoint parse_value (fuel : nat) (s : jsstring) {struct fuel}
  : option (json * jsstring) :=
  match fuel with
  | O => None
  | S f =>
      match skip_ws s with
      | [] => None
      | c :: rest =>
          if c =? 123 then                       (* left brace *)
            match skip_ws rest with
            | c' :: rest' =>
                if c' =? 125 then Some (JObj [], rest')
                else parse_members f rest []
            | [] => None
            end
          else if c =? 91 then                   (* left bracket *)
            match skip_ws rest with
            | c' :: rest' =>
                if c' =? 93 then Some (JArr [], rest')
                else parse_elements f rest []
            | [] => None
            end
          else if c =? 34 then
            match parse_string_chars rest [] with
            | Some (str, rest') => Some (JStr str, rest')
            | None => None
            end
          else if (c =? 45) || is_digit c then
            match parse_number (c :: rest) with
            | Some (lit, rest') => Some (JNum lit, rest')
            | None => None
            end
          else
            match strip_prefix (js "true") (c :: rest) with
            | Some rest' => Some (JBool true, rest')
            | None =>
            match strip_prefix (js "false") (c :: rest) with
            | Some rest' => Some (JBool false, rest')
            | None =>
            match strip_prefix (js "null") (c :: rest) with
            | Some rest' => Some (JNull, rest')
            | None => None
            end end end
      end
  end

with parse_elements (fuel : nat) (s : jsstring) (acc : list json) {struct fuel}
  : option (json * jsstring) :=
  match fuel with
  | O => None
  | S f =>
      match parse_value f s with
      | None => None
      | Some (v, rest) =>
          match skip_ws rest with
          | c :: rest' =>
              if c =? 44 then parse_elements f rest' (v :: acc)
              else if c =? 93 then Some (JArr (rev (v :: acc)), rest')
              else None
          | [] => None
          end
      end
  end

with parse_members (fuel : nat) (s : jsstring) (acc : list (jsstring * json))
  {struct fuel} : option (json * jsstring) :=
  match fuel with
  | O => None
  | S f =>
      match skip_ws s with
      | [] => None
      | q :: rest =>
          if negb (q =? 34) then None
          else
            match parse_string_chars rest [] with
            | None => None
            | Some (key, rest1) =>
                match skip_ws rest1 with
                | [] => None
                | colon :: rest2 =>
                    if negb (colon =? 58) then None
                    else
                      match parse_value f rest2 with
                      | None => None
                      | Some (v, rest3) =>
                          match skip_ws rest3 with
                          | c :: rest4 =>
                              if c =? 44 then
                                parse_members f rest4 ((key, v) :: acc)
                              else if c =? 125 then
                                Some (JObj (rev ((key, v) :: acc)), rest4)
                              else None
                          | [] => None
                          end
                      end
                end
            end
      end
  end.

(** [JSON.parse(text)]: [None] stands for the [SyntaxError] it throws.
    Every step of the descent reads at least one code unit every other
    call, so twice the length of the text is fuel enough. *)
Definition JSON_parse (text : jsstring) : option json :=
  match parse_value (2 * List.length text + 2) text with
  | Some (v, rest) => if is_empty (skip_ws rest) then Some v else None
  | None => None
  end.

(** *** Numbers

    A JavaScript number is an IEEE 754 binary64 value. *)
Definition number := spec_float.
Definition number_add : number -> number -> number := SFadd 53 1024.
Definition number_div : number -> number -> number := SFdiv 53 1024.
Definition number_of_nat (n : nat) : number :=
  binary_normalize 53 1024 (Z.of_nat n) 0 false.
Definition NaN : number := S754_nan.

(** Reading the property [name] of a parsed object. *)
Fixpoint lookup (name : jsstring) (members : list (jsstring * json))
  : option json :=
  match members with
  | [] => None
  | (k, v) :: rest =>
      match lookup name rest with
      | Some later => Some later
      | None => if str_eqb k name then Some v else None
      end
  end.

End JS.

Import JS.

(** ** Conversions the engine applies to values that are not strings

    The stream protocol carries text in [message.content].  When a
    record carries something else there, the store still runs
    [if (content)], [aiText += content] and [content.length / 4] on it;
    what these yield on numbers, arrays and objects is the engine's
    business and is taken as given.  [None] stands for a thrown
    [TypeError]. *)
Class Runtime := {
  (** [ToBoolean] of the number a literal denotes *)
  number_truthy : jsstring -> bool;
  (** the text [aiText += v] appends for a value [v] that is no string *)
  concat_text : json -> option jsstring;
  (** [v.length / 4] for a value [v] that is no string *)
  length_over_4 : json -> option number;
  (** the message of the [TypeError] of [null.getReader()] *)
  null_body_message : jsstring
}.

(** ** Data model *)

Module Message.
Record t := mk {
  text : jsstring;
  sender : jsstring;
  timestamp : jsstring;
  isStreaming : option bool    (* [None]: the field is absent *)
}.
End Message.

Module Chat.
Record t := mk {
  id : jsstring;
  title : jsstring;
  model : jsstring;
  messages : list Message.t;
  createdAt : jsstring
}.
End Chat.

(** The store's state, [tokenSpeed] apart.  That field is written by
    [sendMessage] through the debounced [updateSpeed] (lines 53-55, 180
    and 222) and read by the throughput display only; it is left out,
    and what is said below of the store is said of the other fields. *)
Record State := mkState {
  chats : list Chat.t;
  currentChatId : option jsstring;
  availableModels : option json;
  loadingModels : bool;
  apiError : option jsstring
}.

Definition initial_state : State :=
  mkState [] None (Some (JArr [])) false None.

Definition with_chats (cs : list Chat.t) (s : State) : State :=
  mkState cs (currentChatId s) (availableModels s) (loadingModels s)
          (apiError s).

(** ** Store operations *)

(** [state.chats.map(chat => chat.id === chatId ? f(chat) : chat)] *)
Definition map_chat (chatId : jsstring) (f : Chat.t -> Chat.t) (s : State)
  : State :=
  with_chats
    (map (fun chat => if str_eqb (Chat.id chat) chatId then f chat else chat)
         (chats s)) s.

Definition with_messages (ms : list Message.t) (chat : Chat.t) : Chat.t :=
  Chat.mk (Chat.id chat) (Chat.title chat) (Chat.model chat) ms
          (Chat.createdAt chat).

(** [chat.messages.map(msg => msg.timestamp === ts ? g(msg) : msg)] *)
Definition map_message (ts : jsstring) (g : Message.t -> Message.t)
  (chat : Chat.t) : Chat.t :=
  with_messages
    (map (fun msg => if str_eqb (Message.timestamp msg) ts then g msg else msg)
         (Chat.messages chat)) chat.

Definition with_text (t : jsstring) (msg : Message.t) : Message.t :=
  Message.mk t (Message.sender msg) (Message.timestamp msg)
             (Message.isStreaming msg).

Definition with_isStreaming (b : bool) (msg : Message.t) : Message.t :=
  Message.mk (Message.text msg) (Message.sender msg) (Message.timestamp msg)
             (Some b).

Definition addMessage (chatId : jsstring) (message : Message.t) (s : State)
  : State :=
  map_chat chatId
    (fun chat => with_messages (Chat.messages chat ++ [message]) chat) s.

Definition deleteChat (chatId : jsstring) (s : State) : State :=
  mkState
    (filter (fun chat => negb (str_eqb (Chat.id chat) chatId)) (chats s))
    (match currentChatId s with
     | Some cur => if str_eqb cur chatId then None else Some cur
     | None => None
     end)
    (availableModels s) (loadingModels s) (apiError s).

Definition setCurrentChat (chatId : jsstring) (s : State) : State :=
  mkState (chats s) (Some chatId) (availableModels s) (loadingModels s)
          (apiError s).

(** [createChat(title, model)]; [uuid] is what [uuidv4()] returns and
    [now] what [new Date().toISOString()] returns.  [inl] is the thrown
    error's message. *)
Definition createChat (title model uuid now : jsstring) (s : State)
  : jsstring + (jsstring * State) :=
  if is_empty model then inl (js "No model selected")
  else
    let newChat :=
      Chat.mk uuid (if is_empty title then js "New Chat" else title) model []
              now in
    inr (Chat.id newChat,
         mkState (newChat :: chats s) (Some (Chat.id newChat))
                 (availableModels s) (loadingModels s) (apiError s)).

(** [fetchModels]: the part before the first [await], and the part that
    runs when the request has settled ([inl]: the message of the error
    caught, [inr]: [data.models]). *)
Definition fetchModels_start (s : State) : State :=
  mkState (chats s) (currentChatId s) (availableModels s) true None.

Definition fetchModels_settle (outcome : jsstring + option json) (s : State)
  : State :=
  let s1 := match outcome with
            | inr models =>
                mkState (chats s) (currentChatId s) models (loadingModels s)
                        (apiError s)
            | inl message =>
                mkState (chats s) (currentChatId s) (availableModels s)
                        (loadingModels s) (Some message)
            end in
  mkState (chats s1) (currentChatId s1) (availableModels s1) false
          (apiError s1).

(** ** [sendMessage] *)

(** The body of the POST to [/api/chat], before [JSON.stringify]. *)
Module Request.
Record turn := mkTurn { role : jsstring; content : jsstring }.
Record t := mk { model : jsstring; messages : list turn; stream : bool }.
End Request.

(** What a call closes over: the chat it was started on and the
    [timestamp] of its placeholder message. *)
Record Call := mkCall { chatId : jsstring; aiTimestamp : jsstring }.

(** The four state updates [sendMessage] passes to [set] after the
    placeholder is in place, and its other effects. *)
Inductive Effect :=
| SetAppend (message : Message.t)      (* lines 67-76 and 86-95 *)
| SetText (aiText : jsstring)          (* lines 150-161 *)
| SetError (message : jsstring)        (* lines 199-216 *)
| SetFinalize                          (* lines 226-239 *)
| Fetch (request : Request.t)
| UpdateSpeedZero                      (* [updateSpeed(0)] *)
| ConsoleError (data : jsstring).

(** What an effect does to the store.  Every [set] of [sendMessage]
    maps over the chats of the current state and over the messages of
    the chat with the call's id. *)
Definition perform (c : Call) (e : Effect) (s : State) : State :=
  match e with
  | SetAppend message => addMessage (chatId c) message s
  | SetText aiText =>
      map_chat (chatId c) (map_message (aiTimestamp c) (with_text aiText)) s
  | SetError message =>
      map_chat (chatId c)
        (map_message (aiTimestamp c)
           (fun msg => with_isStreaming false
                         (with_text (js "Error: " ++ message) msg))) s
  | SetFinalize =>
      map_chat (chatId c)
        (map_message (aiTimestamp c) (with_isStreaming false)) s
  | Fetch _ | UpdateSpeedZero | ConsoleError _ => s
  end.

Definition perform_all (c : Call) (es : list Effect) (s : State) : State :=
  fold_left (fun st e => perform c e st) es s.

(** The request body of lines 102-114, built from the chat object that
    [find] returned before the two messages were appended. *)
Definition wire_role (sender : jsstring) : jsstring :=
  if str_eqb sender (js "user") then js "user" else js "assistant".

Definition turn_of (m : Message.t) : Request.turn :=
  Request.mkTurn (wire_role (Message.sender m)) (Message.text m).

Definition request_of (chat : Chat.t) (userMessage : Message.t)
  (messageText : jsstring) : Request.t :=
  Request.mk (Chat.model chat)
    (map turn_of
         (filter (fun m => negb (str_eqb (Message.timestamp m)
                                         (Message.timestamp userMessage)))
                 (Chat.messages chat))
     ++ [Request.mkTurn (js "user") messageText])
    true.

(** The local variables of the read loop. *)
Record Progress := mkProgress { aiText : jsstring; tokenCount : number }.

Record Reader := mkReader {
  decoder : Utf8Decoder;
  buffer : jsstring;
  progress : Progress
}.

Inductive Phase :=
| AwaitingFetch                 (* suspended at [await fetch(...)] *)
| AwaitingRead (r : Reader)     (* suspended at [await reader.read()] *)
| Returned.                     (* the call has run to its end *)

Record Task := mkTask { call : Call; phase : Phase }.

(** What settles an [await]. *)
Inductive NetworkEvent :=
| FetchRejected (message : jsstring)
| FetchResolved (ok : bool) (hasBody : bool)
| ReadResolved (value : option (list byte)) (done : bool)
| ReadRejected (message : jsstring).

Section SendMessage.
Context {rt : Runtime}.

(** [parsed.message?.content]: [None] when reading [message] throws
    (the parsed value is [null]), [Some None] when the expression is
    [undefined]. *)
Definition message_content (parsed : json) : option (option json) :=
  match parsed with
  | JNull => None
  | JObj members =>
      match lookup (js "message") members with
      | Some (JObj inner) => Some (lookup (js "content") inner)
      | _ => Some None
      end
  | _ => Some None
  end.

Definition ToBoolean (v : option json) : bool :=
  match v with
  | None | Some JNull => false
  | Some (JBool b) => b
  | Some (JNum literal) => number_truthy literal
  | Some (JStr s) => negb (is_empty s)
  | Some (JArr _) | Some (JObj _) => true
  end.

(** The text [aiText += content] appends. *)
Definition appended_text (content : json) : option jsstring :=
  match content with
  | JStr s => Some s
  | other => concat_text other
  end.

(** [content.length / 4] *)
Definition token_estimate (content : json) : option number :=
  match content with
  | JStr s => Some (number_div (number_of_nat (List.length s))
                               (number_of_nat 4))
  | other => length_over_4 other
  end.

(** The body of the inner loop for one non-blank line (lines 145-166):
    the progress after it and the effects it adds. *)
Definition process_line (line : jsstring) (st : Progress * list Effect)
  : Progress * list Effect :=
  let (p, effects) := st in
  let caught := (p, effects ++ [ConsoleError line]) in
  match JSON_parse line with
  | None => caught
  | Some parsed =>
      match message_content parsed with
      | None => caught
      | Some content =>
          if ToBoolean content then
            match content with
            | None => st
            | Some v =>
                match appended_text v with
                | None => caught
                | Some delta =>
                    let text1 := aiText p ++ delta in
                    match token_estimate v with
                    | None =>
                        (mkProgress text1 (tokenCount p),
                         effects ++ [ConsoleError line])
                    | Some tokens =>
                        (mkProgress text1 (number_add (tokenCount p) tokens),
                         effects ++ [SetText text1])
                    end
                end
            end
          else st
      end
  end.

(** The inner [while] (lines 139-167): as long as the buffer holds a
    newline, the line before it is cut off and, unless blank, handled.
    Every turn shortens the buffer, so its length is fuel enough. *)
Fixpoint drain {A : Type} (fuel : nat) (handle : jsstring -> A -> A)
  (buf : jsstring) (a : A) : jsstring * A :=
  match fuel with
  | O => (buf, a)
  | S f =>
      match indexOf newline buf with
      | None => (buf, a)
      | Some boundary =>
          let line := slice 0 boundary buf in
          let buf' := slice_from (boundary + 1) buf in
          if is_empty (trim line) then drain f handle buf' a
          else drain f handle buf' (handle line a)
      end
  end.

(** The body of [if (value)] (lines 135-167).  The throughput update
    that follows it (lines 169-181) reads the clock and calls the
    debounced [updateSpeed], which writes [tokenSpeed] only; it touches
    no chat and is left out. *)
Definition feed (value : list byte) (r : Reader) : Reader * list Effect :=
  let (d, decoded) := decode (decoder r) value in
  let buf := buffer r ++ decoded in
  let '(buf', (p, effects)) :=
    drain (List.length buf) process_line buf (progress r, []) in
  (mkReader d buf' p, effects).

(** Lines 186-196: what is left in the buffer when the stream is done.
    The content of a final record goes to the local [aiText] only. *)
Definition flush_buffer (r : Reader) : Progress * list Effect :=
  if is_empty (trim (buffer r)) then (progress r, [])
  else
    let caught := (progress r, [ConsoleError (buffer r)]) in
    match JSON_parse (buffer r) with
    | None => caught
    | Some parsed =>
        match message_content parsed with
        | None => caught
        | Some content =>
            if ToBoolean content then
              match content with
              | None => (progress r, [])
              | Some v =>
                  match appended_text v with
                  | None => caught
                  | Some delta =>
                      (mkProgress (aiText (progress r) ++ delta)
                                  (tokenCount (progress r)), [])
                  end
              end
            else (progress r, [])
        end
    end.

(** The [catch] clause, the [finally] clause and the finalize update
    that follows the [try] statement. *)
Definition on_error (message : jsstring) : list Effect :=
  [SetError message; UpdateSpeedZero; SetFinalize].

(** The [finally] clause and the finalize update, after the loop ended
    without an error. *)
Definition on_completion : list Effect :=
  [UpdateSpeedZero; SetFinalize].

(** The call up to its first [await]: [inl] is the message of the error
    thrown, [inr] the suspended task and the effects so far.  [uuid1]
    and [uuid2] are what the two calls of [uuidv4()] return. *)
Definition sendMessage_start (chatId messageText uuid1 uuid2 : jsstring)
  (s : State) : jsstring + (Task * list Effect) :=
  match find (fun c => str_eqb (Chat.id c) chatId) (chats s) with
  | None => inl (js "Chat not found")
  | Some chat =>
      let userMessage := Message.mk messageText (js "user") uuid1 None in
      let aiMessage := Message.mk [] (js "ai") uuid2 (Some true) in
      inr (mkTask (mkCall chatId (Message.timestamp aiMessage)) AwaitingFetch,
           [SetAppend userMessage; SetAppend aiMessage;
            Fetch (request_of chat userMessage messageText)])
  end.

(** The call from one [await] to the next, or to its end.  [None]: the
    event is not the one the task waits for. *)
Definition resume (t : Task) (ev : NetworkEvent) : option (Task * list Effect) :=
  match phase t, ev with
  | AwaitingFetch, FetchRejected message =>
      Some (mkTask (call t) Returned, on_error message)
  | AwaitingFetch, FetchResolved ok hasBody =>
      if negb ok then
        Some (mkTask (call t) Returned, on_error (js "API request failed"))
      else if negb hasBody then
        Some (mkTask (call t) Returned, on_error null_body_message)
      else
        Some (mkTask (call t)
                (AwaitingRead
                   (mkReader new_TextDecoder []
                             (mkProgress [] (number_of_nat 0)))), [])
  | AwaitingRead r, ReadResolved value done =>
      let (r1, effects) := match value with
                           | Some bytes => feed bytes r
                           | None => (r, [])
                           end in
      if done then
        let (_, logged) := flush_buffer r1 in
        Some (mkTask (call t) Returned, effects ++ logged ++ on_completion)
      else Some (mkTask (call t) (AwaitingRead r1), effects)
  | AwaitingRead _, ReadRejected message =>
      Some (mkTask (call t) Returned, on_error message)
  | _, _ => None
  end.

End SendMessage.

(** ** Runs *)

Section Runs.
Context {rt : Runtime}.

(** A call resumed by a sequence of events, one per [await]. *)
Fixpoint run (t : Task) (events : list NetworkEvent)
  : option (Task * list Effect) :=
  match events with
  | [] => Some (t, [])
  | ev :: rest =>
      match resume t ev with
      | None => None
      | Some (t1, effects1) =>
          match run t1 rest with
          | None => None
          | Some (t2, effects2) => Some (t2, effects1 ++ effects2)
          end
      end
  end.

(** How the request of one call can go, from the first [await] to the
    last. *)
Inductive Ending :=
| StreamEnds (value : option (list byte))   (* [done: true] *)
| StreamFails (message : jsstring).         (* [read()] rejects *)

Inductive Network :=
| Unreachable (message : jsstring)          (* [fetch] rejects *)
| BadStatus (hasBody : bool)                (* [response.ok] is false *)
| NoBody                                    (* [response.body] is [null] *)
| Streamed (values : list (option (list byte))) (ending : Ending).

Definition events_of (n : Network) : list NetworkEvent :=
  match n with
  | Unreachable message => [FetchRejected message]
  | BadStatus hasBody => [FetchResolved false hasBody]
  | NoBody => [FetchResolved true false]
  | Streamed values ending =>
      FetchResolved true true
      :: map (fun v => ReadResolved v false) values
      ++ [match ending with
          | StreamEnds value => ReadResolved value true
          | StreamFails message => ReadRejected message
          end]
  end.

(** The outcome of a whole call. *)
Inductive Outcome :=
| Threw (message : jsstring) (store : State)
| Finished (store : State) (effects : list Effect)
| Pending (store : State) (task : Task) (effects : list Effect)
| Stuck.

(** [sendMessage(chatId, messageText)] with nothing else running in
    between, on a request that goes as [events] say. *)
Definition sendMessage (chatId messageText uuid1 uuid2 : jsstring)
  (events : list NetworkEvent) (s : State) : Outcome :=
  match sendMessage_start chatId messageText uuid1 uuid2 s with
  | inl message => Threw message s
  | inr (t0, effects0) =>
      match run t0 events with
      | None => Stuck
      | Some (t, effects1) =>
          let effects := effects0 ++ effects1 in
          let store := perform_all (call t0) effects s in
          match phase t with
          | Returned => Finished store effects
          | _ => Pending store t effects
          end
      end
  end.

(** *** Interleaved calls

    The store with the calls of [sendMessage] and [fetchModels] that are
    under way.  Every action runs one piece of code from one [await] to
    the next; pieces of different calls may alternate. *)
Record World := mkWorld {
  store : State;
  tasks : list Task;
  modelFetches : nat
}.

Definition initial_world : World := mkWorld initial_state [] 0.

(** The world a session of the application starts in.  No call is under
    way.  The store is the initial state or, when the storage holds a
    saved store, what [persist] reads back from it and merges over the
    initial state when the store is created (lines 6-7 and 267-270):
    the chats as they were saved, with a message that was streaming
    still marked as streaming, and the other fields as they were saved,
    a loading flag that was on included. *)
Definition start_world (s : State) : World := mkWorld s [] 0.

Inductive Action :=
| DoFetchModels
| ModelsSettled (outcome : jsstring + option json)
| DoCreateChat (title model uuid now : jsstring)
| DoSendMessage (chatId messageText uuid1 uuid2 : jsstring)
| Settled (n : nat) (ev : NetworkEvent)
| DoAddMessage (chatId : jsstring) (message : Message.t)
| DoDeleteChat (chatId : jsstring)
| DoSetCurrentChat (chatId : jsstring).

Fixpoint replace_nth {A : Type} (n : nat) (x : A) (l : list A) : list A :=
  match l, n with
  | [], _ => []
  | _ :: rest, O => x :: rest
  | y :: rest, S m => y :: replace_nth m x rest
  end.

Definition act (w : World) (a : Action) : option World :=
  match a with
  | DoFetchModels =>
      Some (mkWorld (fetchModels_start (store w)) (tasks w)
                    (S (modelFetches w)))
  | ModelsSettled outcome =>
      match modelFetches w with
      | O => None
      | S k => Some (mkWorld (fetchModels_settle outcome (store w))
                             (tasks w) k)
      end
  | DoCreateChat title model uuid now =>
      match createChat title model uuid now (store w) with
      | inl _ => Some w
      | inr (_, s) => Some (mkWorld s (tasks w) (modelFetches w))
      end
  | DoSendMessage chatId messageText uuid1 uuid2 =>
      match sendMessage_start chatId messageText uuid1 uuid2 (store w) with
      | inl _ => Some w
      | inr (t, effects) =>
          Some (mkWorld (perform_all (call t) effects (store w))
                        (tasks w ++ [t]) (modelFetches w))
      end
  | Settled n ev =>
      match nth_error (tasks w) n with
      | None => None
      | Some t =>
          match resume t ev with
          | None => None
          | Some (t', effects) =>
              Some (mkWorld (perform_all (call t) effects (store w))
                            (replace_nth n t' (tasks w)) (modelFetches w))
          end
      end
  | DoAddMessage chatId message =>
      Some (mkWorld (addMessage chatId message (store w)) (tasks w)
                    (modelFetches w))
  | DoDeleteChat chatId =>
      Some (mkWorld (deleteChat chatId (store w)) (tasks w) (modelFetches w))
  | DoSetCurrentChat chatId =>
      Some (mkWorld (setCurrentChat chatId (store w)) (tasks w)
                    (modelFetches w))
  end.

(** The worlds of a session that starts with the store [s0]. *)
Inductive reachable (s0 : State) : World -> Prop :=
| reachable_start : reachable s0 (start_world s0)
| reachable_act w a w' :
    reachable s0 w -> act w a = Some w' -> reachable s0 w'.

(** The messages of a chat that are marked as streaming. *)
Definition streaming (m : Message.t) : bool :=
  match Message.isStreaming m with Some true => true | _ => false end.

Definition streaming_count (chat : Chat.t) : nat :=
  List.length (filter streaming (Chat.messages chat)).

Definition at_most_one_streaming (s : State) : Prop :=
  forall chat, In chat (chats s) -> streaming_count chat <= 1.

(** The calls under way on a chat. *)
Definition under_way (t : Task) : bool :=
  match phase t with Returned => false | _ => true end.

Definition busy (chatId' : jsstring) (ts : list Task) : bool :=
  existsb (fun t => under_way t && str_eqb (chatId (call t)) chatId') ts.

(** An action of a client that never starts a second [sendMessage] on a
    chat while one is under way and never hands [addMessage] a message
    marked as streaming. *)
Definition disciplined (w : World) (a : Action) : bool :=
  match a with
  | DoSendMessage chatId _ _ _ => negb (busy chatId (tasks w))
  | DoAddMessage _ message => negb (streaming message)
  | _ => true
  end.

(** The worlds of a session that starts with the store [s0] and in
    which the client is disciplined. *)
Inductive reachable_disciplined (s0 : State) : World -> Prop :=
| disciplined_start : reachable_disciplined s0 (start_world s0)
| disciplined_act w a w' :
    reachable_disciplined s0 w -> disciplined w a = true ->
    act w a = Some w' -> reachable_disciplined s0 w'.

(** The message of the error a request fails with, if it fails. *)
Definition failure_of (n : Network) : option jsstring :=
  match n with
  | Unreachable message => Some message
  | BadStatus _ => Some (js "API request failed")
  | NoBody => Some null_body_message
  | Streamed _ (StreamFails message) => Some message
  | Streamed _ (StreamEnds _) => None
  end.

(** A sequence of actions from a world; with [strict] only actions of a
    disciplined client are played. *)
Fixpoint play (strict : bool) (w : World) (actions : list Action)
  : option World :=
  match actions with
  | [] => Some w
  | a :: rest =>
      if strict && negb (disciplined w a) then None
      else match act w a with
           | Some w' => play strict w' rest
           | None => None
           end
  end.

End Runs.

(** ** The pages of [src/App.jsx]

    The components that call the store.  The state of a page is what
    its [useState] hooks hold; a handler runs on the state and on the
    store of the render that created it. *)

(** [s.startsWith(prefix)] *)
Fixpoint startsWith (prefix s : jsstring) : bool :=
  match prefix, s with
  | [], _ => true
  | p :: prefix', c :: s' => N.eqb p c && startsWith prefix' s'
  | _ :: _, [] => false
  end.

(** [MemoizedMessage]: the test that decides whether a message is shown
    as an error notice instead of as Markdown (line 117). *)
Definition shows_error (msg : Message.t) : bool :=
  str_eqb (Message.sender msg) (js "ai")
  && startsWith (js "Error: ") (Message.text msg).

(** [Chat]: the text of the input field and the [isSending] flag. *)
Module ChatPage.
Record t := mk { input : jsstring; isSending : bool }.
End ChatPage.

(** [Home]: the text of the input field and the model selected. *)
Module HomePage.
Record t := mk { input : jsstring; selectedModel : jsstring }.
End HomePage.

(** [Home.handleSubmit] (lines 216-223).  [inl]: the message of an
    error thrown; [inr]: the page's state, the location [navigate] was
    given (if it was called) and the store.  [uuid] and [now] are as in
    [createChat]. *)
Definition handleSubmit (uuid now : jsstring) (view : HomePage.t) (s : State)
  : jsstring + (HomePage.t * option jsstring * State) :=
  if is_empty (trim (HomePage.input view))
     || is_empty (HomePage.selectedModel view)
  then inr (view, None, s)
  else
    match createChat (trim (HomePage.input view)) (HomePage.selectedModel view)
                     uuid now s with
    | inl message => inl message
    | inr (chatId, s') =>
        inr (HomePage.mk [] (HomePage.selectedModel view),
             Some (js "/chat/" ++ chatId), s')
    end.

(** The sidebar of [App] (lines 149-170) offers [setCurrentChat] for
    the chats it lists, with the id of the chat. *)
Definition listed (chatId : jsstring) (s : State) : bool :=
  existsb (fun chat => str_eqb (Chat.id chat) chatId) (chats s).

Section Pages.
Context {rt : Runtime}.

(** What a submit of the chat form leads to: the guard returns, or
    [sendMessage] is called and the page is left in a new state. *)
Inductive Submit :=
| Ignored
| Sent (view : ChatPage.t) (outcome : Outcome).

(** [Chat.handleSendMessage] (lines 23-45) on the page of the chat
    [id], with a request that goes as [events] say.  The input is
    cleared when the call has returned without an error; [isSending] is
    reset when it has returned or thrown. *)
Definition handleSendMessage (id uuid1 uuid2 : jsstring)
  (events : list NetworkEvent) (view : ChatPage.t) (s : State) : Submit :=
  let chat := find (fun c => str_eqb (Chat.id c) id) (chats s) in
  if is_empty (trim (ChatPage.input view)) then Ignored
  else
    match chat with
    | None => Ignored
    | Some chat =>
        if ChatPage.isSending view then Ignored
        else
          let outcome :=
            sendMessage (Chat.id chat) (trim (ChatPage.input view))
                        uuid1 uuid2 events s in
          Sent (match outcome with
                | Finished _ _ => ChatPage.mk [] false
                | Threw _ _ => ChatPage.mk (ChatPage.input view) false
                | Pending _ _ _ | Stuck =>
                    ChatPage.mk (ChatPage.input view) true
                end) outcome
    end.

(** The worlds reached by actions that a condition allows. *)
Inductive reachable_by (allowed : World -> Action -> bool) : World -> Prop :=
| by_initial : reachable_by allowed initial_world
| by_act w a w' :
    reachable_by allowed w -> allowed w a = true -> act w a = Some w' ->
    reachable_by allowed w'.

(** [uuidv4()] returns an id that no chat of the store carries. *)
Definition fresh_id (w : World) (a : Action) : bool :=
  match a with
  | DoCreateChat _ _ uuid _ => negb (listed uuid (store w))
  | _ => true
  end.

(** [setCurrentChat] is called from the sidebar only. *)
Definition from_sidebar (w : World) (a : Action) : bool :=
  match a with
  | DoSetCurrentChat chatId => listed chatId (store w)
  | _ => true
  end.

End Pages.

(** ** Persistence

    The store is wrapped in zustand's [persist] with the options
    [name: "chat-storage"] and [getStorage: () => localStorage] and
    nothing else: after every [set] the state goes through
    [JSON.stringify] into the storage, and on start-up what
    [JSON.parse] reads back is merged over the initial state. *)

Module Persist.

Local Open Scope N_scope.

Definition hex_digit (n : N) : N := if n <? 10 then 48 + n else 87 + n.

Definition unicode_escape (c : N) : jsstring :=
  [92; 117; hex_digit (c / 4096); hex_digit ((c / 256) mod 16);
   hex_digit ((c / 16) mod 16); hex_digit (c mod 16)].

Definition is_high_surrogate (c : N) : bool := in_range 0xD800 0xDBFF c.
Definition is_low_surrogate (c : N) : bool := in_range 0xDC00 0xDFFF c.

(** The characters of a quoted string, as [JSON.stringify] writes
    them: short escapes, [\u] escapes for the other control characters
    and for surrogates that stand alone. *)
Fixpoint quote_chars (s : jsstring) : jsstring :=
  match s with
  | [] => []
  | c :: rest =>
      if c =? 8 then 92 :: 98 :: quote_chars rest
      else if c =? 9 then 92 :: 116 :: quote_chars rest
      else if c =? 10 then 92 :: 110 :: quote_chars rest
      else if c =? 12 then 92 :: 102 :: quote_chars rest
      else if c =? 13 then 92 :: 114 :: quote_chars rest
      else if c =? 34 then 92 :: 34 :: quote_chars rest
      else if c =? 92 then 92 :: 92 :: quote_chars rest
      else if c <? 0x20 then unicode_escape c ++ quote_chars rest
      else if is_high_surrogate c then
        match rest with
        | next :: rest' =>
            if is_low_surrogate next then c :: next :: quote_chars rest'
            else unicode_escape c ++ quote_chars rest
        | [] => unicode_escape c
        end
      else if is_low_surrogate c then unicode_escape c ++ quote_chars rest
      else c :: quote_chars rest
  end.

Definition quote (s : jsstring) : jsstring := 34 :: quote_chars s ++ [34].

Fixpoint join (parts : list jsstring) : jsstring :=
  match parts with
  | [] => []
  | [p] => p
  | p :: rest => p ++ 44 :: join rest
  end.

(** [JSON.stringify(value)] without indentation.  A number is written
    by its literal, which is what [JSON.stringify] writes for the
    integers the store persists. *)
Fixpoint stringify (j : json) : jsstring :=
  match j with
  | JNull => js "null"
  | JBool true => js "true"
  | JBool false => js "false"
  | JNum literal => literal
  | JStr s => quote s
  | JArr elements =>
      91 :: join (map stringify elements) ++ [93]
  | JObj members =>
      123 :: join (map (fun kv => quote (fst kv) ++ 58 :: stringify (snd kv))
                       members) ++ [125]
  end.

(** The tree [JSON.stringify] walks for a message, a chat and the
    session collection.  A field that is [undefined] has no member. *)
Definition json_of_message (m : Message.t) : json :=
  JObj ([(js "text", JStr (Message.text m));
         (js "sender", JStr (Message.sender m));
         (js "timestamp", JStr (Message.timestamp m))]
        ++ match Message.isStreaming m with
           | Some b => [(js "isStreaming", JBool b)]
           | None => []
           end).

Definition json_of_chat (c : Chat.t) : json :=
  JObj [(js "id", JStr (Chat.id c));
        (js "title", JStr (Chat.title c));
        (js "model", JStr (Chat.model c));
        (js "messages", JArr (map json_of_message (Chat.messages c)));
        (js "createdAt", JStr (Chat.createdAt c))].

(** The session collection as persisted: the chats and the pointer to
    the current one.  (The members for the model list, the loading
    flag, the error and the token speed stand beside them in the same
    object and are left out.) *)
Record Sessions := mkSessions {
  saved_chats : list Chat.t;
  saved_currentChatId : option jsstring
}.

Definition sessions_of (s : State) : Sessions :=
  mkSessions (chats s) (currentChatId s).

Definition json_of_sessions (s : Sessions) : json :=
  JObj [(js "state",
         JObj [(js "chats", JArr (map json_of_chat (saved_chats s)));
               (js "currentChatId",
                match saved_currentChatId s with
                | Some cur => JStr cur
                | None => JNull
                end)]);
        (js "version", JNum (js "0"))].

(** What [setItem] is given. *)
Definition serialize (s : Sessions) : jsstring :=
  stringify (json_of_sessions s).

(** Reading the typed data back out of a parsed tree. *)
Definition message_of_json (j : json) : option Message.t :=
  match j with
  | JObj members =>
      match lookup (js "text") members, lookup (js "sender") members,
            lookup (js "timestamp") members with
      | Some (JStr t), Some (JStr sd), Some (JStr ts) =>
          match lookup (js "isStreaming") members with
          | None => Some (Message.mk t sd ts None)
          | Some (JBool b) => Some (Message.mk t sd ts (Some b))
          | Some _ => None
          end
      | _, _, _ => None
      end
  | _ => None
  end.

Fixpoint all_of {A B : Type} (f : A -> option B) (l : list A)
  : option (list B) :=
  match l with
  | [] => Some []
  | x :: rest =>
      match f x, all_of f rest with
      | Some y, Some ys => Some (y :: ys)
      | _, _ => None
      end
  end.

Definition chat_of_json (j : json) : option Chat.t :=
  match j with
  | JObj members =>
      match lookup (js "id") members, lookup (js "title") members,
            lookup (js "model") members, lookup (js "messages") members,
            lookup (js "createdAt") members with
      | Some (JStr i), Some (JStr t), Some (JStr m), Some (JArr ms),
        Some (JStr c) =>
          match all_of message_of_json ms with
          | Some messages => Some (Chat.mk i t m messages c)
          | None => None
          end
      | _, _, _, _, _ => None
      end
  | _ => None
  end.

(** The state found in a parsed storage value whose version is the
    store's (0): no migration, no other change. *)
Definition sessions_of_json (j : json) : option Sessions :=
  match j with
  | JObj members =>
      match lookup (js "version") members, lookup (js "state") members with
      | Some (JNum v), Some (JObj st) =>
          if str_eqb v (js "0") then
            match lookup (js "chats") st, lookup (js "currentChatId") st with
            | Some (JArr cs), Some cur =>
                match all_of chat_of_json cs,
                      match cur with
                      | JStr c => Some (Some c)
                      | JNull => Some None
                      | _ => None
                      end with
                | Some chats, Some current => Some (mkSessions chats current)
                | _, _ => None
                end
            | _, _ => None
            end
          else None
      | _, _ => None
      end
  | _ => None
  end.

(** Start-up: [getItem], [JSON.parse], the state inside. *)
Definition deserialize (stored : jsstring) : option Sessions :=
  match JSON_parse stored with
  | Some j => sessions_of_json j
  | None => None
  end.

(** The claim's reconciliation: every message marked as streaming is
    marked as not streaming. *)
Definition reconcile_message (m : Message.t) : Message.t :=
  match Message.isStreaming m with
  | Some true => with_isStreaming false m
  | _ => m
  end.

Definition reconcile (s : Sessions) : Sessions :=
  mkSessions
    (map (fun c => with_messages (map reconcile_message (Chat.messages c)) c)
         (saved_chats s))
    (saved_currentChatId s).

End Persist.

(** ** [localStorage]

    The storage that the store's [persist] wrapper is pointed at
    ([getStorage: () => localStorage], under the name "chat-storage")
    and that the [Settings] page of [src/App.jsx] keeps the API key in:
    one entry per key, the value set last. *)
Definition Storage := list (jsstring * jsstring).

(** [localStorage.getItem(key)]; [None] stands for [null]. *)
Definition getItem (key : jsstring) (storage : Storage) : option jsstring :=
  option_map snd (find (fun entry => str_eqb (fst entry) key) storage).

(** [localStorage.setItem(key, value)] *)
Definition setItem (key value : jsstring) (storage : Storage) : Storage :=
  (key, value)
  :: filter (fun entry => negb (str_eqb (fst entry) key)) storage.

(** [Settings]: the initial value of [apiKey],
    [localStorage.getItem('OLLAMA_API_KEY') || ''] (line 276). *)
Definition apiKey (storage : Storage) : jsstring :=
  match getItem (js "OLLAMA_API_KEY") storage with
  | Some key => if is_empty key then [] else key
  | None => []
  end.

(** [Settings.saveApiKey] (lines 314-317), on the key in the field. *)
Definition saveApiKey (key : jsstring) (storage : Storage) : Storage :=
  setItem (js "OLLAMA_API_KEY") key storage.

(** The store saved under its name, and read back on start-up. *)
Definition persist (s : Persist.Sessions) (storage : Storage) : Storage :=
  setItem (js "chat-storage") (Persist.serialize s) storage.

Definition rehydrate (storage : Storage) : option Persist.Sessions :=
  match getItem (js "chat-storage") storage with
  | Some stored => Persist.deserialize stored
  | None => None
  end.

(** ** The line buffer on its own

    The same decoding and the same inner loop as [feed], with a handler
    that only records the lines it is given: the sequence of complete,
    non-blank lines the parser sees. *)
Definition collect (line : jsstring) (seen : list jsstring) : list jsstring :=
  seen ++ [line].

Definition feed_lines (value : list byte) (st : Utf8Decoder * jsstring)
  : (Utf8Decoder * jsstring) * list jsstring :=
  let (d, decoded) := decode (fst st) value in
  let buf := snd st ++ decoded in
  let (buf', seen) := drain (List.length buf) collect buf [] in
  ((d, buf'), seen).

Fixpoint lines_of_chunks (chunks : list (list byte))
  (st : Utf8Decoder * jsstring) : list jsstring :=
  match chunks with
  | [] => []
  | value :: rest =>
      let (st', seen) := feed_lines value st in
      seen ++ lines_of_chunks rest st'
  end.

(** The reader a call starts with (lines 119-128). *)
Definition new_reader : Reader :=
  mkReader new_TextDecoder [] (mkProgress [] (number_of_nat 0)).

(** ** An engine for the examples

    The examples below carry text only; the conversions of other values
    are never reached in them. *)
#[export] Instance example_runtime : Runtime := {|
  number_truthy := fun _ => true;
  concat_text := fun _ => None;
  length_over_4 := fun _ => None;
  null_body_message := js "Cannot read properties of null"
|}.

Definition line_bytes (s : string) : list byte := bytes_of (jsq s) ++ [x0a].

(** The two records of the greeting, each ended by a newline, and the
    same stream without the last newline. *)
Definition hello_stream : list byte :=
  line_bytes "{'message':{'content':'He'}}"
  ++ line_bytes "{'message':{'content':'llo'}}".

Definition unterminated_hello_stream : list byte :=
  line_bytes "{'message':{'content':'He'}}"
  ++ bytes_of (jsq "{'message':{'content':'llo'}}").

Definition demo_chat : Chat.t :=
  Chat.mk (js "c1") (js "New Chat") (js "llama3") []
          (js "2024-01-01T00:00:00.000Z").

Definition demo_state : State :=
  mkState [demo_chat] (Some (js "c1")) (Some (JArr [])) false None.

(** ** The record parser as the specification words it

    [parse(line)] yields a content delta, a record without one, or a
    parse error; the deltas of a sequence of lines are those of the
    lines the line buffer forwards (the non-blank ones), in order. *)
Inductive Parsed :=
| ContentDelta (delta : jsstring)
| NonContentRecord
| ParseError.

Definition parse (line : jsstring) : Parsed :=
  match JSON_parse line with
  | None => ParseError
  | Some (JObj members) =>
      match lookup (js "message") members with
      | Some (JObj inner) =>
          match lookup (js "content") inner with
          | Some (JStr delta) => ContentDelta delta
          | _ => NonContentRecord
          end
      | _ => NonContentRecord
      end
  | Some _ => NonContentRecord
  end.

Definition deltas (lines : list jsstring) : list jsstring :=
  flat_map (fun line => match parse line with
                        | ContentDelta delta => [delta]
                        | _ => []
                        end) lines.

(** The texts a sequence of non-empty deltas leads through. *)
Fixpoint running (text : jsstring) (ds : list jsstring) : list jsstring :=
  match ds with
  | [] => []
  | d :: rest => (text ++ d) :: running (text ++ d) rest
  end.

(** The texts written to the store, in order. *)
Definition written (es : list Effect) : list jsstring :=
  flat_map (fun e => match e with SetText t => [t] | _ => [] end) es.

(** A line of the protocol: malformed, or a record whose
    [message.content], if it has one, is text (or [null] or [false]). *)
Definition textual (line : jsstring) : bool :=
  match JSON_parse line with
  | None => true
  | Some parsed =>
      match message_content parsed with
      | Some (Some (JStr _)) | Some (Some JNull) | Some (Some (JBool false))
      | Some None | None => true
      | Some (Some _) => false
      end
  end.

(** Complete lines, each ended by a newline. *)
Definition join_lines (lines : list jsstring) : jsstring :=
  flat_map (fun line => line ++ [newline]) lines.

(** Three lines of a stream, the second of them malformed. *)
Definition demo_lines : list jsstring :=
  [jsq "{'message':{'content':'He'}}"; jsq "{'message':"; [];
   jsq "{'message':{'content':'llo'},'done':false}"].

(** A chat is created; a message is sent and answered; a second one is
    sent when the first call has returned, and its stream has begun. *)
Definition demo_session : list Action :=
  [DoCreateChat (js "T") (js "llama3") (js "c1") (js "2024-01-01");
   DoSendMessage (js "c1") (js "one") (js "u1") (js "u2");
   Settled 0 (FetchResolved true true);
   Settled 0 (ReadResolved (Some hello_stream) false);
   Settled 0 (ReadResolved None true);
   DoSendMessage (js "c1") (js "two") (js "u3") (js "u4");
   DoAddMessage (js "c1") (Message.mk (js "note") (js "user") (js "u5") None);
   Settled 1 (FetchResolved true true);
   Settled 1 (ReadResolved (Some (line_bytes "{'message':{'content':'Hi'}}"))
                           false)].

Definition demo_world : World :=
  match play true initial_world demo_session with
  | Some w => w
  | None => initial_world
  end.

(** A second message is sent while the first call is suspended at
    [fetch]. *)
Definition overlapping_sends : list Action :=
  [DoCreateChat (js "T") (js "llama3") (js "c1") (js "2024-01-01");
   DoSendMessage (js "c1") (js "one") (js "u1") (js "u2");
   DoSendMessage (js "c1") (js "two") (js "u3") (js "u4")].

(** [addMessage] is handed two messages marked as streaming. *)
Definition streaming_additions : list Action :=
  [DoCreateChat (js "T") (js "llama3") (js "c1") (js "2024-01-01");
   DoAddMessage (js "c1") (Message.mk [] (js "ai") (js "u1") (Some true));
   DoAddMessage (js "c1") (Message.mk [] (js "ai") (js "u2") (Some true))].

(** A collection saved while a reply was streaming: a chat without
    messages, and a chat with a question and the placeholder of its
    answer. *)
Definition interrupted_sessions : Persist.Sessions :=
  Persist.mkSessions
    [Chat.mk (js "c2") (js "New Chat") (js "llama3") [] (js "2024-01-02");
     Chat.mk (js "c1") (js "New Chat") (js "llama3")
       [Message.mk (js "hi") (js "user") (js "u1") None;
        Message.mk (js "He") (js "ai") (js "u2") (Some true)]
       (js "2024-01-01")]
    (Some (js "c1")).

(** The store of the session that starts from that collection: the
    chats and the pointer as [persist] reads them back. *)
Definition interrupted_state : State :=
  mkState (Persist.saved_chats interrupted_sessions)
          (Persist.saved_currentChatId interrupted_sessions)
          (Some (JArr [])) false None.

(** In the new session a message is sent on the chat whose reply was
    streaming when the store was saved; no call is under way. *)
Definition send_after_reload : list Action :=
  [DoSendMessage (js "c1") (js "again") (js "u3") (js "u4")].

(** * Vocabulary of the proofs *)

(** ** The lines of a buffer *)

(** The complete lines of a text and the unterminated rest after the
    last newline. *)
Fixpoint lines_of (s : jsstring) : list jsstring * jsstring :=
  match s with
  | [] => ([], [])
  | c :: rest =>
      let (ls, rem) := lines_of rest in
      if N.eqb c newline then ([] :: ls, rem)
      else match ls with
           | [] => ([], c :: rem)
           | l :: ls' => ((c :: l) :: ls', rem)
           end
  end.

(** The lines that pass [if (!line.trim()) continue]. *)
Definition nonblank (line : jsstring) : bool := negb (is_empty (trim line)).

Section Lines.
Context {rt : Runtime}.

(** The body of the inner loop on each of some lines in turn. *)
Definition handle_lines (ls : list jsstring) (st : Progress * list Effect)
  : Progress * list Effect :=
  fold_left (fun acc line => process_line line acc) ls st.

End Lines.

(** ** The read loop between two events *)

(** The state of the reader between two chunks: the inner loop has
    taken every newline out of the buffer. *)
Definition settled (r : Reader) : Prop := indexOf newline (buffer r) = None.

(** The values a stream delivers before it ends, and their bytes. *)
Definition reads (values : list (option (list byte))) : list NetworkEvent :=
  map (fun v => ReadResolved v false) values.

Definition bytes_read (values : list (option (list byte))) : list byte :=
  flat_map (fun v => match v with Some bytes => bytes | None => [] end)
           values.

(** The last event of a stream: it ends, or reading it fails. *)
Definition last_read (ending : Ending) : NetworkEvent :=
  match ending with
  | StreamEnds value => ReadResolved value true
  | StreamFails message => ReadRejected message
  end.

(** ** Updates of the placeholder *)

(** After the two messages are appended, every update of a call maps a
    function over the messages that carry the placeholder's timestamp,
    in the chats that carry the call's id. *)
Definition message_update (e : Effect) (m : Message.t) : Message.t :=
  match e with
  | SetText t => with_text t m
  | SetError message =>
      with_isStreaming false (with_text (js "Error: " ++ message) m)
  | SetFinalize => with_isStreaming false m
  | SetAppend _ | Fetch _ | UpdateSpeedZero | ConsoleError _ => m
  end.

(** The two updates that add a message. *)
Definition appends (e : Effect) : bool :=
  match e with SetAppend _ => true | _ => false end.

(** What a sequence of effects does to the placeholder. *)
Definition updates (es : list Effect) (m : Message.t) : Message.t :=
  fold_left (fun acc e => message_update e acc) es m.

(** A function applied to the placeholder of a call in the store. *)
Definition on_placeholder (c : Call) (g : Message.t -> Message.t) (s : State)
  : State :=
  map_chat (chatId c) (map_message (aiTimestamp c) g) s.

(** The effects of the read loop: text updates and log entries. *)
Definition quiet (e : Effect) : bool :=
  match e with SetText _ | ConsoleError _ => true | _ => false end.

(** The effects that can come before the finalize update once the call
    is suspended at [fetch]. *)
Definition calm (e : Effect) : bool :=
  match e with
  | SetText _ | ConsoleError _ | SetError _ | UpdateSpeedZero => true
  | _ => false
  end.

(** How often the finalize update occurs among the effects of a call. *)
Definition finalizations (es : list Effect) : nat :=
  List.length (filter (fun e => match e with SetFinalize => true | _ => false end)
                      es).

(** ** The invariant of the interleaved calls *)

(** A task guards a message: it is under way on the message's chat and
    the message carries its placeholder's timestamp. *)
Definition guards (ts : list Task) (chat message : jsstring) : Prop :=
  exists j t,
    nth_error ts j = Some t /\ under_way t = true
    /\ chatId (call t) = chat /\ aiTimestamp (call t) = message.

(** Every message marked as streaming is guarded by a task. *)
Definition covered (cs : list Chat.t) (ts : list Task) : Prop :=
  forall chat m,
    In chat cs -> In m (Chat.messages chat) -> streaming m = true ->
    guards ts (Chat.id chat) (Message.timestamp m).

(** No two tasks are under way on the same chat id. *)
Definition exclusive (ts : list Task) : Prop :=
  forall i j t1 t2,
    nth_error ts i = Some t1 -> nth_error ts j = Some t2 ->
    under_way t1 = true -> under_way t2 = true ->
    chatId (call t1) = chatId (call t2) -> i = j.

(** A store in which no message is marked as streaming: the initial
    state, or a store that was saved while no reply was streaming. *)
Definition none_streaming (s : State) : Prop :=
  forall chat m,
    In chat (chats s) -> In m (Chat.messages chat) -> streaming m = false.

(** What every action of a disciplined run keeps. *)
Definition invariant (w : World) : Prop :=
  covered (chats (store w)) (tasks w)
  /\ exclusive (tasks w)
  /\ at_most_one_streaming (store w).

(** A function on messages that keeps the timestamp and never marks a
    message as streaming. *)
Definition calming (g : Message.t -> Message.t) : Prop :=
  forall m, Message.timestamp (g m) = Message.timestamp m
            /\ (streaming (g m) = true -> streaming m = true).

(** ** Texts that [stringify] writes *)

Section Texts.
Local Open Scope N_scope.

(** A number literal the store writes: a non-negative integer. *)
Definition integer_literal (lit : jsstring) : bool :=
  match lit with
  | [] => false
  | d :: ds =>
      if d =? 48 then is_empty ds
      else in_range 49 57 d && forallb is_digit ds
  end.

(** A tree whose numbers are such literals. *)
Fixpoint plain (j : json) : bool :=
  match j with
  | JNum lit => integer_literal lit
  | JArr elements => forallb plain elements
  | JObj members => forallb (fun kv => plain (snd kv)) members
  | _ => true
  end.

(** What can follow a value in the text of a tree: nothing, a comma or
    a closing bracket or brace. *)
Definition closes (rest : jsstring) : Prop :=
  rest = [] \/ exists c r, rest = c :: r /\ (c = 44 \/ c = 93 \/ c = 125).

(** The text of a member of an object. *)
Definition member_text (kv : jsstring * json) : jsstring :=
  Persist.quote (fst kv) ++ 58 :: Persist.stringify (snd kv).

(** What the main statement says of one tree. *)
Definition reads_back (j : json) : Prop :=
  plain j = true ->
  forall (fuel : nat) (rest : jsstring),
    (List.length (Persist.stringify j) <= fuel)%nat -> closes rest ->
    parse_value fuel (Persist.stringify j ++ rest) = Some (j, rest).

End Texts.

(** ** Fuel of the parser *)

(** With fuel past twice the length of the text, more fuel changes
    nothing. *)
Definition settled_fuel (s : jsstring) : Prop :=
  (forall f f', 2 * List.length s + 1 <= f -> f <= f' ->
                parse_value f' s = parse_value f s)
  /\ (forall f f' acc, 2 * List.length s + 2 <= f -> f <= f' ->
                       parse_elements f' s acc = parse_elements f s acc)
  /\ (forall f f' acc, 2 * List.length s + 2 <= f -> f <= f' ->
                       parse_members f' s acc = parse_members f s acc).

(** ** A chat with history *)

(** A chat with a question and its answer from an earlier call. *)
Definition earlier_chat : Chat.t :=
  Chat.mk (js "c1") (js "New Chat") (js "llama3")
    [Message.mk (js "hello") (js "user") (js "t1") None;
     Message.mk (js "Hi there") (js "ai") (js "t2") (Some false)]
    (js "2024-01-01T00:00:00.000Z").

(** ** What a call leaves alone *)

(** The fields of a chat that no update of [sendMessage] writes. *)
Definition chat_header (chat : Chat.t)
  : jsstring * jsstring * jsstring * jsstring :=
  (Chat.id chat, Chat.title chat, Chat.model chat, Chat.createdAt chat).

(** What an effect of a call does to a chat with the call's id. *)
Definition chat_update (c : Call) (e : Effect) : Chat.t -> Chat.t :=
  match e with
  | SetAppend message =>
      fun chat => with_messages (Chat.messages chat ++ [message]) chat
  | SetText aiText => map_message (aiTimestamp c) (with_text aiText)
  | SetError message =>
      map_message (aiTimestamp c)
        (fun msg => with_isStreaming false
                      (with_text (js "Error: " ++ message) msg))
  | SetFinalize => map_message (aiTimestamp c) (with_isStreaming false)
  | Fetch _ | UpdateSpeedZero | ConsoleError _ => fun chat => chat
  end.

(** Between two stores: the fields other than [chats], the list of
    chats with its order and headers, and every chat with another id
    than [chatId] are the same. *)
Definition rest_kept (chatId : jsstring) (s store : State) : Prop :=
  currentChatId store = currentChatId s
  /\ availableModels store = availableModels s
  /\ loadingModels store = loadingModels s
  /\ apiError store = apiError s
  /\ map chat_header (chats store) = map chat_header (chats s)
  /\ forall n chat,
       nth_error (chats s) n = Some chat -> Chat.id chat <> chatId ->
       nth_error (chats store) n = Some chat.

(** ** The text of a stream *)

(** The text a line carries in [message.content], as [process_line]
    reads it; the empty text when the line does not parse or carries no
    text there. *)
Definition delta_of (line : jsstring) : jsstring :=
  match JSON_parse line with
  | Some parsed =>
      match message_content parsed with
      | Some (Some (JStr delta)) => delta
      | _ => []
      end
  | None => []
  end.

(** The complete non-blank lines of the text decoded from the bytes of
    a stream. *)
Definition complete_lines (bytes : list byte) : list jsstring :=
  filter nonblank (fst (lines_of (snd (decode new_TextDecoder bytes)))).

(** The effects that leave everything but the text of the placeholder
    alone. *)
Definition silent (e : Effect) : bool :=
  match e with
  | SetText _ | ConsoleError _ | Fetch _ | UpdateSpeedZero => true
  | SetAppend _ | SetError _ | SetFinalize => false
  end.

(** ** Stores and worlds of the examples *)

(** A store with two chats: one with a history, one whose answer is
    streaming. *)
Definition two_chats_state : State :=
  mkState
    [earlier_chat;
     Chat.mk (js "c2") (js "U") (js "llama3")
       [Message.mk (js "hello") (js "user") (js "u3") None;
        Message.mk (js "He") (js "ai") (js "u4") (Some true)]
       (js "2024-01-02T00:00:00.000Z")]
    (Some (js "c2")) (Some (JArr [])) false None.

(** A store whose one chat has a history. *)
Definition history_state : State :=
  mkState [earlier_chat] (Some (js "c1")) (Some (JArr [])) false None.

(** The pointer to the current chat is null or the id of a chat of the
    store. *)
Definition current_chat_listed (s : State) : Prop :=
  match currentChatId s with
  | Some chatId => listed chatId s = true
  | None => True
  end.

Section Played.
Context {rt : Runtime}.

(** A sequence of actions, each allowed in the world it is played in. *)
Fixpoint play_by (allowed : World -> Action -> bool) (w : World)
  (actions : list Action) : option World :=
  match actions with
  | [] => Some w
  | a :: rest =>
      if allowed w a then
        match act w a with
        | Some w' => play_by allowed w' rest
        | None => None
        end
      else None
  end.

End Played.

(** Two chats are created while the models are fetched twice, one
    request failing; the first chat is opened from the sidebar and
    deleted. *)
Definition tour : list Action :=
  [DoFetchModels;
   DoCreateChat (js "T") (js "llama3") (js "c1") (js "2024-01-01");
   DoFetchModels;
   ModelsSettled (inl (js "Failed to fetch models"));
   DoCreateChat (js "U") (js "llama3") (js "c2") (js "2024-01-02");
   ModelsSettled (inr (Some (JArr [])));
   DoSetCurrentChat (js "c1");
   DoDeleteChat (js "c1")].

Definition tour_world : World :=
  match play false initial_world tour with
  | Some w => w
  | None => initial_world
  end.

(** ** Lines that end with a carriage return *)

(** A line of a stream whose lines end with CR LF, as the inner loop
    cuts it off. *)
Definition with_cr (line : jsstring) : jsstring := line ++ [13%N].

(** The answer of a parser when a carriage return follows the text. *)
Definition followed {A : Type} (r : option (A * jsstring))
  : option (A * jsstring) :=
  match r with
  | Some (v, rest) => Some (v, rest ++ [13%N])
  | None => None
  end.

(** * Proofs *)

(** ** Basic facts *)

Lemma str_eqb_refl (a : jsstring) : str_eqb a a = true.
Proof.
  induction a as [|x a IH]; simpl; [reflexivity|].
  now rewrite N.eqb_refl, IH.
Qed.

Lemma str_eqb_eq (a b : jsstring) : str_eqb a b = true <-> a = b.
Proof.
  split; [|intros ->; apply str_eqb_refl].
  revert b; induction a as [|x a IH]; intros [|y b]; simpl; try discriminate;
    [reflexivity|].
  intros H; apply andb_true_iff in H as [Hx Hr].
  apply N.eqb_eq in Hx; subst; f_equal; auto.
Qed.

Lemma str_eqb_neq (a b : jsstring) : str_eqb a b = false <-> a <> b.
Proof.
  split.
  - intros H E; apply str_eqb_eq in E; congruence.
  - intros H; destruct (str_eqb a b) eqn:E; [|reflexivity].
    apply str_eqb_eq in E; contradiction.
Qed.

(** ** The inner loop cuts a buffer into its lines *)

Lemma indexOf_None_lines (s : jsstring) :
  indexOf newline s = None -> lines_of s = ([], s).
Proof.
  induction s as [|c s IH]; simpl; [reflexivity|].
  destruct (N.eqb c newline) eqn:E; [discriminate|].
  destruct (indexOf newline s); [discriminate|].
  intros _. now rewrite IH.
Qed.

Lemma indexOf_Some_lines (s : jsstring) (n : nat) :
  indexOf newline s = Some n ->
  lines_of s = (firstn n s :: fst (lines_of (skipn (n + 1) s)),
                snd (lines_of (skipn (n + 1) s)))
  /\ List.length (skipn (n + 1) s) < List.length s.
Proof.
  revert n; induction s as [|c s IH]; simpl; [discriminate|].
  intros n. destruct (N.eqb c newline) eqn:E.
  - intros [= <-]. simpl. destruct (lines_of s); simpl. split; [reflexivity|lia].
  - destruct (indexOf newline s) as [m|]; simpl; [|discriminate].
    intros [= <-]. destruct (IH m eq_refl) as [-> Hlen]. simpl.
    split; [reflexivity|lia].
Qed.

Lemma lines_of_app (a b : jsstring) :
  lines_of (a ++ b) =
  (fst (lines_of a) ++ fst (lines_of (snd (lines_of a) ++ b)),
   snd (lines_of (snd (lines_of a) ++ b))).
Proof.
  induction a as [|c a IH]; simpl.
  - now destruct (lines_of b).
  - rewrite IH. destruct (lines_of a) as [la ra]; simpl.
    destruct (lines_of (ra ++ b)) as [lb rb] eqn:Eb; simpl.
    destruct (N.eqb c newline) eqn:E; simpl.
    + now rewrite Eb.
    + destruct la as [|l la']; simpl.
      * rewrite Eb. simpl. rewrite E. now destruct lb.
      * now rewrite Eb.
Qed.

Lemma lines_of_rest_settled (s : jsstring) :
  indexOf newline (snd (lines_of s)) = None.
Proof.
  induction s as [|c s IH]; simpl; [reflexivity|].
  destruct (lines_of s) as [ls rem]; simpl in *.
  destruct (N.eqb c newline) eqn:E; simpl; [assumption|].
  destruct ls; simpl; [|assumption].
  now rewrite E, IH.
Qed.

(** With the buffer's length as fuel the loop runs until no newline is
    left: it hands the non-blank complete lines to the handler, in
    order, and leaves the unterminated rest. *)
Lemma drain_lines {A : Type} (handle : jsstring -> A -> A) (fuel : nat) :
  forall (buf : jsstring) (a : A),
    List.length buf <= fuel ->
    drain fuel handle buf a =
    (snd (lines_of buf),
     fold_left (fun acc line => handle line acc)
               (filter nonblank (fst (lines_of buf))) a).
Proof.
  induction fuel as [|fuel IH]; intros buf a Hlen.
  - destruct buf; [reflexivity|simpl in Hlen; lia].
  - simpl. destruct (indexOf newline buf) as [n|] eqn:E.
    + destruct (indexOf_Some_lines _ _ E) as [-> Hlt]. simpl.
      unfold slice, slice_from, nonblank. simpl. rewrite Nat.sub_0_r.
      destruct (is_empty (trim (firstn n buf))); simpl;
        apply IH; lia.
    + now rewrite (indexOf_None_lines _ E).
Qed.

Lemma drain_terminates {A : Type} (handle : jsstring -> A -> A)
  (buf : jsstring) (a : A) :
  indexOf newline (fst (drain (List.length buf) handle buf a)) = None.
Proof.
  rewrite drain_lines by lia. apply lines_of_rest_settled.
Qed.

Lemma decode_app (d : Utf8Decoder) (a b : list byte) :
  decode d (a ++ b) =
  (fst (decode (fst (decode d a)) b),
   snd (decode d a) ++ snd (decode (fst (decode d a)) b)).
Proof.
  revert d; induction a as [|x a IH]; intros d; simpl.
  - now destruct (decode d b).
  - destruct (decode_byte d x) as [d1 o1]. rewrite IH.
    destruct (decode d1 a) as [d2 o2]; simpl.
    destruct (decode d2 b) as [d3 o3]; simpl.
    now rewrite app_assoc.
Qed.

(** ** The read loop in terms of lines *)

Section ReadLoop.
Context {rt : Runtime}.

Lemma process_line_effects (line : jsstring) (p : Progress)
  (effects : list Effect) :
  process_line line (p, effects) =
  (fst (process_line line (p, [])),
   effects ++ snd (process_line line (p, []))).
Proof.
  unfold process_line.
  destruct (JSON_parse line) as [parsed|]; [|reflexivity].
  destruct (message_content parsed) as [content|]; [|reflexivity].
  destruct (ToBoolean content); [|now rewrite app_nil_r].
  destruct content as [v|]; [|now rewrite app_nil_r].
  destruct (appended_text v); [|reflexivity].
  destruct (token_estimate v); reflexivity.
Qed.

Lemma handle_lines_effects (ls : list jsstring) :
  forall (p : Progress) (effects : list Effect),
    handle_lines ls (p, effects) =
    (fst (handle_lines ls (p, [])),
     effects ++ snd (handle_lines ls (p, []))).
Proof.
  unfold handle_lines.
  induction ls as [|l ls IH]; intros p effects; cbn [fold_left].
  - simpl. now rewrite app_nil_r.
  - rewrite process_line_effects.
    destruct (process_line l (p, [])) as [p1 e1]; cbn [fst snd].
    rewrite IH, (IH p1 e1). cbn [fst snd]. now rewrite app_assoc.
Qed.

Lemma handle_lines_app (l1 l2 : list jsstring) (st : Progress * list Effect) :
  handle_lines (l1 ++ l2) st = handle_lines l2 (handle_lines l1 st).
Proof. apply fold_left_app. Qed.

Lemma feed_by_lines (value : list byte) (r : Reader) :
  feed value r =
  (mkReader (fst (decode (decoder r) value))
            (snd (lines_of (buffer r ++ snd (decode (decoder r) value))))
            (fst (handle_lines
                    (filter nonblank
                       (fst (lines_of
                               (buffer r ++ snd (decode (decoder r) value)))))
                    (progress r, []))),
   snd (handle_lines
          (filter nonblank
             (fst (lines_of (buffer r ++ snd (decode (decoder r) value)))))
          (progress r, []))).
Proof.
  unfold feed. destruct (decode (decoder r) value) as [d decoded]; simpl.
  rewrite drain_lines by lia. fold (handle_lines
    (filter nonblank (fst (lines_of (buffer r ++ decoded)))) (progress r, [])).
  now destruct (handle_lines _ _).
Qed.

(** Feeding two chunks one after the other is feeding their
    concatenation. *)
Lemma feed_app (a b : list byte) (r : Reader) :
  feed (a ++ b) r =
  (fst (feed b (fst (feed a r))),
   snd (feed a r) ++ snd (feed b (fst (feed a r)))).
Proof.
  rewrite !feed_by_lines. simpl. rewrite decode_app. simpl.
  destruct (decode (decoder r) a) as [d1 o1]; simpl.
  destruct (decode d1 b) as [d2 o2]; simpl.
  rewrite app_assoc, lines_of_app.
  destruct (lines_of (buffer r ++ o1)) as [la ra]; simpl.
  destruct (lines_of (ra ++ o2)) as [lb rb]; simpl.
  rewrite filter_app, handle_lines_app.
  destruct (handle_lines (filter nonblank la) (progress r, [])) as [p1 e1].
  simpl. rewrite handle_lines_effects. reflexivity.
Qed.

Lemma feed_settled (value : list byte) (r : Reader) :
  settled (fst (feed value r)).
Proof.
  rewrite feed_by_lines. apply lines_of_rest_settled.
Qed.

Lemma feed_nil (r : Reader) : settled r -> feed [] r = (r, []).
Proof.
  intros H. rewrite feed_by_lines. simpl. rewrite app_nil_r.
  rewrite (indexOf_None_lines _ H). simpl. now destruct r.
Qed.

Lemma resume_chunk (c : Call) (r : Reader) (bytes : list byte) :
  resume (mkTask c (AwaitingRead r)) (ReadResolved (Some bytes) false) =
  Some (mkTask c (AwaitingRead (fst (feed bytes r))), snd (feed bytes r)).
Proof. unfold resume; simpl. now destruct (feed bytes r). Qed.

Lemma resume_no_chunk (c : Call) (r : Reader) :
  resume (mkTask c (AwaitingRead r)) (ReadResolved None false) =
  Some (mkTask c (AwaitingRead r), []).
Proof. reflexivity. Qed.

(** Reading a stream chunk by chunk is feeding all of its bytes at
    once. *)
Lemma run_reads (c : Call) (values : list (option (list byte))) :
  forall r : Reader,
    settled r ->
    run (mkTask c (AwaitingRead r)) (reads values) =
    Some (mkTask c (AwaitingRead (fst (feed (bytes_read values) r))),
          snd (feed (bytes_read values) r)).
Proof.
  induction values as [|v values IH]; intros r Hr; simpl.
  - now rewrite (feed_nil _ Hr).
  - destruct v as [bytes|]; cbn [reads map run bytes_read flat_map].
    + rewrite resume_chunk, feed_app.
      fold (reads values). fold (bytes_read values).
      now rewrite (IH _ (feed_settled bytes r)).
    + rewrite resume_no_chunk. fold (reads values). fold (bytes_read values).
      now rewrite (IH r Hr).
Qed.

End ReadLoop.

(** ** The lines the parser sees *)

Lemma fold_collect (ls seen : list jsstring) :
  fold_left (fun acc line => collect line acc) ls seen = seen ++ ls.
Proof.
  revert seen; induction ls as [|l ls IH]; intros seen; simpl.
  - now rewrite app_nil_r.
  - rewrite IH. unfold collect. now rewrite <- app_assoc.
Qed.

Lemma feed_lines_by_lines (value : list byte) (d : Utf8Decoder)
  (buf : jsstring) :
  feed_lines value (d, buf) =
  ((fst (decode d value), snd (lines_of (buf ++ snd (decode d value)))),
   filter nonblank (fst (lines_of (buf ++ snd (decode d value))))).
Proof.
  unfold feed_lines; simpl. destruct (decode d value) as [d1 decoded]; simpl.
  rewrite drain_lines by lia. now rewrite fold_collect.
Qed.

(** The lines seen over a sequence of chunks are the non-blank complete
    lines of the decoded text of all the bytes. *)
Lemma lines_of_chunks_concat (chunks : list (list byte)) :
  forall (d : Utf8Decoder) (buf : jsstring),
    indexOf newline buf = None ->
    lines_of_chunks chunks (d, buf) =
    filter nonblank
      (fst (lines_of (buf ++ snd (decode d (List.concat chunks))))).
Proof.
  induction chunks as [|value rest IH]; intros d buf Hbuf.
  - simpl. rewrite app_nil_r. now rewrite (indexOf_None_lines _ Hbuf).
  - cbn [lines_of_chunks List.concat]. rewrite feed_lines_by_lines.
    rewrite IH by apply lines_of_rest_settled.
    rewrite decode_app. cbn [fst snd].
    rewrite app_assoc, (lines_of_app (buf ++ snd (decode d value))).
    cbn [fst snd]. now rewrite filter_app.
Qed.

Lemma bytes_read_chunks (chunks : list (list byte)) :
  bytes_read (map Some chunks) = List.concat chunks.
Proof.
  unfold bytes_read. induction chunks as [|c cs IH]; simpl; [reflexivity|].
  now rewrite IH.
Qed.

(** ** What the effects of a call do to the store *)

Lemma message_update_timestamp (e : Effect) (m : Message.t) :
  Message.timestamp (message_update e m) = Message.timestamp m.
Proof. now destruct e. Qed.

Lemma updates_timestamp (es : list Effect) :
  forall m, Message.timestamp (updates es m) = Message.timestamp m.
Proof.
  unfold updates. induction es as [|e es IH]; intros m; simpl; [reflexivity|].
  now rewrite IH, message_update_timestamp.
Qed.

Lemma updates_app (a b : list Effect) (m : Message.t) :
  updates (a ++ b) m = updates b (updates a m).
Proof. apply fold_left_app. Qed.

Lemma map_message_same (ts : jsstring) (chat : Chat.t) :
  map_message ts (fun m => m) chat = chat.
Proof.
  destruct chat as [i t md ms c]. unfold map_message, with_messages; simpl.
  f_equal. induction ms as [|m ms IH]; simpl; [reflexivity|].
  rewrite IH. now destruct (str_eqb (Message.timestamp m) ts).
Qed.

Lemma map_chat_ext (i : jsstring) (f g : Chat.t -> Chat.t) (s : State) :
  (forall chat, f chat = g chat) -> map_chat i f s = map_chat i g s.
Proof.
  intros H. unfold map_chat. f_equal. apply map_ext. intros chat.
  now rewrite H.
Qed.

Lemma map_chat_same (i : jsstring) (s : State) :
  map_chat i (fun chat => chat) s = s.
Proof.
  destruct s as [cs cur am lm ae]. unfold map_chat, with_chats; simpl.
  f_equal. induction cs as [|c cs IH]; simpl; [reflexivity|].
  rewrite IH. now destruct (str_eqb (Chat.id c) i).
Qed.

Lemma map_chat_compose (i : jsstring) (f g : Chat.t -> Chat.t) (s : State) :
  (forall chat, Chat.id (f chat) = Chat.id chat) ->
  map_chat i g (map_chat i f s) = map_chat i (fun chat => g (f chat)) s.
Proof.
  intros Hid. unfold map_chat, with_chats; simpl. f_equal.
  rewrite map_map. apply map_ext. intros chat.
  destruct (str_eqb (Chat.id chat) i) eqn:E.
  - now rewrite Hid, E.
  - now rewrite E.
Qed.

Lemma map_message_compose (ts : jsstring) (g1 g2 : Message.t -> Message.t)
  (chat : Chat.t) :
  (forall m, Message.timestamp (g1 m) = Message.timestamp m) ->
  map_message ts g2 (map_message ts g1 chat) =
  map_message ts (fun m => g2 (g1 m)) chat.
Proof.
  intros Hts. unfold map_message, with_messages; simpl. f_equal.
  rewrite map_map. apply map_ext. intros m.
  destruct (str_eqb (Message.timestamp m) ts) eqn:E.
  - now rewrite Hts, E.
  - now rewrite E.
Qed.

Lemma perform_update (c : Call) (e : Effect) (s : State) :
  appends e = false -> perform c e s = on_placeholder c (message_update e) s.
Proof.
  unfold on_placeholder.
  destruct e; simpl; try discriminate; intros _; try reflexivity;
    rewrite (map_chat_ext _ _ (fun chat => chat) _
               (map_message_same (aiTimestamp c)));
    now rewrite map_chat_same.
Qed.

Lemma perform_all_app (c : Call) (a b : list Effect) (s : State) :
  perform_all c (a ++ b) s = perform_all c b (perform_all c a s).
Proof. apply fold_left_app. Qed.

Lemma perform_all_updates (c : Call) (es : list Effect) :
  forall s, forallb (fun e => negb (appends e)) es = true ->
            perform_all c es s = on_placeholder c (updates es) s.
Proof.
  induction es as [|e es IH]; intros s H.
  - simpl. unfold on_placeholder.
    rewrite (map_chat_ext _ _ (fun chat => chat) _
               (map_message_same (aiTimestamp c))).
    now rewrite map_chat_same.
  - simpl in H. apply andb_true_iff in H as [He Hes].
    apply negb_true_iff in He.
    change (perform_all c (e :: es) s)
      with (perform_all c es (perform c e s)).
    rewrite (IH _ Hes), (perform_update _ _ _ He). unfold on_placeholder.
    rewrite map_chat_compose by reflexivity.
    apply map_chat_ext. intros chat.
    change (updates (e :: es))
      with (fun m => updates es (message_update e m)).
    apply (map_message_compose _ (message_update e) (updates es)).
    intros m. apply message_update_timestamp.
Qed.

Lemma in_map_chat (i : jsstring) (f : Chat.t -> Chat.t) (s : State)
  (chat' : Chat.t) :
  In chat' (chats (map_chat i f s)) <->
  exists chat, In chat (chats s) /\
               chat' = if str_eqb (Chat.id chat) i then f chat else chat.
Proof.
  unfold map_chat, with_chats; simpl. rewrite in_map_iff.
  split; intros [chat [H1 H2]]; exists chat; split; auto.
Qed.

Lemma find_chat_some (i : jsstring) (cs : list Chat.t) :
  (exists chat, In chat cs /\ Chat.id chat = i) ->
  exists chat, find (fun c => str_eqb (Chat.id c) i) cs = Some chat.
Proof.
  intros [chat [Hin Hid]].
  destruct (find (fun c => str_eqb (Chat.id c) i) cs) as [found|] eqn:E.
  - now exists found.
  - pose proof (find_none _ _ E _ Hin) as H. simpl in H.
    apply str_eqb_neq in H. contradiction.
Qed.

Lemma find_chat_none (i : jsstring) (cs : list Chat.t) :
  (forall chat, In chat cs -> Chat.id chat <> i) ->
  find (fun c => str_eqb (Chat.id c) i) cs = None.
Proof.
  intros H. destruct (find (fun c => str_eqb (Chat.id c) i) cs) as [c|] eqn:E;
    [|reflexivity].
  apply find_some in E as [Hin Hid]. apply str_eqb_eq in Hid.
  now destruct (H c Hin).
Qed.

(** ** The effects of a call *)

Lemma quiet_calm (es : list Effect) :
  forallb quiet es = true -> forallb calm es = true.
Proof.
  induction es as [|e es IH]; simpl; [reflexivity|].
  intros H; apply andb_true_iff in H as [He Hes].
  rewrite (IH Hes). now destruct e.
Qed.

Lemma calm_no_append (es : list Effect) :
  forallb calm es = true -> forallb (fun e => negb (appends e)) es = true.
Proof.
  induction es as [|e es IH]; simpl; [reflexivity|].
  intros H; apply andb_true_iff in H as [He Hes].
  rewrite (IH Hes). now destruct e.
Qed.

Lemma calm_no_finalize (es : list Effect) :
  forallb calm es = true -> ~ In SetFinalize es.
Proof.
  intros H Hin. rewrite forallb_forall in H. now specialize (H _ Hin).
Qed.

Section CallFacts.
Context {rt : Runtime}.

Lemma process_line_quiet (line : jsstring) (p : Progress) :
  forallb quiet (snd (process_line line (p, []))) = true.
Proof.
  unfold process_line.
  destruct (JSON_parse line) as [parsed|]; [|reflexivity].
  destruct (message_content parsed) as [content|]; [|reflexivity].
  destruct (ToBoolean content); [|reflexivity].
  destruct content as [v|]; [|reflexivity].
  destruct (appended_text v); [|reflexivity].
  destruct (token_estimate v); reflexivity.
Qed.

Lemma handle_lines_quiet (ls : list jsstring) :
  forall p, forallb quiet (snd (handle_lines ls (p, []))) = true.
Proof.
  induction ls as [|l ls IH]; intros p; [reflexivity|].
  change (handle_lines (l :: ls) (p, []))
    with (handle_lines ls (process_line l (p, []))).
  pose proof (process_line_quiet l p) as Hl.
  destruct (process_line l (p, [])) as [p1 e1]; cbn [snd] in Hl.
  rewrite handle_lines_effects. cbn [snd].
  now rewrite forallb_app, Hl, IH.
Qed.

Lemma feed_quiet (value : list byte) (r : Reader) :
  forallb quiet (snd (feed value r)) = true.
Proof. rewrite feed_by_lines. apply handle_lines_quiet. Qed.

Lemma flush_quiet (r : Reader) :
  forallb quiet (snd (flush_buffer r)) = true.
Proof.
  unfold flush_buffer.
  destruct (is_empty (trim (buffer r))); [reflexivity|].
  destruct (JSON_parse (buffer r)) as [parsed|]; [|reflexivity].
  destruct (message_content parsed) as [content|]; [|reflexivity].
  destruct (ToBoolean content); [|reflexivity].
  destruct content as [v|]; [|reflexivity].
  destruct (appended_text v); reflexivity.
Qed.

Lemma run_app (t : Task) (a b : list NetworkEvent) :
  run t (a ++ b) =
  match run t a with
  | None => None
  | Some (t1, e1) =>
      match run t1 b with
      | None => None
      | Some (t2, e2) => Some (t2, e1 ++ e2)
      end
  end.
Proof.
  revert t; induction a as [|ev a IH]; intros t; simpl.
  - now destruct (run t b) as [[t2 e2]|].
  - destruct (resume t ev) as [[t1 e1]|]; [|reflexivity].
    rewrite IH. destruct (run t1 a) as [[t2 e2]|]; [|reflexivity].
    destruct (run t2 b) as [[t3 e3]|]; [|reflexivity].
    now rewrite app_assoc.
Qed.

Lemma resume_last (c : Call) (r : Reader) (ending : Ending) :
  exists before,
    resume (mkTask c (AwaitingRead r)) (last_read ending) =
    Some (mkTask c Returned, before ++ [SetFinalize])
    /\ forallb calm before = true.
Proof.
  destruct ending as [[bytes|]|message]; unfold resume; simpl.
  - pose proof (feed_quiet bytes r) as Hq.
    destruct (feed bytes r) as [r1 e1]; simpl in Hq.
    pose proof (flush_quiet r1) as Hf.
    destruct (flush_buffer r1) as [p logged]; simpl in Hf.
    exists (e1 ++ logged ++ [UpdateSpeedZero]). split.
    + unfold on_completion. now rewrite <- !app_assoc.
    + rewrite !forallb_app, (quiet_calm _ Hq), (quiet_calm _ Hf).
      reflexivity.
  - pose proof (flush_quiet r) as Hf.
    destruct (flush_buffer r) as [p logged]; simpl in Hf.
    exists (logged ++ [UpdateSpeedZero]). split.
    + unfold on_completion. now rewrite <- !app_assoc.
    + rewrite forallb_app, (quiet_calm _ Hf). reflexivity.
  - exists [SetError message; UpdateSpeedZero]. split; reflexivity.
Qed.

(** However the request goes, the suspended call runs to its end, and
    the finalize update is its last effect and occurs nowhere before. *)
Lemma run_network (c : Call) (net : Network) :
  exists before,
    run (mkTask c AwaitingFetch) (events_of net) =
    Some (mkTask c Returned, before ++ [SetFinalize])
    /\ forallb calm before = true.
Proof.
  destruct net as [message|hasBody| |values ending].
  - exists [SetError message; UpdateSpeedZero]. split; reflexivity.
  - exists [SetError (js "API request failed"); UpdateSpeedZero].
    split; reflexivity.
  - exists [SetError null_body_message; UpdateSpeedZero]. split; reflexivity.
  - cbn [events_of run]. unfold resume at 1. cbn [phase call negb].
    fold (reads values). fold (last_read ending).
    rewrite run_app, (run_reads c values (mkReader _ _ _))
      by reflexivity.
    set (r0 := mkReader new_TextDecoder [] (mkProgress [] (number_of_nat 0))).
    pose proof (feed_quiet (bytes_read values) r0) as Hq.
    destruct (feed (bytes_read values) r0) as [r1 e1]; cbn [fst snd] in *.
    destruct (resume_last c r1 ending) as [before [Hres Hcalm]].
    cbn [run]. rewrite Hres. exists (e1 ++ before). split.
    + cbn [app]. now rewrite app_nil_r, app_assoc.
    + now rewrite forallb_app, (quiet_calm _ Hq), Hcalm.
Qed.

End CallFacts.

(** ** The store after a call *)

Lemma perform_start (c : Call) (u a : Message.t) (effects : list Effect)
  (s : State) :
  forallb (fun e => negb (appends e)) effects = true ->
  perform_all c ([SetAppend u; SetAppend a] ++ effects) s =
  on_placeholder c (updates effects)
    (addMessage (chatId c) a (addMessage (chatId c) u s)).
Proof.
  intros H. rewrite perform_all_app. now rewrite perform_all_updates.
Qed.

(** The chats a call was started on, once the call has performed
    [effects] after appending [u] and [a]. *)
Lemma chat_after_call (c : Call) (u a : Message.t) (effects : list Effect)
  (s : State) (chat' : Chat.t) :
  forallb (fun e => negb (appends e)) effects = true ->
  Message.timestamp a = aiTimestamp c ->
  In chat' (chats (perform_all c ([SetAppend u; SetAppend a] ++ effects) s)) ->
  Chat.id chat' = chatId c ->
  exists chat,
    In chat (chats s) /\ Chat.id chat = chatId c /\
    Chat.messages chat' =
    map (fun m => if str_eqb (Message.timestamp m) (aiTimestamp c)
                  then updates effects m else m)
        (Chat.messages chat ++ [u])
    ++ [updates effects a].
Proof.
  intros Hno Hts Hin Hid. rewrite (perform_start _ _ _ _ _ Hno) in Hin.
  unfold on_placeholder in Hin.
  apply in_map_chat in Hin as [c2 [Hin2 ->]].
  apply in_map_chat in Hin2 as [c1 [Hin1 ->]].
  apply in_map_chat in Hin1 as [c0 [Hin0 ->]].
  destruct (str_eqb (Chat.id c0) (chatId c)) eqn:E0; simpl in *.
  - rewrite E0 in *. simpl in *. rewrite E0 in *. simpl in *.
    exists c0. split; [assumption|]. split; [now apply str_eqb_eq|].
    rewrite map_app. simpl. now rewrite Hts, str_eqb_refl.
  - rewrite E0 in *. rewrite E0 in *. apply str_eqb_neq in E0. contradiction.
Qed.

Lemma finalized (c : Call) (s : State) (chat : Chat.t) (m : Message.t) :
  In chat (chats (perform c SetFinalize s)) ->
  Chat.id chat = chatId c ->
  In m (Chat.messages chat) ->
  Message.timestamp m = aiTimestamp c ->
  Message.isStreaming m = Some false.
Proof.
  simpl. intros Hin Hid Hm Hts.
  apply in_map_chat in Hin as [c0 [_ ->]].
  destruct (str_eqb (Chat.id c0) (chatId c)) eqn:E0.
  - simpl in Hm. apply in_map_iff in Hm as [m0 [<- _]].
    destruct (str_eqb (Message.timestamp m0) (aiTimestamp c)) eqn:Em;
      [reflexivity|].
    apply str_eqb_neq in Em. contradiction.
  - apply str_eqb_neq in E0. contradiction.
Qed.

Lemma calm_finalizations (es : list Effect) :
  forallb calm es = true -> finalizations es = 0.
Proof.
  unfold finalizations. induction es as [|e es IH]; simpl; [reflexivity|].
  intros H; apply andb_true_iff in H as [He Hes].
  destruct e; try discriminate; simpl; auto.
Qed.

Section Claims.
Context {rt : Runtime}.

(** A call on an existing chat: its effects, however the request
    goes. *)
Lemma sendMessage_finishes (s : State)
  (chatId messageText uuid1 uuid2 : jsstring) (net : Network) (chat : Chat.t) :
  find (fun c => str_eqb (Chat.id c) chatId) (chats s) = Some chat ->
  exists before,
    forallb calm before = true /\
    sendMessage chatId messageText uuid1 uuid2 (events_of net) s =
    Finished
      (perform_all (mkCall chatId uuid2)
         ([SetAppend (Message.mk messageText (js "user") uuid1 None);
           SetAppend (Message.mk [] (js "ai") uuid2 (Some true))]
          ++ (Fetch (request_of chat
                       (Message.mk messageText (js "user") uuid1 None)
                       messageText)
              :: before ++ [SetFinalize])) s)
      ([SetAppend (Message.mk messageText (js "user") uuid1 None);
        SetAppend (Message.mk [] (js "ai") uuid2 (Some true))]
       ++ (Fetch (request_of chat
                    (Message.mk messageText (js "user") uuid1 None)
                    messageText)
           :: before ++ [SetFinalize])).
Proof.
  intros Hfind. unfold sendMessage, sendMessage_start. rewrite Hfind.
  cbn [Message.timestamp].
  destruct (run_network (mkCall chatId uuid2) net) as [before [Hrun Hcalm]].
  exists before. split; [assumption|]. now rewrite Hrun.
Qed.

(** C1: a call of [sendMessage] on an existing chat appends the
    placeholder and, however the request goes (fetch rejected, bad
    status, no body, a stream that ends or fails after any chunks), runs
    to its end; the finalize update is the last effect of the call and
    occurs exactly once, and afterwards no message with the
    placeholder's timestamp is marked as streaming in that chat. *)
Theorem finalize_runs_once (s : State)
  (chatId messageText uuid1 uuid2 : jsstring) (net : Network) :
  (exists chat, In chat (chats s) /\ Chat.id chat = chatId) ->
  exists store before,
    sendMessage chatId messageText uuid1 uuid2 (events_of net) s =
    Finished store (before ++ [SetFinalize])
    /\ finalizations before = 0
    /\ finalizations (before ++ [SetFinalize]) = 1
    /\ In (SetAppend (Message.mk [] (js "ai") uuid2 (Some true))) before
    /\ forall chat m,
         In chat (chats store) -> Chat.id chat = chatId ->
         In m (Chat.messages chat) -> Message.timestamp m = uuid2 ->
         Message.isStreaming m = Some false.
Proof.
  intros Hex. destruct (@find_chat_some _ _ Hex) as [chat Hfind].
  destruct (sendMessage_finishes s chatId messageText uuid1 uuid2 net chat Hfind)
    as [before [Hcalm Hsend]].
  set (u := Message.mk messageText (js "user") uuid1 None) in *.
  set (a := Message.mk [] (js "ai") uuid2 (Some true)) in *.
  set (f := Fetch (request_of chat u messageText)) in *.
  exists (perform_all (mkCall chatId uuid2)
            ([SetAppend u; SetAppend a] ++ f :: before ++ [SetFinalize]) s).
  exists ([SetAppend u; SetAppend a] ++ f :: before).
  assert (Hcount : finalizations ([SetAppend u; SetAppend a] ++ f :: before) = 0).
  { unfold finalizations; simpl. apply (calm_finalizations _ Hcalm). }
  repeat split.
  - rewrite Hsend. simpl. reflexivity.
  - exact Hcount.
  - unfold finalizations in *. rewrite filter_app, length_app, Hcount.
    reflexivity.
  - simpl. auto.
  - intros chat' m Hin Hid Hm Hts.
    change ([SetAppend u; SetAppend a] ++ f :: before ++ [SetFinalize])
      with (([SetAppend u; SetAppend a] ++ f :: before) ++ [SetFinalize])
      in Hin.
    rewrite perform_all_app in Hin.
    apply (finalized (mkCall chatId uuid2) _ chat' m Hin Hid Hm Hts).
Qed.

(** C8: [sendMessage] on an id that no chat of the store carries throws
    "Chat not found" before any update: the store, with its list of
    chats and every chat's messages, is the one the call found, and no
    call is left under way. *)
Theorem sendMessage_unknown_chat (s : State)
  (chatId messageText uuid1 uuid2 : jsstring) (events : list NetworkEvent) :
  (forall chat, In chat (chats s) -> Chat.id chat <> chatId) ->
  sendMessage_start chatId messageText uuid1 uuid2 s =
  inl (js "Chat not found")
  /\ sendMessage chatId messageText uuid1 uuid2 events s =
     Threw (js "Chat not found") s
  /\ forall w, store w = s ->
               act w (DoSendMessage chatId messageText uuid1 uuid2) = Some w.
Proof.
  intros H. pose proof (find_chat_none _ _ H) as Hfind.
  unfold sendMessage, act, sendMessage_start.
  repeat split.
  - now rewrite Hfind.
  - now rewrite Hfind.
  - intros w ->. now rewrite Hfind.
Qed.

(** C10: a line that parses to a record whose [message.content] is the
    empty string produces no delta: the loop's text and token count and
    the effects are as before the line, so the store is unchanged; the
    same holds when the record is the unterminated rest of the
    stream. *)
Theorem empty_content_is_no_delta (line : jsstring) (parsed : json)
  (p : Progress) (effects : list Effect) :
  JSON_parse line = Some parsed ->
  message_content parsed = Some (Some (JStr [])) ->
  process_line line (p, effects) = (p, effects)
  /\ (forall c s, perform_all c (snd (process_line line (p, []))) s = s)
  /\ (forall d, flush_buffer (mkReader d line p) = (p, [])).
Proof.
  intros Hparse Hcontent. unfold process_line, flush_buffer; simpl.
  rewrite Hparse, Hcontent. simpl. repeat split.
  intros d. now destruct (is_empty (trim line)).
Qed.

(** C5: the request of a call on an existing chat is built from the
    chat object found before the new messages were appended: its turns
    are those of the earlier messages (all of them, as no earlier
    message carries the new user message's timestamp), with the sender
    "user" sent as role "user" and "ai" as "assistant", followed by one
    turn of role "user" with the new text.  When no earlier message
    has that text, exactly one turn of the request carries it. *)
Theorem request_replays_history (s : State)
  (chatId messageText uuid1 uuid2 : jsstring) (chat : Chat.t) :
  find (fun c => str_eqb (Chat.id c) chatId) (chats s) = Some chat ->
  exists t request,
    sendMessage_start chatId messageText uuid1 uuid2 s =
    inr (t, [SetAppend (Message.mk messageText (js "user") uuid1 None);
             SetAppend (Message.mk [] (js "ai") uuid2 (Some true));
             Fetch request])
    /\ Request.model request = Chat.model chat
    /\ Request.stream request = true
    /\ Request.messages request =
       map turn_of
           (filter (fun m => negb (str_eqb (Message.timestamp m) uuid1))
                   (Chat.messages chat))
       ++ [Request.mkTurn (js "user") messageText]
    /\ ((forall m, In m (Chat.messages chat) -> Message.timestamp m <> uuid1) ->
        Request.messages request =
        map turn_of (Chat.messages chat)
        ++ [Request.mkTurn (js "user") messageText]
        /\ ((forall m, In m (Chat.messages chat) ->
                       Message.text m <> messageText) ->
            List.length
              (filter (fun turn => str_eqb (Request.content turn) messageText)
                      (Request.messages request)) = 1))
    /\ (forall m, Message.sender m = js "user" ->
                  Request.role (turn_of m) = js "user")
    /\ (forall m, Message.sender m = js "ai" ->
                  Request.role (turn_of m) = js "assistant").
Proof.
  intros Hfind. unfold sendMessage_start. rewrite Hfind.
  eexists. eexists. split; [reflexivity|]. simpl.
  split; [reflexivity|]. split; [reflexivity|]. split; [reflexivity|].
  split; [|split; intros m Hm; unfold turn_of, wire_role; simpl;
           now rewrite Hm].
  intros Hfresh.
  assert (Hall : filter (fun m => negb (str_eqb (Message.timestamp m) uuid1))
                        (Chat.messages chat) = Chat.messages chat).
  { apply forallb_filter_id, forallb_forall. intros m Hm.
    apply negb_true_iff, str_eqb_neq. now apply Hfresh. }
  rewrite Hall. split; [reflexivity|]. intros Htext.
  rewrite filter_app, length_app. simpl. rewrite str_eqb_refl. simpl.
  rewrite (proj2 (length_zero_iff_nil _)); [reflexivity|].
  clear Hall Hfresh Hfind.
  induction (Chat.messages chat) as [|m ms IH]; simpl; [reflexivity|].
  assert (Hm : Message.text m <> messageText) by (apply Htext; now left).
  apply str_eqb_neq in Hm. rewrite Hm.
  apply IH. intros m' Hm'. apply Htext. now right.
Qed.

(** C7: two sequences of chunks with the same bytes give the parser the
    same non-blank complete lines in the same order, wherever the chunk
    boundaries fall (inside a multi-byte character too): the lines are
    those of the text decoded from all the bytes.  The read loop, which
    hands exactly these lines to [process_line], is left in the same
    state with the same effects. *)
Theorem chunk_boundaries_do_not_matter (chunks1 chunks2 : list (list byte)) :
  List.concat chunks1 = List.concat chunks2 ->
  lines_of_chunks chunks1 (new_TextDecoder, []) =
  lines_of_chunks chunks2 (new_TextDecoder, [])
  /\ (forall c : Call,
        run (mkTask c (AwaitingRead new_reader)) (reads (map Some chunks1)) =
        run (mkTask c (AwaitingRead new_reader)) (reads (map Some chunks2)))
  /\ (forall c : Call,
        exists r,
          run (mkTask c (AwaitingRead new_reader)) (reads (map Some chunks1)) =
          Some (mkTask c (AwaitingRead r),
                snd (handle_lines
                       (lines_of_chunks chunks1 (new_TextDecoder, []))
                       (progress new_reader, [])))
          /\ progress r =
             fst (handle_lines
                    (lines_of_chunks chunks1 (new_TextDecoder, []))
                    (progress new_reader, []))).
Proof.
  intros Hsame. split; [|split].
  - rewrite !lines_of_chunks_concat by reflexivity. now rewrite Hsame.
  - intros c. rewrite !run_reads by reflexivity.
    now rewrite !bytes_read_chunks, Hsame.
  - intros c. rewrite run_reads by reflexivity.
    rewrite bytes_read_chunks, feed_by_lines.
    rewrite lines_of_chunks_concat by reflexivity.
    eexists. split; reflexivity.
Qed.

Lemma chat_survives (c : Call) (u a : Message.t) (effects : list Effect)
  (s : State) :
  forallb (fun e => negb (appends e)) effects = true ->
  (exists chat, In chat (chats s) /\ Chat.id chat = chatId c) ->
  exists chat',
    In chat' (chats (perform_all c ([SetAppend u; SetAppend a] ++ effects) s))
    /\ Chat.id chat' = chatId c.
Proof.
  intros Hno [chat [Hin Hid]]. rewrite (perform_start _ _ _ _ _ Hno).
  unfold on_placeholder, addMessage.
  assert (E : str_eqb (Chat.id chat) (chatId c) = true)
    by now apply str_eqb_eq.
  eexists. split.
  - apply in_map_chat. eexists. split; [|reflexivity].
    apply in_map_chat. eexists. split; [|reflexivity].
    apply in_map_chat. exists chat. split; [exact Hin|reflexivity].
  - rewrite E. simpl. rewrite E. simpl. now rewrite E.
Qed.

Lemma feed_hello :
  feed hello_stream new_reader =
  (mkReader (mkDecoder 0 0 0 0x80 0xBF true) []
            (mkProgress (js "Hello")
                        (S754_finite false 5629499534213120 (-52))),
   [SetText (js "He"); SetText (js "Hello")]).
Proof. vm_compute. reflexivity. Qed.

(** C2: when the bytes of the stream are the two lines
    [{"message":{"content":"He"}}] and [{"message":{"content":"llo"}}],
    each ended by a newline, in whatever chunks they arrive, and the
    stream then ends, the call finishes and the last message of the
    chat is the placeholder with the text "Hello" and [isStreaming]
    false. *)
Theorem hello_is_assembled (s : State)
  (chatId messageText uuid1 uuid2 : jsstring)
  (values : list (option (list byte))) :
  (exists chat, In chat (chats s) /\ Chat.id chat = chatId) ->
  bytes_read values = hello_stream ->
  exists store effects,
    sendMessage chatId messageText uuid1 uuid2
                (events_of (Streamed values (StreamEnds None))) s =
    Finished store effects
    /\ (exists chat, In chat (chats store) /\ Chat.id chat = chatId)
    /\ forall chat,
         In chat (chats store) -> Chat.id chat = chatId ->
         exists earlier,
           Chat.messages chat =
           earlier ++ [Message.mk (js "Hello") (js "ai") uuid2 (Some false)].
Proof.
  intros Hex Hbytes. destruct (@find_chat_some _ _ Hex) as [chat0 Hfind].
  unfold sendMessage, sendMessage_start. rewrite Hfind.
  cbn [events_of run Message.timestamp]. unfold resume at 1.
  cbn [phase call negb]. fold (reads values). fold new_reader.
  rewrite run_app, run_reads by reflexivity.
  rewrite Hbytes, feed_hello. cbn [fst snd run]. unfold resume.
  cbn [phase call flush_buffer buffer trim rev trim_start is_empty progress].
  set (u := Message.mk messageText (js "user") uuid1 None).
  set (a := Message.mk [] (js "ai") uuid2 (Some true)).
  set (c := mkCall chatId uuid2).
  set (rest := Fetch (request_of chat0 u messageText)
               :: [SetText (js "He"); SetText (js "Hello")]
               ++ on_completion).
  eexists. eexists. split; [reflexivity|].
  change ([SetAppend u; SetAppend a; Fetch (request_of chat0 u messageText)]
          ++ [] ++ ([SetText (js "He"); SetText (js "Hello")]
                    ++ ([] ++ [] ++ on_completion) ++ []))
    with ([SetAppend u; SetAppend a] ++ rest).
  split.
  - apply (chat_survives c u a rest s eq_refl Hex).
  - intros chat' Hin Hid.
    destruct (chat_after_call c u a rest s chat' eq_refl eq_refl Hin Hid)
      as [chat1 [_ [_ Hms]]].
    eexists. rewrite Hms. reflexivity.
Qed.

(** C4: the stream of C2 without its last newline.  The record left in
    the buffer is parsed when the stream ends; its content reaches the
    local [aiText] of the call but no update of the store follows, and
    the placeholder is left with the text "He". *)
Theorem final_record_is_not_written :
  (exists tokens,
      flush_buffer (fst (feed unterminated_hello_stream new_reader)) =
      (mkProgress (js "Hello") tokens, []))
  /\ exists effects,
      sendMessage (js "c1") (js "hi") (js "uuid-1") (js "uuid-2")
        (events_of (Streamed [Some unterminated_hello_stream]
                             (StreamEnds None)))
        demo_state =
      Finished
        (mkState
           [Chat.mk (js "c1") (js "New Chat") (js "llama3")
              [Message.mk (js "hi") (js "user") (js "uuid-1") None;
               Message.mk (js "He") (js "ai") (js "uuid-2") (Some false)]
              (js "2024-01-01T00:00:00.000Z")]
           (Some (js "c1")) (Some (JArr [])) false None)
        effects
      /\ filter (fun e => negb (quiet e)) effects =
         [SetAppend (Message.mk (js "hi") (js "user") (js "uuid-1") None);
          SetAppend (Message.mk [] (js "ai") (js "uuid-2") (Some true));
          Fetch (Request.mk (js "llama3")
                            [Request.mkTurn (js "user") (js "hi")] true);
          UpdateSpeedZero; SetFinalize]
      /\ filter quiet effects = [SetText (js "He")].
Proof.
  split.
  - eexists. vm_compute. reflexivity.
  - eexists. split; [vm_compute; reflexivity|]. split; reflexivity.
Qed.

Lemma lines_of_line (l rest : jsstring) :
  indexOf newline l = None ->
  lines_of (l ++ newline :: rest) =
  (l :: fst (lines_of rest), snd (lines_of rest)).
Proof.
  induction l as [|c l IH]; simpl.
  - intros _. now destruct (lines_of rest).
  - destruct (N.eqb c newline) eqn:E; [discriminate|].
    destruct (indexOf newline l); [discriminate|]. intros _.
    now rewrite IH.
Qed.

Lemma lines_of_join (ls : list jsstring) :
  Forall (fun l => indexOf newline l = None) ls ->
  lines_of (join_lines ls) = (ls, []).
Proof.
  induction 1 as [|l ls Hl _ IH]; [reflexivity|].
  unfold join_lines in *. simpl. rewrite <- app_assoc. simpl.
  rewrite lines_of_line by exact Hl. now rewrite IH.
Qed.

Lemma running_app (text : jsstring) (a b : list jsstring) :
  running text (a ++ b) = running text a ++ running (text ++ List.concat a) b.
Proof.
  revert text; induction a as [|d a IH]; intros text; simpl.
  - now rewrite app_nil_r.
  - now rewrite IH, app_assoc.
Qed.

Lemma concat_nonempty (ds : list jsstring) :
  List.concat (filter (fun d => negb (is_empty d)) ds) = List.concat ds.
Proof.
  induction ds as [|d ds IH]; simpl; [reflexivity|].
  destruct d; simpl; now rewrite IH.
Qed.

Lemma written_app (a b : list Effect) :
  written (a ++ b) = written a ++ written b.
Proof. apply flat_map_app. Qed.

Lemma deltas_cons (l : jsstring) (ls : list jsstring) :
  deltas (l :: ls) = deltas [l] ++ deltas ls.
Proof. unfold deltas. simpl. now rewrite app_nil_r. Qed.

(** One line of the protocol: the delta the specification's parser
    finds in it is what the loop appends and writes. *)
Lemma process_textual (l : jsstring) (p : Progress) :
  textual l = true ->
  aiText (fst (process_line l (p, []))) =
  aiText p ++ List.concat (deltas [l])
  /\ written (snd (process_line l (p, []))) =
     running (aiText p) (filter (fun d => negb (is_empty d)) (deltas [l])).
Proof.
  unfold textual, process_line, deltas, parse. simpl.
  destruct (JSON_parse l) as [parsed|]; simpl;
    [|now rewrite app_nil_r].
  destruct parsed as [|b|lit|str|es|members]; simpl;
    try (now rewrite app_nil_r).
  destruct (lookup (js "message") members) as [[|b|lit|str|es|inner]|];
    simpl; try (now rewrite app_nil_r).
  destruct (lookup (js "content") inner) as [[|b|lit|str|es|ms]|]; simpl;
    try discriminate; try (now rewrite app_nil_r).
  - destruct b; [discriminate|]. now rewrite app_nil_r.
  - intros _. destruct str as [|c str]; simpl; now rewrite app_nil_r.
Qed.

Lemma handle_textual (ls : list jsstring) :
  forall p : Progress,
    forallb textual ls = true ->
    aiText (fst (handle_lines ls (p, []))) =
    aiText p ++ List.concat (deltas ls)
    /\ written (snd (handle_lines ls (p, []))) =
       running (aiText p) (filter (fun d => negb (is_empty d)) (deltas ls)).
Proof.
  induction ls as [|l ls IH]; intros p H.
  - simpl. now rewrite app_nil_r.
  - simpl in H. apply andb_true_iff in H as [Hl Hls].
    change (handle_lines (l :: ls) (p, []))
      with (handle_lines ls (process_line l (p, []))).
    destruct (@process_textual l p Hl) as [Htext Hwritten].
    destruct (process_line l (p, [])) as [p1 e1]; cbn [fst snd] in *.
    rewrite handle_lines_effects. cbn [fst snd].
    destruct (IH p1 Hls) as [IHtext IHwritten].
    rewrite (deltas_cons l ls).
    rewrite written_app, filter_app, running_app, concat_app.
    rewrite concat_nonempty, IHtext, IHwritten, Hwritten, Htext.
    now rewrite app_assoc.
Qed.

Lemma forallb_filter {A : Type} (f g : A -> bool) (l : list A) :
  forallb f l = true -> forallb f (filter g l) = true.
Proof.
  induction l as [|x l IH]; simpl; [reflexivity|].
  intros H; apply andb_true_iff in H as [Hx Hl].
  destruct (g x); simpl; [rewrite Hx|]; auto.
Qed.

(** C6: a buffer of complete lines, malformed ones among them, is
    consumed to its end by the inner loop, which only writes text and
    logs; a line that fails to parse adds a log entry and nothing else;
    a chunk never ends the call.  When the lines are lines of the
    protocol, the loop's text grows by the deltas of the lines that
    parse, in order, and these are the texts written to the store. *)
Theorem malformed_lines_are_skipped (ls : list jsstring) (p : Progress) :
  Forall (fun l => indexOf newline l = None) ls ->
  exists p' effects,
    drain (List.length (join_lines ls)) process_line (join_lines ls) (p, []) =
    ([], (p', effects))
    /\ forallb quiet effects = true
    /\ (forallb textual ls = true ->
        aiText p' =
        aiText p ++ List.concat (deltas (filter nonblank ls))
        /\ written effects =
           running (aiText p)
                   (filter (fun d => negb (is_empty d))
                           (deltas (filter nonblank ls))))
    /\ (forall l st,
          JSON_parse l = None ->
          process_line l st = (fst st, snd st ++ [ConsoleError l]))
    /\ (forall c r value,
          exists r' effs,
            resume (mkTask c (AwaitingRead r)) (ReadResolved (Some value) false)
            = Some (mkTask c (AwaitingRead r'), effs)
            /\ forallb quiet effs = true).
Proof.
  intros Hlines.
  exists (fst (handle_lines (filter nonblank ls) (p, []))).
  exists (snd (handle_lines (filter nonblank ls) (p, []))).
  split; [|split; [|split; [|split]]].
  - rewrite drain_lines by lia. rewrite lines_of_join by exact Hlines. simpl.
    fold (handle_lines (filter nonblank ls) (p, [])).
    now destruct (handle_lines (filter nonblank ls) (p, [])).
  - apply handle_lines_quiet.
  - intros Htextual. apply handle_textual. now apply forallb_filter.
  - intros l [p0 e0] Hparse. unfold process_line. now rewrite Hparse.
  - intros c r value. rewrite resume_chunk. eexists. eexists.
    split; [reflexivity|]. apply feed_quiet.
Qed.

(** *** The streaming flag under interleaved calls *)

Lemma message_update_calming (e : Effect) : calming (message_update e).
Proof. intros m. destruct e; simpl; split; auto; discriminate. Qed.

Lemma updates_calming (es : list Effect) : calming (updates es).
Proof.
  unfold updates. induction es as [|e es IH]; intros m; simpl.
  - auto.
  - destruct (IH (message_update e m)) as [Hts Hst].
    destruct (message_update_calming e m) as [Hts' Hst'].
    split; [congruence|auto].
Qed.

Lemma updates_finalized (es : list Effect) (m : Message.t) :
  streaming (updates (es ++ [SetFinalize]) m) = false.
Proof. now rewrite updates_app. Qed.

Lemma streaming_count_calming (g : Message.t -> Message.t)
  (ms : list Message.t) :
  calming g ->
  List.length (filter streaming (map g ms)) <=
  List.length (filter streaming ms).
Proof.
  intros Hg. induction ms as [|m ms IH]; simpl; [lia|].
  destruct (Hg m) as [_ Hst].
  destruct (streaming (g m)) eqn:E; simpl.
  - rewrite (Hst eq_refl). simpl. lia.
  - destruct (streaming m); simpl; lia.
Qed.

Lemma selective_calming (ts : jsstring) (g : Message.t -> Message.t) :
  calming g ->
  calming (fun m => if str_eqb (Message.timestamp m) ts then g m else m).
Proof.
  intros Hg m. destruct (str_eqb (Message.timestamp m) ts); [apply Hg|auto].
Qed.

(** What resuming a task can do: the task stays under way and its
    effects only write text and log, or it returns and its effects end
    with the finalize update. *)
Lemma resume_cases (t t' : Task) (ev : NetworkEvent) (effects : list Effect) :
  resume t ev = Some (t', effects) ->
  call t' = call t /\ under_way t = true
  /\ ((under_way t' = true /\ forallb quiet effects = true)
      \/ (under_way t' = false
          /\ exists before, effects = before ++ [SetFinalize]
                            /\ forallb calm before = true)).
Proof.
  destruct t as [c ph]. unfold resume, under_way. simpl.
  destruct ph as [|r|]; destruct ev as [message|ok hasBody|value done|message];
    try discriminate.
  - intros [= <- <-]. repeat split. right. split; [reflexivity|].
    exists [SetError message; UpdateSpeedZero]. now split.
  - destruct ok; simpl; [destruct hasBody; simpl|]; intros [= <- <-];
      repeat split.
    + left. now split.
    + right. split; [reflexivity|].
      exists [SetError null_body_message; UpdateSpeedZero]. now split.
    + right. split; [reflexivity|].
      exists [SetError (js "API request failed"); UpdateSpeedZero].
      now split.
  - destruct done.
    + intros H.
      destruct (resume_last c r (StreamEnds value)) as [before [Hres Hcalm]].
      unfold resume in Hres; simpl in Hres. rewrite Hres in H.
      injection H as <- <-. repeat split. right. split; [reflexivity|].
      now exists before.
    + destruct value as [bytes|].
      * pose proof (feed_quiet bytes r) as Hq.
        destruct (feed bytes r) as [r1 e1]. intros [= <- <-].
        repeat split. left. now split.
      * intros [= <- <-]. repeat split. left. now split.
  - intros [= <- <-]. repeat split. right. split; [reflexivity|].
    exists [SetError message; UpdateSpeedZero]. now split.
Qed.

Lemma nth_replace_inv {A : Type} (l : list A) :
  forall (n i : nat) (x y : A),
    nth_error (replace_nth n x l) i = Some y ->
    (i = n /\ y = x /\ exists old, nth_error l n = Some old)
    \/ (i <> n /\ nth_error l i = Some y).
Proof.
  induction l as [|z l IH]; intros n i x y.
  - destruct n, i; discriminate.
  - destruct n as [|n]; destruct i as [|i]; simpl.
    + intros [= <-]. left. repeat split. now exists z.
    + intros H. right. now split.
    + intros H. right. now split.
    + intros H. destruct (IH n i x y H) as [[-> [-> Hold]]|[Hne Hnth]].
      * left. now repeat split.
      * right. split; [lia|assumption].
Qed.

Lemma nth_replace_other {A : Type} (l : list A) :
  forall (n i : nat) (x y : A),
    i <> n -> nth_error l i = Some y ->
    nth_error (replace_nth n x l) i = Some y.
Proof.
  induction l as [|z l IH]; intros n i x y Hne.
  - destruct i; discriminate.
  - destruct n as [|n]; destruct i as [|i]; simpl; auto; try lia.
Qed.

Lemma nth_replace_same {A : Type} (l : list A) :
  forall (n : nat) (x old : A),
    nth_error l n = Some old -> nth_error (replace_nth n x l) n = Some x.
Proof.
  induction l as [|z l IH]; intros n x old.
  - destruct n; discriminate.
  - destruct n as [|n]; simpl; [reflexivity|apply IH].
Qed.

(** A chat after an update of the placeholder: the same id, and every
    message the image of the one in its place. *)
Lemma in_on_placeholder (c : Call) (g : Message.t -> Message.t) (s : State)
  (chat' : Chat.t) :
  calming g ->
  In chat' (chats (on_placeholder c g s)) ->
  exists chat h,
    In chat (chats s) /\ Chat.id chat' = Chat.id chat /\ calming h
    /\ Chat.messages chat' = map h (Chat.messages chat)
    /\ (Chat.id chat = chatId c ->
        forall m, Message.timestamp m = aiTimestamp c -> h m = g m).
Proof.
  intros Hg Hin. unfold on_placeholder in Hin.
  apply in_map_chat in Hin as [chat [Hin ->]]. exists chat.
  destruct (str_eqb (Chat.id chat) (chatId c)) eqn:E.
  - exists (fun m => if str_eqb (Message.timestamp m) (aiTimestamp c)
                     then g m else m).
    repeat split; try assumption; try reflexivity.
    + now apply selective_calming.
    + now apply selective_calming.
    + intros _ m Hm. now rewrite Hm, str_eqb_refl.
  - exists (fun m => m). repeat split; try assumption; auto.
    + now rewrite map_id.
    + intros Hid. apply str_eqb_neq in E. contradiction.
Qed.

Lemma no_append_of_resume (t t' : Task) (ev : NetworkEvent)
  (effects : list Effect) :
  resume t ev = Some (t', effects) ->
  forallb (fun e => negb (appends e)) effects = true.
Proof.
  intros H. destruct (resume_cases _ _ _ _ H) as [_ [_ [[_ Hq]|[_ [b [-> Hc]]]]]].
  - now apply calm_no_append, quiet_calm.
  - rewrite forallb_app, (calm_no_append _ Hc). reflexivity.
Qed.

(** Resuming a call keeps the invariant. *)
Lemma settled_keeps_invariant (w : World) (n : nat) (t t' : Task)
  (ev : NetworkEvent) (effects : list Effect) :
  invariant w ->
  nth_error (tasks w) n = Some t ->
  resume t ev = Some (t', effects) ->
  invariant (mkWorld (perform_all (call t) effects (store w))
                     (replace_nth n t' (tasks w)) (modelFetches w)).
Proof.
  intros [Hcov [Hexcl Hone]] Hn Hres.
  pose proof (no_append_of_resume _ _ _ _ Hres) as Hno.
  destruct (resume_cases _ _ _ _ Hres) as [Hcall [Hway Hcases]].
  unfold invariant; simpl. rewrite (perform_all_updates _ _ _ Hno).
  pose proof (updates_calming effects) as Hg.
  split; [|split].
  - intros chat' m' Hin Hm' Hst.
    destruct (in_on_placeholder _ _ _ _ Hg Hin)
      as [chat [h [Hin0 [Hid [Hh [Hms Hsel]]]]]].
    rewrite Hms in Hm'. apply in_map_iff in Hm' as [m [<- Hm]].
    destruct (Hh m) as [Hts Hst0]. specialize (Hst0 Hst).
    destruct (Hcov chat m Hin0 Hm Hst0) as [j [t2 [Hj [Hw2 [Hc2 Ha2]]]]].
    rewrite Hid, Hts.
    destruct (Nat.eq_dec j n) as [->|Hne].
    + assert (t2 = t) by congruence. subst t2.
      destruct Hcases as [[Hw' _]|[_ [before [-> _]]]].
      * exists n, t'. rewrite Hcall.
        repeat split; try assumption. eapply nth_replace_same; eassumption.
      * rewrite (Hsel (eq_sym Hc2) m (eq_sym Ha2)) in Hst.
        now rewrite updates_finalized in Hst.
    + exists j, t2. repeat split; try assumption.
      now apply nth_replace_other.
  - intros i j t1 t2 Hi Hj Hw1 Hw2 Hsame.
    assert (Horig : forall k x,
               nth_error (replace_nth n t' (tasks w)) k = Some x ->
               under_way x = true ->
               exists y, nth_error (tasks w) k = Some y
                         /\ under_way y = true /\ call y = call x).
    { intros k x Hk Hx.
      destruct (nth_replace_inv _ _ _ _ _ Hk) as [[-> [-> _]]|[_ Hk']].
      - exists t. now repeat split.
      - exists x. now repeat split. }
    destruct (Horig _ _ Hi Hw1) as [y1 [Hy1 [Hwy1 Hc1]]].
    destruct (Horig _ _ Hj Hw2) as [y2 [Hy2 [Hwy2 Hc2]]].
    apply (Hexcl i j y1 y2 Hy1 Hy2 Hwy1 Hwy2). now rewrite Hc1, Hc2.
  - intros chat' Hin.
    destruct (in_on_placeholder _ _ _ _ Hg Hin)
      as [chat [h [Hin0 [_ [Hh [Hms _]]]]]].
    unfold streaming_count. rewrite Hms.
    pose proof (@streaming_count_calming h (Chat.messages chat) Hh).
    specialize (Hone chat Hin0). unfold streaming_count in Hone. lia.
Qed.

Lemma in_addMessage (cid : jsstring) (message : Message.t) (s : State)
  (chat' : Chat.t) :
  In chat' (chats (addMessage cid message s)) ->
  exists chat,
    In chat (chats s) /\ Chat.id chat' = Chat.id chat
    /\ ((Chat.id chat = cid
         /\ Chat.messages chat' = Chat.messages chat ++ [message])
        \/ (Chat.id chat <> cid /\ Chat.messages chat' = Chat.messages chat)).
Proof.
  unfold addMessage. intros Hin.
  apply in_map_chat in Hin as [chat [Hin ->]]. exists chat.
  destruct (str_eqb (Chat.id chat) cid) eqn:E.
  - apply str_eqb_eq in E. split; [assumption|]. split; [reflexivity|].
    left. now split.
  - apply str_eqb_neq in E. split; [assumption|]. split; [reflexivity|].
    right. now split.
Qed.

Lemma not_busy (cid : jsstring) (ts : list Task) :
  busy cid ts = false ->
  forall j t, nth_error ts j = Some t -> under_way t = true ->
              chatId (call t) <> cid.
Proof.
  intros Hbusy j t Hj Hw Hc.
  assert (Hex : busy cid ts = true).
  { unfold busy. apply existsb_exists. exists t. split.
    - eapply nth_error_In; eassumption.
    - rewrite Hw. simpl. now apply str_eqb_eq. }
  congruence.
Qed.

Lemma guards_more (ts : list Task) (t : Task) (chat message : jsstring) :
  guards ts chat message -> guards (ts ++ [t]) chat message.
Proof.
  intros [j [t2 [Hj H]]]. exists j, t2. split; [|assumption].
  rewrite nth_error_app1; [assumption|].
  apply nth_error_Some. congruence.
Qed.

Lemma streaming_count_append (ms extra : list Message.t) :
  List.length (filter streaming (ms ++ extra)) =
  List.length (filter streaming ms) + List.length (filter streaming extra).
Proof. now rewrite filter_app, length_app. Qed.

(** Starting a call on a chat that no call is under way on keeps the
    invariant. *)
Lemma send_keeps_invariant (w : World)
  (cid messageText uuid1 uuid2 : jsstring) (t : Task) (effects : list Effect) :
  invariant w ->
  busy cid (tasks w) = false ->
  sendMessage_start cid messageText uuid1 uuid2 (store w) = inr (t, effects) ->
  invariant (mkWorld (perform_all (call t) effects (store w))
                     (tasks w ++ [t]) (modelFetches w)).
Proof.
  intros [Hcov [Hexcl Hone]] Hbusy Hstart.
  unfold sendMessage_start in Hstart.
  destruct (find _ _) as [found|]; [|discriminate].
  injection Hstart as <- <-. unfold invariant; simpl.
  set (u := Message.mk messageText (js "user") uuid1 None).
  set (a := Message.mk [] (js "ai") uuid2 (Some true)).
  assert (Hquiet : forall chat m,
             In chat (chats (store w)) -> Chat.id chat = cid ->
             In m (Chat.messages chat) -> streaming m = false).
  { intros chat m Hin Hid Hm. destruct (streaming m) eqn:E; [|reflexivity].
    destruct (Hcov chat m Hin Hm E) as [j [t2 [Hj [Hw2 [Hc2 _]]]]].
    destruct (@not_busy _ _ Hbusy _ _ Hj Hw2). congruence. }
  assert (Hshape : forall chat',
             In chat' (chats (addMessage cid a (addMessage cid u (store w)))) ->
             exists chat,
               In chat (chats (store w)) /\ Chat.id chat' = Chat.id chat
               /\ ((Chat.id chat = cid
                    /\ Chat.messages chat' = Chat.messages chat ++ [u; a])
                   \/ (Chat.id chat <> cid
                       /\ Chat.messages chat' = Chat.messages chat))).
  { intros chat' Hin.
    destruct (@in_addMessage _ _ _ _ Hin) as [c1 [Hin1 [Hid1 Hm1]]].
    destruct (@in_addMessage _ _ _ _ Hin1) as [c0 [Hin0 [Hid0 Hm0]]].
    exists c0. split; [assumption|]. split; [congruence|].
    destruct Hm1 as [[He1 Hms1]|[Hn1 Hms1]];
      destruct Hm0 as [[He0 Hms0]|[Hn0 Hms0]]; try congruence.
    - left. split; [assumption|]. rewrite Hms1, Hms0, <- app_assoc.
      reflexivity.
    - right. split; [assumption|]. congruence. }
  split; [|split].
  - intros chat' m' Hin Hm' Hst.
    destruct (Hshape chat' Hin) as [chat [Hin0 [Hid [[He Hms]|[Hne Hms]]]]];
      rewrite Hms in Hm'; rewrite Hid.
    + apply in_app_or in Hm' as [Hm'|[<-|[<-|[]]]].
      * now rewrite (Hquiet chat m' Hin0 He Hm') in Hst.
      * discriminate.
      * exists (List.length (tasks w)), (mkTask (mkCall cid uuid2) AwaitingFetch).
        rewrite nth_error_app2, Nat.sub_diag by lia. now repeat split.
    + apply guards_more. now apply Hcov.
  - intros i j t1 t2 Hi Hj Hw1 Hw2 Hsame.
    destruct (Nat.lt_ge_cases i (List.length (tasks w))) as [Hi'|Hi'];
      destruct (Nat.lt_ge_cases j (List.length (tasks w))) as [Hj'|Hj'].
    + rewrite nth_error_app1 in Hi, Hj by assumption.
      now apply (Hexcl i j t1 t2).
    + rewrite nth_error_app1 in Hi by assumption.
      rewrite nth_error_app2 in Hj by assumption.
      destruct (j - List.length (tasks w)) as [|k]; simpl in Hj;
        [|destruct k; discriminate].
      injection Hj as <-. simpl in Hsame.
      now destruct (@not_busy _ _ Hbusy _ _ Hi Hw1).
    + rewrite nth_error_app2 in Hi by assumption.
      rewrite nth_error_app1 in Hj by assumption.
      destruct (i - List.length (tasks w)) as [|k]; simpl in Hi;
        [|destruct k; discriminate].
      injection Hi as <-. simpl in Hsame.
      now destruct (@not_busy _ _ Hbusy _ _ Hj Hw2).
    + rewrite nth_error_app2 in Hi, Hj by assumption.
      destruct (i - List.length (tasks w)) as [|k] eqn:Ei; simpl in Hi;
        [|destruct k; discriminate].
      destruct (j - List.length (tasks w)) as [|k] eqn:Ej; simpl in Hj;
        [|destruct k; discriminate].
      lia.
  - intros chat' Hin.
    destruct (Hshape chat' Hin) as [chat [Hin0 [Hid [[He Hms]|[Hne Hms]]]]];
      unfold streaming_count; rewrite Hms.
    + rewrite streaming_count_append. simpl.
      assert (Hzero : filter streaming (Chat.messages chat) = []).
      { assert (Hall : forall m, In m (Chat.messages chat) ->
                                 streaming m = false)
          by (intros m Hm; now apply (Hquiet chat m Hin0 He)).
        revert Hall. generalize (Chat.messages chat) as ms.
        induction ms as [|m ms IH]; intros Hall; simpl; [reflexivity|].
        rewrite (Hall m (or_introl eq_refl)). apply IH.
        intros m' Hm'. apply Hall. now right. }
      rewrite Hzero. simpl. lia.
    + apply (Hone chat Hin0).
Qed.

Lemma add_keeps_invariant (w : World) (cid : jsstring) (message : Message.t) :
  invariant w ->
  streaming message = false ->
  invariant (mkWorld (addMessage cid message (store w)) (tasks w)
                     (modelFetches w)).
Proof.
  intros [Hcov [Hexcl Hone]] Hquiet. unfold invariant; simpl.
  split; [|split; [assumption|]].
  - intros chat' m' Hin Hm' Hst.
    destruct (@in_addMessage _ _ _ _ Hin)
      as [chat [Hin0 [Hid [[He Hms]|[Hne Hms]]]]];
      rewrite Hms in Hm'; rewrite Hid.
    + apply in_app_or in Hm' as [Hm'|[<-|[]]]; [now apply Hcov|congruence].
    + now apply Hcov.
  - intros chat' Hin.
    destruct (@in_addMessage _ _ _ _ Hin)
      as [chat [Hin0 [Hid [[He Hms]|[Hne Hms]]]]];
      unfold streaming_count; rewrite Hms.
    + rewrite streaming_count_append. simpl. rewrite Hquiet. simpl.
      specialize (Hone chat Hin0). unfold streaming_count in Hone. lia.
    + apply (Hone chat Hin0).
Qed.

Lemma same_chats_keep_invariant (w : World) (s : State) (k : nat) :
  invariant w -> chats s = chats (store w) ->
  invariant (mkWorld s (tasks w) k).
Proof.
  intros [Hcov [Hexcl Hone]] Hsame.
  unfold invariant, at_most_one_streaming in *; simpl. rewrite Hsame.
  now repeat split.
Qed.

Lemma fewer_chats_keep_invariant (w : World) (s : State) :
  invariant w ->
  (forall chat, In chat (chats s) ->
                In chat (chats (store w)) \/ Chat.messages chat = []) ->
  invariant (mkWorld s (tasks w) (modelFetches w)).
Proof.
  intros [Hcov [Hexcl Hone]] Hsub. unfold invariant; simpl.
  split; [|split; [assumption|]].
  - intros chat m Hin Hm Hst. destruct (Hsub chat Hin) as [Hold|Hnew].
    + now apply Hcov.
    + rewrite Hnew in Hm. destruct Hm.
  - intros chat Hin. destruct (Hsub chat Hin) as [Hold|Hnew].
    + now apply Hone.
    + unfold streaming_count. rewrite Hnew. simpl. lia.
Qed.

(** Every action of a disciplined client keeps the invariant. *)
Lemma act_keeps_invariant (w w' : World) (a : Action) :
  invariant w -> disciplined w a = true -> act w a = Some w' ->
  invariant w'.
Proof.
  intros Hinv Hdisc Hact.
  destruct a as [|outcome|title model uuid now|cid text u1 u2|n ev
                 |cid message|cid|cid]; simpl in Hact, Hdisc.
  - injection Hact as <-. now apply same_chats_keep_invariant.
  - destruct (modelFetches w); [discriminate|]. injection Hact as <-.
    apply same_chats_keep_invariant; [assumption|]. now destruct outcome.
  - unfold createChat in Hact. destruct (is_empty model).
    + now injection Hact as <-.
    + injection Hact as <-. apply fewer_chats_keep_invariant; [assumption|].
      simpl. intros chat [<-|Hin]; [now right|now left].
  - destruct (sendMessage_start cid text u1 u2 (store w))
      as [message|[t effects]] eqn:Estart.
    + now injection Hact as <-.
    + injection Hact as <-. apply negb_true_iff in Hdisc.
      now apply send_keeps_invariant with (cid:=cid) (messageText:=text)
                                          (uuid1:=u1) (uuid2:=u2).
  - destruct (nth_error (tasks w) n) as [t|] eqn:En; [|discriminate].
    destruct (resume t ev) as [[t' effects]|] eqn:Eres; [|discriminate].
    injection Hact as <-. now apply settled_keeps_invariant with (ev:=ev).
  - injection Hact as <-. apply negb_true_iff in Hdisc.
    now apply add_keeps_invariant.
  - injection Hact as <-. apply fewer_chats_keep_invariant; [assumption|].
    simpl. intros chat Hin. apply filter_In in Hin as [Hin _]. now left.
  - injection Hact as <-. now apply same_chats_keep_invariant.
Qed.

Lemma start_invariant (s0 : State) :
  none_streaming s0 -> invariant (start_world s0).
Proof.
  intros Hnone.
  unfold invariant, covered, exclusive, at_most_one_streaming.
  cbn [start_world store tasks]. split; [|split].
  - intros chat m Hchat Hm Hst. rewrite (Hnone chat m Hchat Hm) in Hst.
    discriminate.
  - intros i j t1 t2 Hi. destruct i; discriminate.
  - intros chat Hchat. unfold streaming_count.
    assert (Hfilter : filter streaming (Chat.messages chat) = []).
    { pose proof (fun m => Hnone chat m Hchat) as Hms.
      induction (Chat.messages chat) as [|m ms IH]; [reflexivity|].
      cbn [filter]. rewrite (Hms m (or_introl eq_refl)).
      apply IH. intros m' Hm'. apply Hms. now right. }
    rewrite Hfilter. cbn [List.length]. lia.
Qed.

(** C9, as the code has it.  A session starts with the store that
    [persist] has read back, or with the initial state.  When no message
    of that store is marked as streaming, and as long as no second
    [sendMessage] is started on a chat while one is under way on it and
    [addMessage] is given no message marked as streaming, every chat of
    every store of the session holds at most one message with
    [isStreaming] true, whatever the other operations and the events of
    the network do, and in whatever order the calls under way are
    resumed. *)
Theorem one_streaming_message_under_discipline (s0 : State) (w : World) :
  none_streaming s0 ->
  reachable_disciplined s0 w -> at_most_one_streaming (store w).
Proof.
  intros Hnone Hreach.
  assert (Hinv : invariant w).
  { induction Hreach as [|w a w' _ IH Hdisc Hact].
    - now apply start_invariant.
    - eapply act_keeps_invariant; eassumption. }
  apply Hinv.
Qed.

Lemma played_reachable (s0 : State) (actions : list Action) :
  forall w w',
    reachable s0 w -> play false w actions = Some w' -> reachable s0 w'.
Proof.
  induction actions as [|a rest IH]; intros w w' Hw; simpl.
  - now intros [= <-].
  - destruct (act w a) as [w1|] eqn:E; [|discriminate].
    apply IH. eapply reachable_act; eassumption.
Qed.

Lemma played_disciplined (s0 : State) (actions : list Action) :
  forall w w', reachable_disciplined s0 w -> play true w actions = Some w' ->
               reachable_disciplined s0 w'.
Proof.
  induction actions as [|a rest IH]; intros w w' Hw; simpl.
  - now intros [= <-].
  - destruct (disciplined w a) eqn:D; [|discriminate]. simpl.
    destruct (act w a) as [w1|] eqn:E; [|discriminate].
    apply IH. eapply disciplined_act; eassumption.
Qed.

(** *** A request that fails *)

Lemma updates_quiet (es : list Effect) (m : Message.t) :
  forallb quiet es = true ->
  Message.sender (updates es m) = Message.sender m
  /\ Message.timestamp (updates es m) = Message.timestamp m
  /\ Message.isStreaming (updates es m) = Message.isStreaming m.
Proof.
  unfold updates. revert m. induction es as [|e es IH]; intros m H; simpl.
  - auto.
  - simpl in H. apply andb_true_iff in H as [He Hes].
    destruct (IH (message_update e m) Hes) as [H1 [H2 H3]].
    rewrite H1, H2, H3. now destruct e.
Qed.

Lemma run_failure (c : Call) (net : Network) (message : jsstring) :
  failure_of net = Some message ->
  exists before,
    run (mkTask c AwaitingFetch) (events_of net) =
    Some (mkTask c Returned, before ++ on_error message)
    /\ forallb quiet before = true.
Proof.
  destruct net as [m|hasBody| |values [value|m]];
    cbn [failure_of]; try discriminate; intros [= <-];
    try (exists []; split; reflexivity).
  cbn [events_of run]. unfold resume at 1. cbn [phase call negb].
  fold (reads values).
  rewrite run_app, (run_reads c values (mkReader _ _ _)) by reflexivity.
  exists (snd (feed (bytes_read values)
                 (mkReader new_TextDecoder []
                           (mkProgress [] (number_of_nat 0))))).
  split; [|apply feed_quiet]. cbn [run resume phase call app].
  now rewrite !app_nil_r.
Qed.

(** X1: when the request fails (fetch rejected, bad status, no
    body, or a read that rejects after any chunks), the call still
    finishes, and the last message of the chat is the placeholder with
    the text "Error: " followed by the error's message and with
    [isStreaming] false, whatever deltas came before. *)
Theorem failure_marks_placeholder (s : State)
  (chatId messageText uuid1 uuid2 message : jsstring) (net : Network) :
  (exists chat, In chat (chats s) /\ Chat.id chat = chatId) ->
  failure_of net = Some message ->
  exists store effects,
    sendMessage chatId messageText uuid1 uuid2 (events_of net) s =
    Finished store effects
    /\ (exists chat, In chat (chats store) /\ Chat.id chat = chatId)
    /\ forall chat,
         In chat (chats store) -> Chat.id chat = chatId ->
         exists earlier,
           Chat.messages chat =
           earlier ++ [Message.mk (js "Error: " ++ message) (js "ai") uuid2
                                  (Some false)].
Proof.
  intros Hex Hfail. destruct (@find_chat_some _ _ Hex) as [chat0 Hfind].
  unfold sendMessage, sendMessage_start. rewrite Hfind.
  cbn [Message.timestamp].
  destruct (run_failure (mkCall chatId uuid2) net message Hfail)
    as [before [Hrun Hquiet]].
  rewrite Hrun. cbn [phase call].
  set (u := Message.mk messageText (js "user") uuid1 None).
  set (a := Message.mk [] (js "ai") uuid2 (Some true)).
  set (c := mkCall chatId uuid2).
  set (rest := Fetch (request_of chat0 u messageText)
               :: before ++ on_error message).
  eexists. eexists. split; [reflexivity|].
  change ([SetAppend u; SetAppend a; Fetch (request_of chat0 u messageText)]
          ++ before ++ on_error message)
    with ([SetAppend u; SetAppend a] ++ rest).
  assert (Hno : forallb (fun e => negb (appends e)) rest = true).
  { subst rest. cbn [forallb appends negb andb].
    rewrite forallb_app, (calm_no_append _ (quiet_calm _ Hquiet)).
    reflexivity. }
  split.
  - apply (chat_survives c u a rest s Hno Hex).
  - intros chat' Hin Hid.
    destruct (chat_after_call c u a rest s chat' Hno eq_refl Hin Hid)
      as [chat1 [_ [_ Hms]]].
    eexists. rewrite Hms. f_equal. f_equal.
    subst rest. unfold updates. cbn [fold_left message_update].
    fold (updates (before ++ on_error message) a).
    rewrite updates_app.
    destruct (updates_quiet before a Hquiet) as [Hs [Ht _]].
    unfold on_error, updates at 1. cbn [fold_left message_update].
    unfold with_isStreaming, with_text. cbn [Message.text Message.sender
      Message.timestamp Message.isStreaming].
    now rewrite Hs, Ht.
Qed.

End Claims.

(** ** The claims at concrete inputs *)

Lemma demo_chat_exists :
  exists chat, In chat (chats demo_state) /\ Chat.id chat = js "c1".
Proof. exists demo_chat. split; [now left|reflexivity]. Defined.

Lemma finalize_runs_once_on_failed_stream :
  exists store before,
    sendMessage (js "c1") (js "hi") (js "uuid-1") (js "uuid-2")
      (events_of (Streamed [Some (line_bytes "{'message':{'content':'He'}}")]
                           (StreamFails (js "network error"))))
      demo_state =
    Finished store (before ++ [SetFinalize])
    /\ finalizations before = 0
    /\ finalizations (before ++ [SetFinalize]) = 1
    /\ In (SetAppend (Message.mk [] (js "ai") (js "uuid-2") (Some true)))
          before
    /\ forall chat m,
         In chat (chats store) -> Chat.id chat = js "c1" ->
         In m (Chat.messages chat) -> Message.timestamp m = js "uuid-2" ->
         Message.isStreaming m = Some false.
Proof.
  apply (finalize_runs_once (rt:=example_runtime)). exact demo_chat_exists.
Defined.

Lemma failure_marks_placeholder_after_a_delta :
  exists store effects,
    sendMessage (js "c1") (js "hi") (js "uuid-1") (js "uuid-2")
      (events_of (Streamed [Some (line_bytes "{'message':{'content':'He'}}")]
                           (StreamFails (js "network error"))))
      demo_state =
    Finished store effects
    /\ (exists chat, In chat (chats store) /\ Chat.id chat = js "c1")
    /\ forall chat,
         In chat (chats store) -> Chat.id chat = js "c1" ->
         exists earlier,
           Chat.messages chat =
           earlier ++ [Message.mk (js "Error: " ++ js "network error")
                                  (js "ai") (js "uuid-2") (Some false)].
Proof.
  apply (failure_marks_placeholder (rt:=example_runtime)).
  - exact demo_chat_exists.
  - reflexivity.
Defined.

Lemma hello_is_assembled_from_split_chunks :
  exists store effects,
    sendMessage (js "c1") (js "hi") (js "uuid-1") (js "uuid-2")
      (events_of (Streamed [Some (firstn 20 hello_stream); None;
                            Some (skipn 20 hello_stream)]
                           (StreamEnds None)))
      demo_state =
    Finished store effects
    /\ (exists chat, In chat (chats store) /\ Chat.id chat = js "c1")
    /\ forall chat,
         In chat (chats store) -> Chat.id chat = js "c1" ->
         exists earlier,
           Chat.messages chat =
           earlier
           ++ [Message.mk (js "Hello") (js "ai") (js "uuid-2") (Some false)].
Proof.
  apply (hello_is_assembled (rt:=example_runtime)).
  - exact demo_chat_exists.
  - reflexivity.
Defined.

Lemma sendMessage_unknown_chat_on_demo :
  sendMessage_start (js "c2") (js "hi") (js "uuid-1") (js "uuid-2") demo_state =
  inl (js "Chat not found")
  /\ sendMessage (js "c2") (js "hi") (js "uuid-1") (js "uuid-2")
       (events_of (Unreachable (js "offline"))) demo_state =
     Threw (js "Chat not found") demo_state
  /\ forall w, store w = demo_state ->
               act w (DoSendMessage (js "c2") (js "hi") (js "uuid-1")
                                    (js "uuid-2")) = Some w.
Proof.
  apply (sendMessage_unknown_chat (rt:=example_runtime)).
  intros chat [<-|[]]. discriminate.
Defined.

Lemma empty_content_line_parses :
  JSON_parse (jsq "{'message':{'content':''},'done':false}") =
  Some (JObj [(js "message", JObj [(js "content", JStr [])]);
              (js "done", JBool false)]).
Proof. reflexivity. Defined.

Lemma empty_content_is_no_delta_on_record :
  process_line (jsq "{'message':{'content':''},'done':false}")
    (mkProgress (js "He") (number_of_nat 1), [SetText (js "He")]) =
  (mkProgress (js "He") (number_of_nat 1), [SetText (js "He")])
  /\ (forall c s,
        perform_all c
          (snd (process_line (jsq "{'message':{'content':''},'done':false}")
                  (mkProgress (js "He") (number_of_nat 1), []))) s = s)
  /\ (forall d,
        flush_buffer
          (mkReader d (jsq "{'message':{'content':''},'done':false}")
                    (mkProgress (js "He") (number_of_nat 1))) =
        (mkProgress (js "He") (number_of_nat 1), [])).
Proof.
  apply (@empty_content_is_no_delta example_runtime _ _
           (mkProgress (js "He") (number_of_nat 1)) [SetText (js "He")]
           empty_content_line_parses).
  reflexivity.
Defined.

Lemma request_replays_history_of_two :
  exists t request,
    sendMessage_start (js "c1") (js "and now?") (js "t3") (js "t4")
      (mkState [earlier_chat] None None false None) =
    inr (t, [SetAppend (Message.mk (js "and now?") (js "user") (js "t3") None);
             SetAppend (Message.mk [] (js "ai") (js "t4") (Some true));
             Fetch request])
    /\ Request.model request = Chat.model earlier_chat
    /\ Request.stream request = true
    /\ Request.messages request =
       map turn_of
           (filter (fun m => negb (str_eqb (Message.timestamp m) (js "t3")))
                   (Chat.messages earlier_chat))
       ++ [Request.mkTurn (js "user") (js "and now?")]
    /\ ((forall m, In m (Chat.messages earlier_chat) ->
                   Message.timestamp m <> js "t3") ->
        Request.messages request =
        map turn_of (Chat.messages earlier_chat)
        ++ [Request.mkTurn (js "user") (js "and now?")]
        /\ ((forall m, In m (Chat.messages earlier_chat) ->
                       Message.text m <> js "and now?") ->
            List.length
              (filter (fun turn => str_eqb (Request.content turn)
                                           (js "and now?"))
                      (Request.messages request)) = 1))
    /\ (forall m, Message.sender m = js "user" ->
                  Request.role (turn_of m) = js "user")
    /\ (forall m, Message.sender m = js "ai" ->
                  Request.role (turn_of m) = js "assistant").
Proof.
  apply request_replays_history. reflexivity.
Defined.

(** The two bytes of "é" arrive in different chunks. *)
Lemma chunk_boundary_inside_a_character :
  lines_of_chunks [[x7b; xc3]; [xa9; x7d; x0a]] (new_TextDecoder, []) =
  lines_of_chunks [[x7b; xc3; xa9; x7d; x0a]] (new_TextDecoder, [])
  /\ (forall c : Call,
        run (mkTask c (AwaitingRead new_reader))
            (reads (map Some [[x7b; xc3]; [xa9; x7d; x0a]])) =
        run (mkTask c (AwaitingRead new_reader))
            (reads (map Some [[x7b; xc3; xa9; x7d; x0a]])))
  /\ (forall c : Call,
        exists r,
          run (mkTask c (AwaitingRead new_reader))
              (reads (map Some [[x7b; xc3]; [xa9; x7d; x0a]])) =
          Some (mkTask c (AwaitingRead r),
                snd (handle_lines
                       (lines_of_chunks [[x7b; xc3]; [xa9; x7d; x0a]]
                                        (new_TextDecoder, []))
                       (progress new_reader, [])))
          /\ progress r =
             fst (handle_lines
                    (lines_of_chunks [[x7b; xc3]; [xa9; x7d; x0a]]
                                     (new_TextDecoder, []))
                    (progress new_reader, []))).
Proof.
  apply (chunk_boundaries_do_not_matter (rt:=example_runtime)). reflexivity.
Defined.

Lemma demo_lines_are_lines :
  Forall (fun l => indexOf newline l = None) demo_lines.
Proof. repeat constructor. Defined.

Lemma malformed_lines_are_skipped_on_demo :
  exists p' effects,
    drain (List.length (join_lines demo_lines)) process_line
          (join_lines demo_lines) (progress new_reader, []) =
    ([], (p', effects))
    /\ aiText p' = js "Hello"
    /\ written effects = [js "He"; js "Hello"]
    /\ effects = [SetText (js "He"); ConsoleError (jsq "{'message':");
                  SetText (js "Hello")].
Proof.
  destruct (malformed_lines_are_skipped (rt:=example_runtime) demo_lines
              (progress new_reader) demo_lines_are_lines)
    as [p' [effects [Hdrain [_ [Htext _]]]]].
  exists p', effects. destruct (Htext eq_refl) as [Hai Hwritten].
  split; [exact Hdrain|]. split; [exact Hai|]. split; [exact Hwritten|].
  assert (Hrun : drain (List.length (join_lines demo_lines)) process_line
                   (join_lines demo_lines) (progress new_reader, []) =
                 ([], (mkProgress (js "Hello")
                         (S754_finite false 5629499534213120 (-52)),
                       [SetText (js "He"); ConsoleError (jsq "{'message':");
                        SetText (js "Hello")])))
    by (vm_compute; reflexivity).
  rewrite Hrun in Hdrain. now injection Hdrain as _ <-.
Defined.

Lemma demo_world_is_reachable :
  reachable_disciplined initial_state demo_world.
Proof.
  apply (played_disciplined initial_state demo_session initial_world).
  - apply disciplined_start.
  - vm_compute. reflexivity.
Defined.

Lemma one_streaming_message_in_demo_world :
  at_most_one_streaming (store demo_world).
Proof.
  apply (one_streaming_message_under_discipline (rt:=example_runtime)
           initial_state).
  - intros chat m [].
  - exact demo_world_is_reachable.
Defined.

(** C9 fails as stated: a second [sendMessage] on a chat whose first
    call is still under way leaves two placeholders marked as streaming,
    and so do two calls of [addMessage] with messages marked as
    streaming.  It fails for a disciplined client too, in a session
    that starts from a store saved while a reply was streaming: the
    message is read back marked as streaming, no call is under way that
    would clear its flag, and the first [sendMessage] on its chat adds a
    second message marked as streaming. *)
Lemma two_streaming_messages_are_reachable :
  (exists w chat,
      play false initial_world overlapping_sends = Some w
      /\ reachable initial_state w /\ In chat (chats (store w))
      /\ filter streaming (Chat.messages chat) =
         [Message.mk [] (js "ai") (js "u2") (Some true);
          Message.mk [] (js "ai") (js "u4") (Some true)]
      /\ streaming_count chat = 2)
  /\ (exists w chat,
        play false initial_world streaming_additions = Some w
        /\ reachable initial_state w /\ In chat (chats (store w))
        /\ streaming_count chat = 2)
  /\ (exists w chat,
        Persist.deserialize (Persist.serialize interrupted_sessions) =
        Some (Persist.sessions_of interrupted_state)
        /\ play true (start_world interrupted_state) send_after_reload =
           Some w
        /\ reachable_disciplined interrupted_state w
        /\ In chat (chats (store w))
        /\ filter streaming (Chat.messages chat) =
           [Message.mk (js "He") (js "ai") (js "u2") (Some true);
            Message.mk [] (js "ai") (js "u4") (Some true)]
        /\ streaming_count chat = 2).
Proof.
  split; [|split].
  - eexists. eexists. split; [vm_compute; reflexivity|]. split.
    + apply (played_reachable initial_state overlapping_sends initial_world);
        [apply reachable_start|].
      vm_compute. reflexivity.
    + split; [now left|]. split; reflexivity.
  - eexists. eexists. split; [vm_compute; reflexivity|]. split.
    + apply (played_reachable initial_state streaming_additions
               initial_world);
        [apply reachable_start|].
      vm_compute. reflexivity.
    + split; [now left|]. reflexivity.
  - eexists. eexists. split; [vm_compute; reflexivity|].
    split; [vm_compute; reflexivity|]. split.
    + apply (played_disciplined interrupted_state send_after_reload
               (start_world interrupted_state));
        [apply disciplined_start|].
      vm_compute. reflexivity.
    + split; [right; now left|]. split; reflexivity.
Qed.

(** ** Persistence: what is written is read back *)

Import Persist.

Section RoundTrip.
Local Open Scope N_scope.

Ltac n_tests :=
  repeat match goal with
  | H : N.eqb _ _ = true |- _ => apply N.eqb_eq in H
  | H : N.eqb _ _ = false |- _ => apply N.eqb_neq in H
  | H : N.ltb _ _ = true |- _ => apply N.ltb_lt in H
  | H : N.ltb _ _ = false |- _ => apply N.ltb_ge in H
  | H : N.leb _ _ = true |- _ => apply N.leb_le in H
  | H : N.leb _ _ = false |- _ => apply N.leb_gt in H
  | H : andb _ _ = true |- _ => apply andb_true_iff in H; destruct H
  | H : andb _ _ = false |- _ => apply andb_false_iff in H; destruct H
  | H : orb _ _ = false |- _ => apply orb_false_iff in H; destruct H
  | H : orb _ _ = true |- _ => apply orb_true_iff in H; destruct H
  end.

(** Settles a comparison of numbers by arithmetic. *)
Ltac n_decide b :=
  let E := fresh "E" in
  destruct b eqn:E; [|]; n_tests; try lia.

Lemma hex_value_digit (n : N) :
  (n < 16)%N -> hex_value (hex_digit n) = Some n.
Proof.
  intros Hn. unfold hex_value, hex_digit, in_range.
  destruct (N.ltb n 10) eqn:E; n_tests.
  - replace (N.leb 48 (48 + n)) with true by (symmetry; apply N.leb_le; lia).
    replace (N.leb (48 + n) 57) with true by (symmetry; apply N.leb_le; lia).
    cbn [andb]. f_equal. lia.
  - replace (N.leb (87 + n) 57) with false by (symmetry; apply N.leb_gt; lia).
    replace (N.leb (87 + n) 70) with false by (symmetry; apply N.leb_gt; lia).
    replace (N.leb 97 (87 + n)) with true by (symmetry; apply N.leb_le; lia).
    replace (N.leb (87 + n) 102) with true by (symmetry; apply N.leb_le; lia).
    rewrite !andb_false_r. cbn [andb]. f_equal. lia.
Qed.

Lemma hex4_escape (c : N) :
  (c < 65536)%N ->
  hex4 (hex_digit (c / 4096)) (hex_digit ((c / 256) mod 16))
       (hex_digit ((c / 16) mod 16)) (hex_digit (c mod 16)) = Some c.
Proof.
  intros Hc. unfold hex4.
  rewrite !hex_value_digit;
    try (apply N.mod_lt; lia); try (apply N.Div0.div_lt_upper_bound; lia).
  f_equal.
  pose proof (N.div_mod c 16) as H1.
  pose proof (N.div_mod (c / 16) 16) as H2.
  pose proof (N.div_mod (c / 256) 16) as H3.
  rewrite N.Div0.div_div in H2, H3.
  change (16 * 16)%N with 256%N in H2. change (256 * 16)%N with 4096%N in H3.
  lia.
Qed.

Lemma parse_unicode_escape (c : N) (text acc : jsstring) :
  (c < 65536)%N ->
  parse_string_chars (unicode_escape c ++ text) acc =
  parse_string_chars text (c :: acc).
Proof.
  intros Hc. unfold unicode_escape. cbn [app parse_string_chars].
  change (N.eqb 92 34) with false. change (N.eqb 92 92) with true.
  change (N.eqb 117 117) with true. cbv iota.
  now rewrite (hex4_escape _ Hc).
Qed.

Lemma parse_literal_unit (c : N) (text acc : jsstring) :
  c <> 34%N -> c <> 92%N -> (32 <= c)%N ->
  parse_string_chars (c :: text) acc = parse_string_chars text (c :: acc).
Proof.
  intros H1 H2 H3. cbn [parse_string_chars].
  apply N.eqb_neq in H1, H2. rewrite H1, H2.
  replace (N.ltb c 32) with false by (symmetry; apply N.ltb_ge; lia).
  reflexivity.
Qed.

Lemma parse_short_escape (e u : N) (text acc : jsstring) :
  escape_value e = Some u -> e <> 117%N ->
  parse_string_chars (92 :: e :: text) acc =
  parse_string_chars text (u :: acc).
Proof.
  intros He Hne. cbn [parse_string_chars].
  change (N.eqb 92 34) with false. change (N.eqb 92 92) with true. cbv iota.
  apply N.eqb_neq in Hne. now rewrite Hne, He.
Qed.

(** A quoted string is read back unit by unit. *)
Lemma parse_quote_chars (n : nat) :
  forall (s acc rest : jsstring),
    (List.length s <= n)%nat ->
    parse_string_chars (quote_chars s ++ 34%N :: rest) acc =
    Some (rev acc ++ s, rest).
Proof.
  induction n as [|n IH]; intros s acc rest Hlen.
  - destruct s; [|simpl in Hlen; lia]. simpl. now rewrite app_nil_r.
  - destruct s as [|c s]; [simpl; now rewrite app_nil_r|].
    simpl in Hlen.
    assert (Hnext : forall u, parse_string_chars (quote_chars s ++ 34%N :: rest)
                                (u :: acc) = Some (rev acc ++ u :: s, rest)).
    { intros u. rewrite IH by lia. simpl. now rewrite <- app_assoc. }
    cbn [quote_chars].
    n_decide (N.eqb c 8);
      [subst; cbn [app]; now rewrite (@parse_short_escape 98 8)|].
    n_decide (N.eqb c 9);
      [subst; cbn [app]; now rewrite (@parse_short_escape 116 9)|].
    n_decide (N.eqb c 10);
      [subst; cbn [app]; now rewrite (@parse_short_escape 110 10)|].
    n_decide (N.eqb c 12);
      [subst; cbn [app]; now rewrite (@parse_short_escape 102 12)|].
    n_decide (N.eqb c 13);
      [subst; cbn [app]; now rewrite (@parse_short_escape 114 13)|].
    n_decide (N.eqb c 34);
      [subst; cbn [app]; now rewrite (@parse_short_escape 34 34)|].
    n_decide (N.eqb c 92);
      [subst; cbn [app]; now rewrite (@parse_short_escape 92 92)|].
    n_decide (N.ltb c 32).
    { rewrite <- app_assoc, parse_unicode_escape by lia. apply Hnext. }
    unfold is_high_surrogate, is_low_surrogate, in_range.
    destruct (N.leb 55296 c && N.leb c 56319) eqn:Ehigh; n_tests.
    + destruct s as [|next s].
      * rewrite parse_unicode_escape by lia. reflexivity.
      * destruct (N.leb 56320 next && N.leb next 57343) eqn:Elow; n_tests.
        -- cbn [app]. rewrite !parse_literal_unit by lia.
           rewrite IH by (simpl in Hlen; lia). simpl.
           now rewrite <- !app_assoc.
        -- rewrite <- app_assoc, parse_unicode_escape by lia. apply Hnext.
        -- rewrite <- app_assoc, parse_unicode_escape by lia. apply Hnext.
    + destruct (N.leb 56320 c && N.leb c 57343) eqn:Elow; n_tests.
      * rewrite <- app_assoc, parse_unicode_escape by lia. apply Hnext.
      * cbn [app]. rewrite parse_literal_unit by lia. apply Hnext.
      * cbn [app]. rewrite parse_literal_unit by lia. apply Hnext.
    + destruct (N.leb 56320 c && N.leb c 57343) eqn:Elow; n_tests.
      * rewrite <- app_assoc, parse_unicode_escape by lia. apply Hnext.
      * cbn [app]. rewrite parse_literal_unit by lia. apply Hnext.
      * cbn [app]. rewrite parse_literal_unit by lia. apply Hnext.
Qed.

Lemma skip_ws_head (c : N) (r : jsstring) :
  is_json_space c = false -> skip_ws (c :: r) = c :: r.
Proof. intros H. simpl. now rewrite H. Qed.

Lemma closes_skip_ws (rest : jsstring) : closes rest -> skip_ws rest = rest.
Proof.
  intros [ -> | [c [r [ -> [ -> | [ -> | -> ]]]]]]; reflexivity.
Qed.

Lemma span_digits_literal (ds rest : jsstring) :
  forallb is_digit ds = true -> closes rest ->
  span_digits (ds ++ rest) = (ds, rest).
Proof.
  intros Hds Hrest. induction ds as [|d ds IH]; simpl in *.
  - destruct Hrest as [ -> | [c [r [ -> [ -> | [ -> | -> ]]]]]]; reflexivity.
  - apply andb_true_iff in Hds as [Hd Hds]. now rewrite Hd, (IH Hds).
Qed.

Lemma parse_number_literal (lit rest : jsstring) :
  integer_literal lit = true -> closes rest ->
  parse_number (lit ++ rest) = Some (lit, rest).
Proof.
  intros Hlit Hrest. destruct lit as [|d ds]; [discriminate|].
  simpl in Hlit. unfold parse_number, parse_int_part. cbn [app].
  assert (Htail : parse_frac_part rest = Some ([], rest)
                  /\ parse_exp_part rest = Some ([], rest)).
  { destruct Hrest as [ -> | [c [r [ -> [ -> | [ -> | -> ]]]]]]; split; reflexivity. }
  destruct Htail as [Hfrac Hexp].
  destruct (d =? 48) eqn:E48.
  - apply N.eqb_eq in E48. subst d. destruct ds; [|discriminate]. simpl.
    now rewrite Hfrac, Hexp.
  - apply andb_true_iff in Hlit as [Hd Hds].
    assert (H45 : (d =? 45) = false).
    { unfold in_range in Hd. n_tests. apply N.eqb_neq. lia. }
    rewrite H45. lazy beta iota zeta. rewrite E48, Hd.
    rewrite (span_digits_literal _ _ Hds Hrest), Hfrac, Hexp.
    simpl. now rewrite app_nil_r.
Qed.

(** The first unit of a tree's text tells the parser what follows. *)
Lemma parse_value_string (f : nat) (t : jsstring) :
  parse_value (S f) (34 :: t) =
  match parse_string_chars t [] with
  | Some (str, rest') => Some (JStr str, rest')
  | None => None
  end.
Proof. reflexivity. Qed.

Lemma parse_value_array (f : nat) (t : jsstring) :
  parse_value (S f) (91 :: t) =
  match skip_ws t with
  | c' :: rest' =>
      if c' =? 93 then Some (JArr [], rest') else parse_elements f t []
  | [] => None
  end.
Proof. reflexivity. Qed.

Lemma parse_value_object (f : nat) (t : jsstring) :
  parse_value (S f) (123 :: t) =
  match skip_ws t with
  | c' :: rest' =>
      if c' =? 125 then Some (JObj [], rest') else parse_members f t []
  | [] => None
  end.
Proof. reflexivity. Qed.

Lemma parse_value_number (f : nat) (d : N) (t : jsstring) :
  is_digit d = true ->
  parse_value (S f) (d :: t) =
  match parse_number (d :: t) with
  | Some (lit, rest') => Some (JNum lit, rest')
  | None => None
  end.
Proof.
  intros Hd. unfold is_digit, in_range in Hd. n_tests.
  cbn [parse_value]. rewrite skip_ws_head.
  - replace (d =? 123) with false by (symmetry; apply N.eqb_neq; lia).
    replace (d =? 91) with false by (symmetry; apply N.eqb_neq; lia).
    replace (d =? 34) with false by (symmetry; apply N.eqb_neq; lia).
    replace (is_digit d) with true
      by (symmetry; unfold is_digit, in_range; apply andb_true_iff;
          split; apply N.leb_le; lia).
    now rewrite orb_true_r.
  - unfold is_json_space.
    repeat (apply orb_false_iff; split); apply N.eqb_neq; lia.
Qed.

Lemma parse_elements_step (f : nat) (s : jsstring) (acc : list json) :
  parse_elements (S f) s acc =
  match parse_value f s with
  | None => None
  | Some (v, rest) =>
      match skip_ws rest with
      | c :: rest' =>
          if c =? 44 then parse_elements f rest' (v :: acc)
          else if c =? 93 then Some (JArr (rev (v :: acc)), rest')
          else None
      | [] => None
      end
  end.
Proof. reflexivity. Qed.

Lemma parse_members_step (f : nat) (t : jsstring)
  (acc : list (jsstring * json)) :
  parse_members (S f) (34 :: t) acc =
  match parse_string_chars t [] with
  | None => None
  | Some (key, rest1) =>
      match skip_ws rest1 with
      | [] => None
      | colon :: rest2 =>
          if negb (colon =? 58) then None
          else
            match parse_value f rest2 with
            | None => None
            | Some (v, rest3) =>
                match skip_ws rest3 with
                | c :: rest4 =>
                    if c =? 44 then parse_members f rest4 ((key, v) :: acc)
                    else if c =? 125 then
                      Some (JObj (rev ((key, v) :: acc)), rest4)
                    else None
                | [] => None
                end
            end
      end
  end.
Proof. reflexivity. Qed.

(** Induction on trees, with the hypothesis for every element of an
    array and every member of an object. *)
Section JsonInduction.
Variable P : json -> Prop.
Hypothesis Hnull : P JNull.
Hypothesis Hbool : forall b, P (JBool b).
Hypothesis Hnum : forall lit, P (JNum lit).
Hypothesis Hstr : forall str, P (JStr str).
Hypothesis Harr : forall es, Forall P es -> P (JArr es).
Hypothesis Hobj : forall ms, Forall (fun kv => P (snd kv)) ms -> P (JObj ms).

Fixpoint json_induction (j : json) : P j :=
  match j with
  | JNull => Hnull
  | JBool b => Hbool b
  | JNum lit => Hnum lit
  | JStr str => Hstr str
  | JArr es =>
      Harr es
        ((fix each (l : list json) : Forall P l :=
            match l with
            | [] => Forall_nil P
            | e :: rest => Forall_cons e (json_induction e) (each rest)
            end) es)
  | JObj ms =>
      Hobj ms
        ((fix each (l : list (jsstring * json))
            : Forall (fun kv => P (snd kv)) l :=
            match l with
            | [] => Forall_nil _
            | kv :: rest =>
                Forall_cons kv (json_induction (snd kv)) (each rest)
            end) ms)
  end.
End JsonInduction.

Lemma stringify_array (es : list json) :
  stringify (JArr es) = 91 :: join (map stringify es) ++ [93].
Proof. reflexivity. Qed.

Lemma stringify_object (ms : list (jsstring * json)) :
  stringify (JObj ms) = 123 :: join (map member_text ms) ++ [125].
Proof. reflexivity. Qed.

Lemma join_cons (x y : jsstring) (l : list jsstring) :
  join (x :: y :: l) = x ++ 44 :: join (y :: l).
Proof. reflexivity. Qed.

(** The text of a plain tree starts with a unit that is no white space
    and closes nothing. *)
Lemma stringify_head (j : json) :
  plain j = true ->
  exists c r, stringify j = c :: r /\ is_json_space c = false
              /\ (c =? 93) = false /\ (c =? 125) = false.
Proof.
  destruct j as [|[|]|lit|str|es|ms]; intros Hplain;
    try (eexists; eexists; split; [reflexivity|]; repeat split; reflexivity).
  simpl in Hplain. destruct lit as [|d ds]; [discriminate|].
  exists d, ds. split; [reflexivity|].
  assert (Hd : 48 <= d <= 57).
  { simpl in Hplain. destruct (d =? 48) eqn:E; n_tests; [lia|].
    unfold in_range in *. n_tests. lia. }
  unfold is_json_space. repeat split.
  - repeat (apply orb_false_iff; split); apply N.eqb_neq; lia.
  - apply N.eqb_neq; lia.
  - apply N.eqb_neq; lia.
Qed.

Lemma closes_comma (r : jsstring) : closes (44 :: r).
Proof. right. exists 44, r. auto. Qed.

Lemma closes_bracket (r : jsstring) : closes (93 :: r).
Proof. right. exists 93, r. auto. Qed.

Lemma closes_brace (r : jsstring) : closes (125 :: r).
Proof. right. exists 125, r. auto. Qed.

Lemma parse_elements_join (es : list json) :
  Forall reads_back es -> forallb plain es = true -> es <> [] ->
  forall (acc : list json) (fuel : nat) (rest : jsstring),
    (List.length (join (map stringify es)) + 1 <= fuel)%nat ->
    parse_elements fuel (join (map stringify es) ++ 93 :: rest) acc =
    Some (JArr (rev acc ++ es), rest).
Proof.
  induction 1 as [|e es He Hes IH]; intros Hplain Hne acc fuel rest Hfuel;
    [congruence|].
  simpl in Hplain. apply andb_true_iff in Hplain as [Hpe Hpes].
  destruct fuel as [|f]; [lia|]. rewrite parse_elements_step.
  destruct es as [|e2 es].
  - cbn [map join] in *.
    rewrite (He Hpe f (93 :: rest)) by (try apply closes_bracket; lia).
    reflexivity.
  - cbn [map] in *. rewrite join_cons in *. rewrite <- app_assoc.
    cbn [app]. rewrite length_app in Hfuel. cbn [List.length] in Hfuel.
    rewrite (He Hpe f (44 :: _)) by (try apply closes_comma; lia).
    cbn [skip_ws is_json_space]. simpl (44 =? _). cbv iota.
    change (is_json_space 44) with false. cbv iota.
    rewrite IH by (try congruence; try assumption; lia).
    simpl. now rewrite <- app_assoc.
Qed.

Lemma member_text_shape (k : jsstring) (v : json) (tail : jsstring) :
  member_text (k, v) ++ tail =
  34 :: quote_chars k ++ 34 :: 58 :: stringify v ++ tail.
Proof.
  unfold member_text, quote. cbn [fst snd app].
  now rewrite <- !app_assoc.
Qed.

Lemma member_text_length (k : jsstring) (v : json) :
  (List.length (stringify v) + 3 <= List.length (member_text (k, v)))%nat.
Proof.
  unfold member_text, quote. cbn [fst snd].
  repeat (rewrite length_app || cbn [List.length]). lia.
Qed.

Lemma parse_members_join (ms : list (jsstring * json)) :
  Forall (fun kv => reads_back (snd kv)) ms ->
  forallb (fun kv => plain (snd kv)) ms = true -> ms <> [] ->
  forall (acc : list (jsstring * json)) (fuel : nat) (rest : jsstring),
    (List.length (join (map member_text ms)) + 1 <= fuel)%nat ->
    parse_members fuel (join (map member_text ms) ++ 125 :: rest) acc =
    Some (JObj (rev acc ++ ms), rest).
Proof.
  induction 1 as [|[k v] ms Hv Hms IH]; intros Hplain Hne acc fuel rest Hfuel;
    [congruence|].
  simpl in Hplain, Hv. apply andb_true_iff in Hplain as [Hpv Hpms].
  destruct fuel as [|f]; [lia|].
  assert (Hkey : forall tail,
             parse_string_chars (quote_chars k ++ 34 :: tail) [] =
             Some (k, tail)).
  { intros tail. now rewrite (parse_quote_chars (List.length k)) by lia. }
  pose proof (member_text_length k v) as Hlen.
  destruct ms as [|m2 ms].
  - cbn [map join] in *. rewrite member_text_shape.
    rewrite parse_members_step, Hkey.
    cbn [skip_ws]. change (is_json_space 58) with false. cbv iota.
    change (58 =? 58) with true. cbn [negb]. cbv iota.
    rewrite (Hv Hpv f (125 :: rest)) by (try apply closes_brace; lia).
    reflexivity.
  - cbn [map] in *. rewrite join_cons in *.
    rewrite length_app in Hfuel. cbn [List.length] in Hfuel.
    rewrite <- app_assoc, member_text_shape. cbn [app].
    rewrite parse_members_step, Hkey.
    cbn [skip_ws]. change (is_json_space 58) with false. cbv iota.
    change (58 =? 58) with true. cbn [negb]. cbv iota.
    rewrite (Hv Hpv f (44 :: _)) by (try apply closes_comma; lia).
    cbn [skip_ws]. change (is_json_space 44) with false. cbv iota.
    change (44 =? 44) with true. cbv iota.
    rewrite IH by (try congruence; try assumption; lia).
    simpl. now rewrite <- app_assoc.
Qed.

(** [JSON.parse] reads the text of a plain tree back as the tree. *)
Lemma parse_stringify (j : json) : reads_back j.
Proof.
  induction j as [|b|lit|str|es IH|ms IH] using json_induction;
    intros Hplain fuel rest Hfuel Hrest.
  - destruct fuel as [|f]; [simpl in Hfuel; lia|]. reflexivity.
  - destruct fuel as [|f]; [destruct b; simpl in Hfuel; lia|].
    destruct b; reflexivity.
  - simpl in Hplain. destruct lit as [|d ds]; [discriminate|].
    destruct fuel as [|f]; [simpl in Hfuel; lia|].
    assert (Hd : is_digit d = true).
    { simpl in Hplain. unfold is_digit.
      destruct (d =? 48) eqn:E; [apply N.eqb_eq in E; now subst|].
      now apply andb_true_iff in Hplain as [Hd _]; unfold in_range in *;
        n_tests; apply andb_true_iff; split; apply N.leb_le; lia. }
    cbn [stringify app]. rewrite (parse_value_number f d _ Hd).
    change (d :: ds ++ rest) with ((d :: ds) ++ rest).
    now rewrite (parse_number_literal _ _ Hplain Hrest).
  - destruct fuel as [|f]; [simpl in Hfuel; lia|].
    cbn [stringify]. unfold quote. cbn [app]. rewrite <- app_assoc.
    cbn [app]. rewrite parse_value_string.
    now rewrite (parse_quote_chars (List.length str)) by lia.
  - simpl in Hplain. rewrite stringify_array in *.
    destruct fuel as [|f]; [simpl in Hfuel; lia|].
    cbn [List.length] in Hfuel. rewrite length_app in Hfuel.
    cbn [List.length] in Hfuel.
    cbn [app]. rewrite <- app_assoc. cbn [app]. rewrite parse_value_array.
    destruct es as [|e es]; [reflexivity|].
    assert (Hpe : plain e = true)
      by (simpl in Hplain; now apply andb_true_iff in Hplain as [H _]).
    destruct (stringify_head e Hpe) as [c [r [Hc [Hspace [H93 _]]]]].
    assert (Hhead : exists t, join (map stringify (e :: es)) ++ 93 :: rest
                              = c :: t).
    { destruct es; cbn [map]; [cbn [join]|rewrite join_cons];
        rewrite Hc; eexists; reflexivity. }
    destruct Hhead as [t Ht]. rewrite Ht, (skip_ws_head _ _ Hspace), H93.
    rewrite <- Ht. rewrite parse_elements_join; try assumption; try lia.
    + reflexivity.
    + congruence.
  - simpl in Hplain. rewrite stringify_object in *.
    destruct fuel as [|f]; [simpl in Hfuel; lia|].
    cbn [List.length] in Hfuel. rewrite length_app in Hfuel.
    cbn [List.length] in Hfuel.
    cbn [app]. rewrite <- app_assoc. cbn [app]. rewrite parse_value_object.
    destruct ms as [|[k v] ms]; [reflexivity|].
    assert (Hhead : exists t, join (map member_text ((k, v) :: ms))
                              ++ 125 :: rest = 34 :: t).
    { destruct ms; cbn [map]; [cbn [join]|rewrite join_cons, <- app_assoc];
        rewrite member_text_shape; eexists; reflexivity. }
    destruct Hhead as [t Ht]. rewrite Ht.
    cbn [skip_ws]. change (is_json_space 34) with false. cbv iota.
    change (34 =? 125) with false. cbv iota.
    rewrite <- Ht. rewrite parse_members_join; try assumption; try lia.
    + reflexivity.
    + congruence.
Qed.

Lemma JSON_parse_stringify (j : json) :
  plain j = true -> JSON_parse (stringify j) = Some j.
Proof.
  intros Hplain. unfold JSON_parse.
  pose proof (parse_stringify j Hplain
                (2 * List.length (stringify j) + 2)%nat []) as H.
  rewrite app_nil_r in H. rewrite H; [reflexivity|lia|now left].
Qed.

End RoundTrip.

(** *** The typed data *)

Lemma all_of_map {A B : Type} (f : A -> option B) (g : B -> A) (l : list B) :
  (forall x, f (g x) = Some x) -> all_of f (map g l) = Some l.
Proof.
  intros H. induction l as [|x l IH]; simpl; [reflexivity|].
  now rewrite H, IH.
Qed.

Lemma message_read_back (m : Message.t) :
  message_of_json (json_of_message m) = Some m.
Proof. destruct m as [t sd ts [b|]]; reflexivity. Qed.

Lemma chat_read_back (c : Chat.t) : chat_of_json (json_of_chat c) = Some c.
Proof.
  destruct c as [i t m ms ca]. unfold json_of_chat, chat_of_json.
  cbn [Chat.id Chat.title Chat.model Chat.messages Chat.createdAt].
  change (lookup (js "messages") _) with
    (Some (JArr (map json_of_message ms))).
  change (lookup (js "id") _) with (Some (JStr i)).
  change (lookup (js "title") _) with (Some (JStr t)).
  change (lookup (js "model") _) with (Some (JStr m)).
  change (lookup (js "createdAt") _) with (Some (JStr ca)).
  cbv iota beta. now rewrite (all_of_map _ _ ms message_read_back).
Qed.

Lemma sessions_read_back (s : Sessions) :
  sessions_of_json (json_of_sessions s) = Some s.
Proof.
  destruct s as [cs cur]. unfold json_of_sessions, sessions_of_json.
  cbn [saved_chats saved_currentChatId].
  change (lookup (js "version") _) with (Some (JNum (js "0"))).
  match goal with
  | |- context [lookup (js "state") ?l] =>
      change (lookup (js "state") l) with
        (Some (JObj [(js "chats", JArr (map json_of_chat cs));
                     (js "currentChatId",
                      match cur with
                      | Some c => JStr c
                      | None => JNull
                      end)]))
  end.
  cbv iota beta. change (str_eqb (js "0") (js "0")) with true. cbv iota.
  change (lookup (js "chats") _) with (Some (JArr (map json_of_chat cs))).
  match goal with
  | |- context [lookup (js "currentChatId") ?l] =>
      change (lookup (js "currentChatId") l) with
        (Some (match cur with Some c => JStr c | None => JNull end))
  end.
  cbv iota beta. rewrite (all_of_map _ _ cs chat_read_back).
  now destruct cur.
Qed.

Lemma plain_message (m : Message.t) : plain (json_of_message m) = true.
Proof. destruct m as [t sd ts [b|]]; reflexivity. Qed.

Lemma plain_chat (c : Chat.t) : plain (json_of_chat c) = true.
Proof.
  destruct c as [i t m ms ca]. unfold json_of_chat.
  cbn [plain forallb snd Chat.id Chat.title Chat.model Chat.messages
       Chat.createdAt].
  assert (H : forallb plain (map json_of_message ms) = true).
  { induction ms as [|x ms IH]; cbn [map forallb]; [reflexivity|].
    now rewrite plain_message, IH. }
  now rewrite H.
Qed.

Lemma plain_sessions (s : Sessions) : plain (json_of_sessions s) = true.
Proof.
  destruct s as [cs cur]. unfold json_of_sessions.
  cbn [plain forallb snd saved_chats saved_currentChatId].
  assert (H : forallb plain (map json_of_chat cs) = true).
  { induction cs as [|c cs IH]; cbn [map forallb]; [reflexivity|].
    now rewrite plain_chat, IH. }
  rewrite H. now destruct cur.
Qed.

(** C3, as the code has it: the session collection written to the
    storage is read back on start-up field for field, for chats with no,
    one or many messages; the [isStreaming] flag is read back as it was
    written, so a message that was streaming when it was saved is still
    marked as streaming after loading. *)
Theorem sessions_round_trip (s : Sessions) :
  deserialize (serialize s) = Some s.
Proof.
  unfold deserialize, serialize.
  rewrite (JSON_parse_stringify _ (plain_sessions s)).
  apply sessions_read_back.
Qed.

(** C3 fails as stated: nothing reconciles a message that was saved
    while streaming; it is loaded with [isStreaming] true. *)
Lemma streaming_flag_survives_reload :
  deserialize (serialize interrupted_sessions) = Some interrupted_sessions
  /\ deserialize (serialize interrupted_sessions)
     <> Some (reconcile interrupted_sessions)
  /\ exists loaded chat,
       deserialize (serialize interrupted_sessions) = Some loaded
       /\ In chat (saved_chats loaded)
       /\ In (Message.mk (js "He") (js "ai") (js "u2") (Some true))
             (Chat.messages chat).
Proof.
  assert (H : deserialize (serialize interrupted_sessions) =
              Some interrupted_sessions) by (vm_compute; reflexivity).
  split; [exact H|]. split.
  - rewrite H. discriminate.
  - exists interrupted_sessions. eexists. split; [exact H|].
    split; [right; left; reflexivity|]. right. now left.
Qed.

(** ** The other operations *)

(** X2: [createChat] throws "No model selected" and leaves the store
    alone when the model is empty; otherwise the new chat, without
    messages, is put in front of the others, becomes the current chat,
    and its id is returned. *)
Theorem createChat_contract (title model uuid now : jsstring) (s : State) :
  createChat title [] uuid now s = inl (js "No model selected")
  /\ (model <> [] ->
      exists chat s',
        createChat title model uuid now s = inr (uuid, s')
        /\ chats s' = chat :: chats s
        /\ currentChatId s' = Some uuid
        /\ Chat.id chat = uuid /\ Chat.model chat = model
        /\ Chat.messages chat = []
        /\ Chat.title chat = (if is_empty title then js "New Chat" else title)).
Proof.
  split; [reflexivity|]. intros Hmodel. unfold createChat.
  destruct model as [|c model]; [congruence|]. simpl.
  eexists. eexists. repeat split.
Qed.

(** X3: [deleteChat] removes the chats with the given id and keeps
    the others; the pointer to the current chat is cleared if
    it was that id and kept otherwise. *)
Theorem deleteChat_contract (chatId : jsstring) (s : State) :
  (forall chat, In chat (chats (deleteChat chatId s)) <->
                In chat (chats s) /\ Chat.id chat <> chatId)
  /\ (currentChatId s = Some chatId ->
      currentChatId (deleteChat chatId s) = None)
  /\ (currentChatId s <> Some chatId ->
      currentChatId (deleteChat chatId s) = currentChatId s).
Proof.
  unfold deleteChat; cbn [chats currentChatId]. split; [|split].
  - intros chat. rewrite filter_In, negb_true_iff, str_eqb_neq. tauto.
  - intros ->. now rewrite str_eqb_refl.
  - intros H. destruct (currentChatId s) as [cur|]; [|reflexivity].
    destruct (str_eqb cur chatId) eqn:E; [|reflexivity].
    apply str_eqb_eq in E. congruence.
Qed.

(** X4: when the request of [fetchModels] has settled, the loading
    flag is off whatever the outcome; a failure is recorded as the
    error, a success replaces the model list, and the chats are left
    alone. *)
Theorem fetchModels_clears_loading (outcome : jsstring + option json)
  (s : State) :
  loadingModels (fetchModels_settle outcome (fetchModels_start s)) = false
  /\ chats (fetchModels_settle outcome (fetchModels_start s)) = chats s
  /\ (forall message, outcome = inl message ->
        apiError (fetchModels_settle outcome (fetchModels_start s)) =
        Some message)
  /\ (forall models, outcome = inr models ->
        availableModels (fetchModels_settle outcome (fetchModels_start s)) =
        models
        /\ apiError (fetchModels_settle outcome (fetchModels_start s)) = None).
Proof.
  split; [now destruct outcome|]. split; [now destruct outcome|]. split.
  - now intros message ->.
  - now intros models ->.
Qed.

(** ** [JSON.parse]: the fuel is enough

    Whatever [parse_value] returns with the fuel [JSON_parse] gives it,
    it returns with any larger fuel: no text is rejected for lack of
    fuel. *)

Section Fuel.
Local Open Scope nat_scope.

Lemma skip_ws_length (s : jsstring) :
  List.length (skip_ws s) <= List.length s.
Proof.
  induction s as [|c s IH]; simpl; [lia|].
  destruct (is_json_space c); simpl; lia.
Qed.

Lemma parse_string_chars_shrinks (s : jsstring) :
  forall acc str rest,
    parse_string_chars s acc = Some (str, rest) ->
    List.length rest < List.length s.
Proof.
  induction s as [s IH] using (well_founded_induction
                                 (Wf_nat.well_founded_ltof _ (@List.length N))).
  unfold Wf_nat.ltof in IH.
  intros acc str rest. destruct s as [|c s]; [discriminate|].
  cbn [parse_string_chars].
  destruct (N.eqb c 34).
  - intros [= _ <-]. simpl. lia.
  - destruct (N.eqb c 92).
    + destruct s as [|e s]; [discriminate|].
      destruct (N.eqb e 117).
      * destruct s as [|h1 [|h2 [|h3 [|h4 s]]]]; try discriminate.
        destruct (hex4 h1 h2 h3 h4); [|discriminate].
        intros H. apply IH in H; simpl in *; lia.
      * destruct (escape_value e); [|discriminate].
        intros H. apply IH in H; simpl in *; lia.
    + destruct (N.ltb c 32); [discriminate|].
      intros H. apply IH in H; simpl in *; lia.
Qed.

Lemma span_digits_length (s : jsstring) :
  List.length (fst (span_digits s)) + List.length (snd (span_digits s)) =
  List.length s.
Proof.
  induction s as [|c s IH]; simpl; [reflexivity|].
  destruct (is_digit c); simpl; [|reflexivity].
  destruct (span_digits s); simpl in *. lia.
Qed.

Lemma parse_number_shrinks (s lit rest : jsstring) :
  parse_number s = Some (lit, rest) -> List.length rest < List.length s.
Proof.
  unfold parse_number.
  set (split := match s with
                | c :: r => if N.eqb c 45 then ([c], r) else ([], s)
                | [] => ([], s)
                end).
  assert (Hsplit : List.length (snd split) <= List.length s).
  { subst split. destruct s as [|c r]; simpl; [lia|].
    destruct (N.eqb c 45); simpl; lia. }
  destruct split as [sign s1]. simpl in Hsplit.
  destruct (parse_int_part s1) as [[int s2]|] eqn:Eint; [|discriminate].
  assert (H2 : List.length s2 < List.length s1).
  { unfold parse_int_part in Eint. destruct s1 as [|d r]; [discriminate|].
    destruct (N.eqb d 48).
    - injection Eint as _ <-. simpl. lia.
    - destruct (in_range 49 57 d); [|discriminate].
      pose proof (span_digits_length r) as Hlen.
      destruct (span_digits r) as [ds r']. injection Eint as _ <-.
      simpl in *. lia. }
  destruct (parse_frac_part s2) as [[frac s3]|] eqn:Efrac; [|discriminate].
  assert (H3 : List.length s3 <= List.length s2).
  { unfold parse_frac_part in Efrac. destruct s2 as [|c r].
    - injection Efrac as _ <-. lia.
    - destruct (N.eqb c 46).
      + pose proof (span_digits_length r) as Hlen.
        destruct (span_digits r) as [[|d ds] r']; [discriminate|].
        injection Efrac as _ <-. simpl in *. lia.
      + injection Efrac as _ <-. lia. }
  destruct (parse_exp_part s3) as [[ex s4]|] eqn:Eexp; [|discriminate].
  assert (H4 : List.length s4 <= List.length s3).
  { assert (Hdigits : forall mark t lit' r',
               parse_exp_digits mark t = Some (lit', r') ->
               List.length r' <= List.length t).
    { intros mark t lit' r'. unfold parse_exp_digits.
      pose proof (span_digits_length t) as Hlen.
      destruct (span_digits t) as [[|d ds] r'']; [discriminate|].
      intros [= _ <-]. simpl in *. lia. }
    unfold parse_exp_part in Eexp. destruct s3 as [|e r].
    - injection Eexp as _ <-. lia.
    - destruct (N.eqb e 101 || N.eqb e 69).
      + destruct r as [|sg r']; [discriminate|].
        destruct (N.eqb sg 43 || N.eqb sg 45).
        * apply Hdigits in Eexp. simpl in *. lia.
        * apply Hdigits in Eexp. simpl in *. lia.
      + injection Eexp as _ <-. lia. }
  intros [= _ <-]. lia.
Qed.

Lemma strip_prefix_length (p s rest : jsstring) :
  strip_prefix p s = Some rest ->
  List.length rest + List.length p = List.length s.
Proof.
  revert s; induction p as [|x p IH]; intros [|y s]; simpl;
    try discriminate; try (intros [= <-]; simpl; lia).
  destruct (N.eqb x y); [|discriminate]. intros H. apply IH in H. lia.
Qed.

Lemma parse_value_step (f : nat) (s : jsstring) :
  parse_value (S f) s =
  match skip_ws s with
  | [] => None
  | c :: rest =>
      if N.eqb c 123 then
        match skip_ws rest with
        | c' :: rest' =>
            if N.eqb c' 125 then Some (JObj [], rest')
            else parse_members f rest []
        | [] => None
        end
      else if N.eqb c 91 then
        match skip_ws rest with
        | c' :: rest' =>
            if N.eqb c' 93 then Some (JArr [], rest')
            else parse_elements f rest []
        | [] => None
        end
      else if N.eqb c 34 then
        match parse_string_chars rest [] with
        | Some (str, rest') => Some (JStr str, rest')
        | None => None
        end
      else if N.eqb c 45 || is_digit c then
        match parse_number (c :: rest) with
        | Some (lit, rest') => Some (JNum lit, rest')
        | None => None
        end
      else
        match strip_prefix (js "true") (c :: rest) with
        | Some rest' => Some (JBool true, rest')
        | None =>
        match strip_prefix (js "false") (c :: rest) with
        | Some rest' => Some (JBool false, rest')
        | None =>
        match strip_prefix (js "null") (c :: rest) with
        | Some rest' => Some (JNull, rest')
        | None => None
        end end end
  end.
Proof. reflexivity. Qed.

Lemma parse_members_unfold (f : nat) (s : jsstring)
  (acc : list (jsstring * json)) :
  parse_members (S f) s acc =
  match skip_ws s with
  | [] => None
  | q :: rest =>
      if negb (N.eqb q 34) then None
      else
        match parse_string_chars rest [] with
        | None => None
        | Some (key, rest1) =>
            match skip_ws rest1 with
            | [] => None
            | colon :: rest2 =>
                if negb (N.eqb colon 58) then None
                else
                  match parse_value f rest2 with
                  | None => None
                  | Some (v, rest3) =>
                      match skip_ws rest3 with
                      | c :: rest4 =>
                          if N.eqb c 44 then
                            parse_members f rest4 ((key, v) :: acc)
                          else if N.eqb c 125 then
                            Some (JObj (rev ((key, v) :: acc)), rest4)
                          else None
                      | [] => None
                      end
                  end
            end
        end
  end.
Proof. reflexivity. Qed.

(** Hypotheses about [skip_ws] as bounds on lengths. *)
Ltac ws_bound :=
  repeat match goal with
  | E : skip_ws ?s = _ |- _ =>
      let H := fresh "Hws" in
      pose proof (skip_ws_length s) as H; rewrite E in H; clear E
  end; simpl in *.

(** What a parser returns as the rest is shorter than what it was
    given. *)
Lemma parsers_shrink (fuel : nat) :
  (forall s v r, parse_value fuel s = Some (v, r) ->
                 List.length r < List.length s)
  /\ (forall s acc v r, parse_elements fuel s acc = Some (v, r) ->
                        List.length r < List.length s)
  /\ (forall s acc v r, parse_members fuel s acc = Some (v, r) ->
                        List.length r < List.length s).
Proof.
  induction fuel as [|f [IHv [IHe IHm]]]; [repeat split; discriminate|].
  split; [|split].
  - intros s v r. rewrite parse_value_step.
    destruct (skip_ws s) as [|c rest] eqn:E; [discriminate|].
    destruct (N.eqb c 123).
    { destruct (skip_ws rest) as [|c' rest'] eqn:E'; [discriminate|].
      destruct (N.eqb c' 125).
      - intros [= _ <-]. ws_bound. lia.
      - intros H. apply IHm in H. ws_bound. lia. }
    destruct (N.eqb c 91).
    { destruct (skip_ws rest) as [|c' rest'] eqn:E'; [discriminate|].
      destruct (N.eqb c' 93).
      - intros [= _ <-]. ws_bound. lia.
      - intros H. apply IHe in H. ws_bound. lia. }
    destruct (N.eqb c 34).
    { destruct (parse_string_chars rest []) as [[str rest']|] eqn:Es;
        [|discriminate].
      intros [= _ <-]. apply parse_string_chars_shrinks in Es.
      ws_bound. lia. }
    destruct (N.eqb c 45 || is_digit c).
    { destruct (parse_number (c :: rest)) as [[lit rest']|] eqn:En;
        [|discriminate].
      intros [= _ <-]. apply parse_number_shrinks in En. ws_bound. lia. }
    destruct (strip_prefix (js "true") (c :: rest)) as [r1|] eqn:E1.
    { intros [= _ <-]. apply strip_prefix_length in E1. ws_bound. lia. }
    destruct (strip_prefix (js "false") (c :: rest)) as [r2|] eqn:E2.
    { intros [= _ <-]. apply strip_prefix_length in E2. ws_bound. lia. }
    destruct (strip_prefix (js "null") (c :: rest)) as [r3|] eqn:E3;
      [|discriminate].
    intros [= _ <-]. apply strip_prefix_length in E3. ws_bound. lia.
  - intros s acc v r. rewrite parse_elements_step.
    destruct (parse_value f s) as [[v1 rest]|] eqn:Ev; [|discriminate].
    apply IHv in Ev.
    destruct (skip_ws rest) as [|c rest'] eqn:E; [discriminate|].
    destruct (N.eqb c 44).
    + intros H. apply IHe in H. ws_bound. lia.
    + destruct (N.eqb c 93); [|discriminate].
      intros [= _ <-]. ws_bound. lia.
  - intros s acc v r. rewrite parse_members_unfold.
    destruct (skip_ws s) as [|q rest] eqn:E; [discriminate|].
    destruct (negb (N.eqb q 34)); [discriminate|].
    destruct (parse_string_chars rest []) as [[key rest1]|] eqn:Es;
      [|discriminate].
    apply parse_string_chars_shrinks in Es.
    destruct (skip_ws rest1) as [|colon rest2] eqn:E1; [discriminate|].
    destruct (negb (N.eqb colon 58)); [discriminate|].
    destruct (parse_value f rest2) as [[v1 rest3]|] eqn:Ev; [|discriminate].
    apply IHv in Ev.
    destruct (skip_ws rest3) as [|c rest4] eqn:E3; [discriminate|].
    destruct (N.eqb c 44).
    + intros H. apply IHm in H. ws_bound. lia.
    + destruct (N.eqb c 125); [|discriminate].
      intros [= _ <-]. ws_bound. lia.
Qed.

Lemma fuel_settles (s : jsstring) : settled_fuel s.
Proof.
  induction s as [s IH] using (well_founded_induction
                                 (Wf_nat.well_founded_ltof _ (@List.length N))).
  unfold Wf_nat.ltof in IH.
  assert (Hv : forall f f', 2 * List.length s + 1 <= f -> f <= f' ->
                            parse_value f' s = parse_value f s).
  { intros f f' Hf Hf'. destruct f as [|g]; [lia|].
    destruct f' as [|g']; [lia|]. rewrite !parse_value_step.
    destruct (skip_ws s) as [|c rest] eqn:E; [reflexivity|].
    pose proof (skip_ws_length s) as Hws. rewrite E in Hws. simpl in Hws.
    destruct (N.eqb c 123).
    { destruct (skip_ws rest) as [|c' rest']; [reflexivity|].
      destruct (N.eqb c' 125); [reflexivity|].
      destruct (IH rest) as [_ [_ Hm]]; [lia|]. apply Hm; lia. }
    destruct (N.eqb c 91); [|reflexivity].
    destruct (skip_ws rest) as [|c' rest']; [reflexivity|].
    destruct (N.eqb c' 93); [reflexivity|].
    destruct (IH rest) as [_ [He _]]; [lia|]. apply He; lia. }
  split; [exact Hv|]. split.
  - intros f f' acc Hf Hf'. destruct f as [|g]; [lia|].
    destruct f' as [|g']; [lia|]. rewrite !parse_elements_step.
    rewrite (Hv g g') by lia.
    destruct (parse_value g s) as [[v rest]|] eqn:Ev; [|reflexivity].
    apply (proj1 (parsers_shrink g)) in Ev.
    destruct (skip_ws rest) as [|c rest'] eqn:E; [reflexivity|].
    pose proof (skip_ws_length rest) as Hws. rewrite E in Hws. simpl in Hws.
    destruct (N.eqb c 44); [|reflexivity].
    destruct (IH rest') as [_ [He _]]; [lia|]. apply He; lia.
  - intros f f' acc Hf Hf'. destruct f as [|g]; [lia|].
    destruct f' as [|g']; [lia|]. rewrite !parse_members_unfold.
    destruct (skip_ws s) as [|q rest] eqn:E; [reflexivity|].
    pose proof (skip_ws_length s) as Hws. rewrite E in Hws. simpl in Hws.
    destruct (negb (N.eqb q 34)); [reflexivity|].
    destruct (parse_string_chars rest []) as [[key rest1]|] eqn:Es;
      [|reflexivity].
    apply parse_string_chars_shrinks in Es.
    destruct (skip_ws rest1) as [|colon rest2] eqn:E1; [reflexivity|].
    pose proof (skip_ws_length rest1) as Hws1. rewrite E1 in Hws1.
    simpl in Hws1.
    destruct (negb (N.eqb colon 58)); [reflexivity|].
    destruct (IH rest2) as [Hv2 _]; [lia|]. rewrite (Hv2 g g') by lia.
    destruct (parse_value g rest2) as [[v rest3]|] eqn:Ev; [|reflexivity].
    apply (proj1 (parsers_shrink g)) in Ev.
    destruct (skip_ws rest3) as [|c rest4] eqn:E3; [reflexivity|].
    pose proof (skip_ws_length rest3) as Hws3. rewrite E3 in Hws3.
    simpl in Hws3.
    destruct (N.eqb c 44); [|reflexivity].
    destruct (IH rest4) as [_ [_ Hm]]; [lia|]. apply Hm; lia.
Qed.

(** The fuel of [JSON_parse] is enough: more fuel gives the same
    answer. *)
Lemma JSON_parse_fuel (text : jsstring) (fuel : nat) :
  2 * List.length text + 2 <= fuel ->
  parse_value fuel text = parse_value (2 * List.length text + 2) text.
Proof.
  intros H. apply (proj1 (fuel_settles text)); lia.
Qed.

End Fuel.

(** * More of the store *)

(** ** What a call leaves alone *)

Lemma map_chat_absent (i : jsstring) (f : Chat.t -> Chat.t) (s : State) :
  (forall chat, In chat (chats s) -> Chat.id chat <> i) ->
  map_chat i f s = s.
Proof.
  intros H. destruct s as [cs cur am lm ae]. unfold map_chat, with_chats.
  cbn [chats currentChatId availableModels loadingModels apiError] in *.
  f_equal. induction cs as [|c cs IH]; [reflexivity|]. cbn [map].
  assert (Hc : str_eqb (Chat.id c) i = false)
    by (apply str_eqb_neq, H; now left).
  rewrite Hc, IH; [reflexivity|]. intros chat Hin. apply H. now right.
Qed.

Lemma map_chat_commute (i j : jsstring) (f g : Chat.t -> Chat.t) (s : State) :
  i <> j ->
  (forall chat, Chat.id (f chat) = Chat.id chat) ->
  (forall chat, Chat.id (g chat) = Chat.id chat) ->
  map_chat i f (map_chat j g s) = map_chat j g (map_chat i f s).
Proof.
  intros Hij Hf Hg. unfold map_chat, with_chats.
  cbn [chats currentChatId availableModels loadingModels apiError].
  f_equal. rewrite !map_map. apply map_ext. intros chat.
  destruct (str_eqb (Chat.id chat) i) eqn:Ei;
    destruct (str_eqb (Chat.id chat) j) eqn:Ej;
    rewrite ?Hf, ?Hg, ?Ei, ?Ej; try reflexivity.
  apply str_eqb_eq in Ei, Ej. congruence.
Qed.

Lemma perform_chat_update (c : Call) (e : Effect) (s : State) :
  perform c e s = map_chat (chatId c) (chat_update c e) s.
Proof. destruct e; cbn [perform chat_update]; try reflexivity;
  now rewrite map_chat_same. Qed.

Lemma chat_update_header (c : Call) (e : Effect) (chat : Chat.t) :
  chat_header (chat_update c e chat) = chat_header chat.
Proof. now destruct e. Qed.

Lemma chat_update_id (c : Call) (e : Effect) (chat : Chat.t) :
  Chat.id (chat_update c e chat) = Chat.id chat.
Proof. now destruct e. Qed.

Lemma rest_kept_refl (i : jsstring) (s : State) : rest_kept i s s.
Proof. unfold rest_kept. auto 10. Qed.

Lemma rest_kept_trans (i : jsstring) (s1 s2 s3 : State) :
  rest_kept i s1 s2 -> rest_kept i s2 s3 -> rest_kept i s1 s3.
Proof.
  intros (A1 & A2 & A3 & A4 & A5 & A6) (B1 & B2 & B3 & B4 & B5 & B6).
  unfold rest_kept. repeat split; try congruence.
  intros n chat Hn Hid. apply B6; [|assumption]. now apply A6.
Qed.

Lemma rest_kept_map_chat (i : jsstring) (f : Chat.t -> Chat.t) (s : State) :
  (forall chat, chat_header (f chat) = chat_header chat) ->
  rest_kept i s (map_chat i f s).
Proof.
  intros Hf. unfold rest_kept, map_chat, with_chats.
  cbn [chats currentChatId availableModels loadingModels apiError].
  repeat split.
  - rewrite map_map. apply map_ext. intros chat.
    now destruct (str_eqb (Chat.id chat) i).
  - intros n chat Hn Hid. rewrite nth_error_map, Hn. cbn [option_map].
    apply str_eqb_neq in Hid. now rewrite Hid.
Qed.

Lemma rest_kept_perform_all (c : Call) (es : list Effect) :
  forall s, rest_kept (chatId c) s (perform_all c es s).
Proof.
  induction es as [|e es IH]; intros s.
  - apply rest_kept_refl.
  - change (perform_all c (e :: es) s)
      with (perform_all c es (perform c e s)).
    eapply rest_kept_trans; [|apply IH].
    rewrite perform_chat_update. apply rest_kept_map_chat.
    intros chat. apply chat_update_header.
Qed.

Section Frame.
Context {rt : Runtime}.

(** X5: whatever the events of the network, a call of [sendMessage]
    writes two things only: [tokenSpeed], through the debounced
    [updateSpeed] (a field the model leaves out and of which nothing is
    said here), and the messages of the chats with its id.  The pointer
    to the current chat, the models, the loading flag and the error are
    the ones before the call; the list of chats has the same length and
    order and every chat keeps its id, title, model and date; a chat
    with another id is the same object as before.  This holds when the
    call has returned and when it is still under way; a call that
    throws leaves these fields as they were. *)
Theorem sendMessage_keeps_the_rest (s : State)
  (chatId messageText uuid1 uuid2 : jsstring) (events : list NetworkEvent) :
  match sendMessage chatId messageText uuid1 uuid2 events s with
  | Threw _ store => store = s
  | Finished store _ | Pending store _ _ => rest_kept chatId s store
  | Stuck => True
  end.
Proof.
  unfold sendMessage, sendMessage_start.
  destruct (find (fun c => str_eqb (Chat.id c) chatId) (chats s)) as [chat|];
    [|reflexivity].
  destruct (run _ events) as [[t effects]|]; [|exact I].
  cbn [call].
  destruct (phase t);
    apply (rest_kept_perform_all (mkCall chatId _)).
Qed.

End Frame.

(** ** Calls on different chats *)

Lemma perform_commute (c1 c2 : Call) (e1 e2 : Effect) (s : State) :
  chatId c1 <> chatId c2 ->
  perform c1 e1 (perform c2 e2 s) = perform c2 e2 (perform c1 e1 s).
Proof.
  intros H. rewrite !perform_chat_update.
  apply map_chat_commute; [assumption| |]; intros chat; apply chat_update_id.
Qed.

Lemma perform_all_commute_one (c1 c2 : Call) (e1 : Effect) (es2 : list Effect) :
  chatId c1 <> chatId c2 ->
  forall s, perform c1 e1 (perform_all c2 es2 s) =
            perform_all c2 es2 (perform c1 e1 s).
Proof.
  intros H. induction es2 as [|e2 es2 IH]; intros s; [reflexivity|].
  change (perform_all c2 (e2 :: es2) s)
    with (perform_all c2 es2 (perform c2 e2 s)).
  change (perform_all c2 (e2 :: es2) (perform c1 e1 s))
    with (perform_all c2 es2 (perform c2 e2 (perform c1 e1 s))).
  now rewrite IH, perform_commute.
Qed.

(** X11: the updates that two calls on chats with different ids make
    to the chats commute: whatever the two calls write to the messages,
    and in whatever order their pieces run, the chats and the other
    fields of the model are the same in the end.  (Both calls also write
    [tokenSpeed], which the model leaves out; of these writes, which do
    not commute while the two streams are under way, nothing is
    said.) *)
Theorem calls_on_different_chats_commute (c1 c2 : Call)
  (es1 es2 : list Effect) (s : State) :
  chatId c1 <> chatId c2 ->
  perform_all c1 es1 (perform_all c2 es2 s) =
  perform_all c2 es2 (perform_all c1 es1 s).
Proof.
  intros H. revert s. induction es1 as [|e1 es1 IH]; intros s; [reflexivity|].
  change (perform_all c1 (e1 :: es1) (perform_all c2 es2 s))
    with (perform_all c1 es1 (perform c1 e1 (perform_all c2 es2 s))).
  change (perform_all c1 (e1 :: es1) s)
    with (perform_all c1 es1 (perform c1 e1 s)).
  now rewrite perform_all_commute_one, IH.
Qed.

Lemma calls_on_different_chats_commute_on_demo :
  perform_all (mkCall (js "c1") (js "u6"))
    [SetAppend (Message.mk (js "hi") (js "user") (js "u5") None);
     SetAppend (Message.mk [] (js "ai") (js "u6") (Some true));
     SetText (js "Hi")]
    (perform_all (mkCall (js "c2") (js "u4"))
       [SetText (js "Hello"); UpdateSpeedZero; SetFinalize]
       two_chats_state) =
  perform_all (mkCall (js "c2") (js "u4"))
    [SetText (js "Hello"); UpdateSpeedZero; SetFinalize]
    (perform_all (mkCall (js "c1") (js "u6"))
       [SetAppend (Message.mk (js "hi") (js "user") (js "u5") None);
        SetAppend (Message.mk [] (js "ai") (js "u6") (Some true));
        SetText (js "Hi")]
       two_chats_state).
Proof.
  apply calls_on_different_chats_commute. cbn [chatId]. discriminate.
Defined.

(** ** Operations on a chat that is not there *)

(** X13: [addMessage] on an id that no chat carries changes nothing
    and reports nothing (where [sendMessage] throws). *)
Theorem addMessage_unknown_chat (chatId : jsstring) (message : Message.t)
  (s : State) :
  (forall chat, In chat (chats s) -> Chat.id chat <> chatId) ->
  addMessage chatId message s = s.
Proof. intros H. now apply map_chat_absent. Qed.

Lemma addMessage_unknown_chat_on_demo :
  addMessage (js "c2") (Message.mk (js "hi") (js "user") (js "u1") None)
             demo_state = demo_state.
Proof.
  apply addMessage_unknown_chat. intros chat [<-|[]]. discriminate.
Defined.

Lemma perform_all_absent (c : Call) (es : list Effect) (s : State) :
  (forall chat, In chat (chats s) -> Chat.id chat <> chatId c) ->
  perform_all c es s = s.
Proof.
  intros H. induction es as [|e es IH]; [reflexivity|].
  change (perform_all c (e :: es) s) with (perform_all c es (perform c e s)).
  now rewrite perform_chat_update, map_chat_absent.
Qed.

Lemma deleteChat_absent (i : jsstring) (s : State) (chat : Chat.t) :
  In chat (chats (deleteChat i s)) -> Chat.id chat <> i.
Proof.
  unfold deleteChat. cbn [chats]. intros H. apply filter_In in H as [_ H].
  now apply negb_true_iff, str_eqb_neq in H.
Qed.

Section Deleted.
Context {rt : Runtime}.

(** X12: when the chat of a call under way is deleted, the call goes
    on without an error and nothing it does afterwards changes the
    store: the chat does not come back, and no other chat is
    written. *)
Theorem deleted_chat_stays_deleted (w w1 w2 : World) (n : nat) (t : Task)
  (ev : NetworkEvent) :
  nth_error (tasks w) n = Some t ->
  act w (DoDeleteChat (chatId (call t))) = Some w1 ->
  act w1 (Settled n ev) = Some w2 ->
  store w2 = store w1
  /\ forall chat, In chat (chats (store w2)) -> Chat.id chat <> chatId (call t).
Proof.
  intros Hn [= <-]. cbn [act tasks store]. rewrite Hn.
  destruct (resume t ev) as [[t' effects]|]; [|discriminate].
  intros [= <-]. cbn [store].
  rewrite perform_all_absent by (intros chat; apply deleteChat_absent).
  split; [reflexivity|]. intros chat. apply deleteChat_absent.
Qed.

End Deleted.

Lemma deleted_chat_stays_deleted_on_demo :
  store (mkWorld (deleteChat (js "c1") demo_state)
                 [mkTask (mkCall (js "c1") (js "u2")) Returned] 0) =
  store (mkWorld (deleteChat (js "c1") demo_state)
                 [mkTask (mkCall (js "c1") (js "u2")) AwaitingFetch] 0)
  /\ forall chat,
       In chat (chats (store
                  (mkWorld (deleteChat (js "c1") demo_state)
                     [mkTask (mkCall (js "c1") (js "u2")) Returned] 0))) ->
       Chat.id chat <> chatId (call (mkTask (mkCall (js "c1") (js "u2"))
                                            AwaitingFetch)).
Proof.
  apply (deleted_chat_stays_deleted (rt:=example_runtime)
           (mkWorld demo_state
              [mkTask (mkCall (js "c1") (js "u2")) AwaitingFetch] 0)
           _ _ 0 _ (FetchRejected (js "offline"))).
  - reflexivity.
  - reflexivity.
  - reflexivity.
Defined.

(** ** Creating and deleting *)

Lemma filter_unlisted (i : jsstring) (cs : list Chat.t) :
  existsb (fun chat => str_eqb (Chat.id chat) i) cs = false ->
  filter (fun chat => negb (str_eqb (Chat.id chat) i)) cs = cs.
Proof.
  induction cs as [|c cs IH]; cbn [existsb filter]; [reflexivity|].
  intros H. apply orb_false_iff in H as [Hc Hcs].
  rewrite Hc. cbn [negb]. now rewrite IH.
Qed.

(** X14: deleting a chat that was just created under an id no other
    chat carries gives back the list of chats from before; the pointer
    to the current chat does not go back to the chat it pointed to but
    is null. *)
Theorem createChat_then_deleteChat (title model uuid now : jsstring)
  (s : State) :
  model <> [] -> listed uuid s = false ->
  exists s',
    createChat title model uuid now s = inr (uuid, s')
    /\ chats (deleteChat uuid s') = chats s
    /\ currentChatId (deleteChat uuid s') = None.
Proof.
  intros Hmodel Hfresh. unfold createChat.
  destruct model as [|c model]; [congruence|]. cbn [is_empty Chat.id].
  eexists. split; [reflexivity|]. unfold deleteChat.
  cbn [chats currentChatId filter Chat.id]. rewrite !str_eqb_refl.
  cbn [negb]. split; [|reflexivity]. now apply filter_unlisted.
Qed.

Lemma createChat_then_deleteChat_on_demo :
  exists s',
    createChat (js "T") (js "llama3") (js "c2") (js "2024-01-02") demo_state =
    inr (js "c2", s')
    /\ chats (deleteChat (js "c2") s') = chats demo_state
    /\ currentChatId (deleteChat (js "c2") s') = None.
Proof.
  apply createChat_then_deleteChat; [discriminate|reflexivity].
Defined.

(** ** The text of a stream *)

Lemma last_default {A : Type} (l : list A) :
  forall a d d', last (a :: l) d = last (a :: l) d'.
Proof.
  induction l as [|b l IH]; intros a d d'; [reflexivity|].
  change (last (b :: l) d = last (b :: l) d'). apply IH.
Qed.

Lemma last_cons {A : Type} (x : A) (l : list A) (d : A) :
  last (x :: l) d = last l x.
Proof.
  destruct l as [|y l]; [reflexivity|].
  change (last (y :: l) d = last (y :: l) x). apply last_default.
Qed.

Lemma last_running (ds : list jsstring) :
  forall text, last (running text ds) text = text ++ List.concat ds.
Proof.
  induction ds as [|d ds IH]; intros text; cbn [running List.concat].
  - now rewrite app_nil_r.
  - rewrite last_cons, IH. now rewrite app_assoc.
Qed.

Lemma silent_no_append (es : list Effect) :
  forallb silent es = true -> forallb (fun e => negb (appends e)) es = true.
Proof.
  induction es as [|e es IH]; cbn [forallb]; [reflexivity|].
  intros H; apply andb_true_iff in H as [He Hes].
  rewrite (IH Hes). now destruct e.
Qed.

Lemma quiet_silent (es : list Effect) :
  forallb quiet es = true -> forallb silent es = true.
Proof.
  induction es as [|e es IH]; cbn [forallb]; [reflexivity|].
  intros H; apply andb_true_iff in H as [He Hes].
  rewrite (IH Hes). now destruct e.
Qed.

(** The placeholder after effects that only write text: its text is
    the last text written. *)
Lemma updates_silent (es : list Effect) :
  forall m,
    forallb silent es = true ->
    updates es m =
    Message.mk (last (written es) (Message.text m)) (Message.sender m)
               (Message.timestamp m) (Message.isStreaming m).
Proof.
  unfold updates.
  induction es as [|e es IH]; intros m H; cbn [fold_left].
  - now destruct m.
  - cbn [forallb] in H. apply andb_true_iff in H as [He Hes].
    rewrite (IH _ Hes).
    destruct e; try discriminate; cbn [message_update written flat_map app];
      try reflexivity.
    fold (written es). now rewrite last_cons.
Qed.

Lemma concat_deltas (ls : list jsstring) :
  List.concat (deltas ls) = flat_map delta_of ls.
Proof.
  induction ls as [|l ls IH]; [reflexivity|].
  rewrite deltas_cons, concat_app, IH. cbn [flat_map]. f_equal.
  unfold deltas, parse, delta_of, message_content. cbn [flat_map].
  destruct (JSON_parse l) as [[|b|lit|str|es|members]|]; try reflexivity.
  destruct (lookup (js "message") members) as [[|b|lit|str|es|inner]|];
    try reflexivity.
  destruct (lookup (js "content") inner) as [[|b|lit|str|es|ms]|];
    try reflexivity.
  cbn. now rewrite !app_nil_r.
Qed.

Lemma bytes_read_last (values : list (option (list byte)))
  (value : option (list byte)) :
  bytes_read (values ++ [value]) =
  bytes_read values ++ match value with Some bytes => bytes | None => [] end.
Proof.
  unfold bytes_read. rewrite flat_map_app. cbn [flat_map].
  now rewrite app_nil_r.
Qed.

Section StreamText.
Context {rt : Runtime}.

Lemma flush_writes_nothing (r : Reader) :
  written (snd (flush_buffer r)) = [].
Proof.
  unfold flush_buffer.
  destruct (is_empty (trim (buffer r))); [reflexivity|].
  destruct (JSON_parse (buffer r)) as [parsed|]; [|reflexivity].
  destruct (message_content parsed) as [content|]; [|reflexivity].
  destruct (ToBoolean content); [|reflexivity].
  destruct content as [v|]; [|reflexivity].
  destruct (appended_text v); reflexivity.
Qed.

(** The texts written while the bytes of a stream are read are the
    running concatenations of the texts of its complete lines. *)
Lemma feed_written (bytes : list byte) :
  forallb textual (complete_lines bytes) = true ->
  forallb quiet (snd (feed bytes new_reader)) = true
  /\ last (written (snd (feed bytes new_reader))) [] =
     flat_map delta_of (complete_lines bytes).
Proof.
  intros Htextual. split; [apply feed_quiet|].
  rewrite feed_by_lines. cbn [snd new_reader buffer decoder progress app].
  fold (complete_lines bytes).
  destruct (@handle_textual _ (complete_lines bytes)
              (mkProgress [] (number_of_nat 0)) Htextual) as [_ Hw].
  rewrite Hw. cbn [aiText].
  rewrite (last_running _ []). cbn [app].
  now rewrite concat_nonempty, concat_deltas.
Qed.

(** A stream that ends, read to its end. *)
Lemma run_stream_ends (c : Call) (values : list (option (list byte)))
  (value : option (list byte)) :
  run (mkTask c AwaitingFetch) (events_of (Streamed values (StreamEnds value))) =
  Some (mkTask c Returned,
        snd (feed (bytes_read (values ++ [value])) new_reader)
        ++ snd (flush_buffer
                  (fst (feed (bytes_read (values ++ [value])) new_reader)))
        ++ on_completion).
Proof.
  cbn [events_of run]. unfold resume at 1. cbn [phase call negb].
  fold (reads values). fold new_reader.
  rewrite run_app, (run_reads c values new_reader) by reflexivity.
  rewrite bytes_read_last, feed_app. cbn [run fst snd app].
  unfold resume. cbn [phase call].
  destruct value as [bytes|].
  - destruct (feed bytes (fst (feed (bytes_read values) new_reader)))
      as [r2 e2]. cbn [fst snd].
    destruct (flush_buffer r2) as [p logged]. cbn [snd].
    now rewrite !app_nil_r, <- !app_assoc.
  - rewrite (feed_nil _ (feed_settled (bytes_read values) new_reader)).
    cbn [fst snd].
    destruct (flush_buffer (fst (feed (bytes_read values) new_reader)))
      as [p logged]. cbn [snd app].
    now rewrite !app_nil_r.
Qed.

(** A stream under way: the response has arrived and some chunks have
    been read. *)
Lemma run_stream_begins (c : Call) (values : list (option (list byte))) :
  run (mkTask c AwaitingFetch) (FetchResolved true true :: reads values) =
  Some (mkTask c (AwaitingRead (fst (feed (bytes_read values) new_reader))),
        snd (feed (bytes_read values) new_reader)).
Proof.
  cbn [run]. unfold resume at 1. cbn [phase call negb]. fold new_reader.
  now rewrite (run_reads c values new_reader) by reflexivity.
Qed.

(** X7: when the stream of a call on an existing chat ends, in
    whatever chunks its bytes arrived, and its complete lines are lines
    of the protocol, the call finishes and the last message of the chat
    is the placeholder with [isStreaming] false and with the texts of
    the complete non-blank lines, in order, as its text.  What follows
    the last newline of the stream is not part of it. *)
Theorem stream_text_is_concatenation (s : State)
  (chatId messageText uuid1 uuid2 : jsstring)
  (values : list (option (list byte))) (value : option (list byte)) :
  (exists chat, In chat (chats s) /\ Chat.id chat = chatId) ->
  forallb textual (complete_lines (bytes_read (values ++ [value]))) = true ->
  exists store effects,
    sendMessage chatId messageText uuid1 uuid2
                (events_of (Streamed values (StreamEnds value))) s =
    Finished store effects
    /\ (exists chat, In chat (chats store) /\ Chat.id chat = chatId)
    /\ forall chat,
         In chat (chats store) -> Chat.id chat = chatId ->
         exists earlier,
           Chat.messages chat =
           earlier
           ++ [Message.mk
                 (flat_map delta_of
                    (complete_lines (bytes_read (values ++ [value]))))
                 (js "ai") uuid2 (Some false)].
Proof.
  intros Hex Htextual. destruct (@find_chat_some _ _ Hex) as [chat0 Hfind].
  unfold sendMessage, sendMessage_start. rewrite Hfind.
  cbn [Message.timestamp]. rewrite run_stream_ends. cbn [phase call].
  set (bytes := bytes_read (values ++ [value])) in *.
  destruct (feed_written bytes Htextual) as [Hquiet Hlast].
  pose proof (flush_quiet (fst (feed bytes new_reader))) as Hflush.
  pose proof (flush_writes_nothing (fst (feed bytes new_reader))) as Hnone.
  set (read := snd (feed bytes new_reader)) in *.
  set (logged := snd (flush_buffer (fst (feed bytes new_reader)))) in *.
  set (u := Message.mk messageText (js "user") uuid1 None).
  set (a := Message.mk [] (js "ai") uuid2 (Some true)).
  set (c := mkCall chatId uuid2).
  set (before := Fetch (request_of chat0 u messageText)
                 :: read ++ logged ++ [UpdateSpeedZero]).
  assert (Hsilent : forallb silent before = true).
  { subst before. cbn [forallb silent andb].
    now rewrite !forallb_app, (quiet_silent _ Hquiet), (quiet_silent _ Hflush). }
  assert (Hshape :
    [SetAppend u; SetAppend a; Fetch (request_of chat0 u messageText)]
    ++ read ++ logged ++ on_completion =
    [SetAppend u; SetAppend a] ++ before ++ [SetFinalize]).
  { subst before. unfold on_completion. cbn [app].
    now rewrite <- !app_assoc. }
  rewrite Hshape.
  assert (Hno : forallb (fun e => negb (appends e)) (before ++ [SetFinalize])
                = true).
  { now rewrite forallb_app, (silent_no_append _ Hsilent). }
  eexists. eexists. split; [reflexivity|]. split.
  - apply (chat_survives c u a _ s Hno Hex).
  - intros chat' Hin Hid.
    destruct (chat_after_call c u a _ s chat' Hno eq_refl Hin Hid)
      as [chat1 [_ [_ Hms]]].
    eexists. rewrite Hms. f_equal. f_equal.
    rewrite updates_app, (updates_silent before a Hsilent).
    subst before a. cbn [written flat_map app Message.text Message.sender
      Message.timestamp Message.isStreaming].
    fold (written (read ++ logged ++ [UpdateSpeedZero])).
    rewrite !written_app, Hnone. cbn [written flat_map app].
    rewrite app_nil_r, Hlast. reflexivity.
Qed.

(** X8: while the stream of a call is under way (the response has
    arrived and some chunks have been read), the call is suspended, and
    the last message of the chat is the placeholder, still marked as
    streaming, with the texts of the complete non-blank lines read so
    far as its text: a line shows once its newline has arrived. *)
Theorem text_grows_while_streaming (s : State)
  (chatId messageText uuid1 uuid2 : jsstring)
  (values : list (option (list byte))) :
  (exists chat, In chat (chats s) /\ Chat.id chat = chatId) ->
  forallb textual (complete_lines (bytes_read values)) = true ->
  exists store task effects,
    sendMessage chatId messageText uuid1 uuid2
                (FetchResolved true true :: reads values) s =
    Pending store task effects
    /\ (exists chat, In chat (chats store) /\ Chat.id chat = chatId)
    /\ forall chat,
         In chat (chats store) -> Chat.id chat = chatId ->
         exists earlier,
           Chat.messages chat =
           earlier
           ++ [Message.mk (flat_map delta_of (complete_lines (bytes_read values)))
                          (js "ai") uuid2 (Some true)].
Proof.
  intros Hex Htextual. destruct (@find_chat_some _ _ Hex) as [chat0 Hfind].
  unfold sendMessage, sendMessage_start. rewrite Hfind.
  cbn [Message.timestamp]. rewrite run_stream_begins. cbn [phase call].
  set (bytes := bytes_read values) in *.
  destruct (feed_written bytes Htextual) as [Hquiet Hlast].
  set (read := snd (feed bytes new_reader)) in *.
  set (u := Message.mk messageText (js "user") uuid1 None).
  set (a := Message.mk [] (js "ai") uuid2 (Some true)).
  set (c := mkCall chatId uuid2).
  set (before := Fetch (request_of chat0 u messageText) :: read).
  assert (Hsilent : forallb silent before = true).
  { subst before. cbn [forallb silent andb]. apply (quiet_silent _ Hquiet). }
  pose proof (silent_no_append _ Hsilent) as Hno.
  change ([SetAppend u; SetAppend a; Fetch (request_of chat0 u messageText)]
          ++ read)
    with ([SetAppend u; SetAppend a] ++ before).
  eexists. eexists. eexists. split; [reflexivity|]. split.
  - apply (chat_survives c u a _ s Hno Hex).
  - intros chat' Hin Hid.
    destruct (chat_after_call c u a _ s chat' Hno eq_refl Hin Hid)
      as [chat1 [_ [_ Hms]]].
    eexists. rewrite Hms. f_equal. f_equal.
    rewrite (updates_silent before a Hsilent).
    subst before a. cbn [written flat_map app Message.text Message.sender
      Message.timestamp Message.isStreaming].
    fold (written read). now rewrite Hlast.
Qed.

End StreamText.

Lemma stream_text_is_concatenation_on_unterminated_stream :
  exists store effects,
    sendMessage (js "c1") (js "hi") (js "uuid-1") (js "uuid-2")
      (events_of (Streamed [Some (firstn 20 unterminated_hello_stream); None]
                           (StreamEnds
                              (Some (skipn 20 unterminated_hello_stream)))))
      demo_state =
    Finished store effects
    /\ (exists chat, In chat (chats store) /\ Chat.id chat = js "c1")
    /\ forall chat,
         In chat (chats store) -> Chat.id chat = js "c1" ->
         exists earlier,
           Chat.messages chat =
           earlier ++ [Message.mk (js "He") (js "ai") (js "uuid-2")
                                  (Some false)].
Proof.
  apply (stream_text_is_concatenation (rt:=example_runtime) demo_state
           (js "c1") (js "hi") (js "uuid-1") (js "uuid-2")
           [Some (firstn 20 unterminated_hello_stream); None]
           (Some (skipn 20 unterminated_hello_stream))).
  - exact demo_chat_exists.
  - vm_compute. reflexivity.
Defined.

Lemma text_grows_while_streaming_on_demo :
  exists store task effects,
    sendMessage (js "c1") (js "hi") (js "uuid-1") (js "uuid-2")
      (FetchResolved true true
       :: reads [Some (firstn 20 hello_stream);
                 Some (firstn 20 (skipn 20 hello_stream))])
      demo_state =
    Pending store task effects
    /\ (exists chat, In chat (chats store) /\ Chat.id chat = js "c1")
    /\ forall chat,
         In chat (chats store) -> Chat.id chat = js "c1" ->
         exists earlier,
           Chat.messages chat =
           earlier ++ [Message.mk (js "He") (js "ai") (js "uuid-2")
                                  (Some true)].
Proof.
  apply (text_grows_while_streaming (rt:=example_runtime) demo_state
           (js "c1") (js "hi") (js "uuid-1") (js "uuid-2")
           [Some (firstn 20 hello_stream);
            Some (firstn 20 (skipn 20 hello_stream))]).
  - exact demo_chat_exists.
  - vm_compute. reflexivity.
Defined.

(** ** The chat after a call *)

Lemma updates_sender (es : list Effect) :
  forall m, Message.sender (updates es m) = Message.sender m.
Proof.
  unfold updates. induction es as [|e es IH]; intros m; cbn [fold_left];
    [reflexivity|].
  rewrite IH. now destruct e.
Qed.

Lemma updates_then_finalize (es : list Effect) (m : Message.t) :
  updates (es ++ [SetFinalize]) m =
  Message.mk (Message.text (updates es m)) (Message.sender m)
             (Message.timestamp m) (Some false).
Proof.
  rewrite updates_app. unfold updates at 1. cbn [fold_left message_update].
  unfold with_isStreaming. now rewrite updates_sender, updates_timestamp.
Qed.

Lemma map_unless_fresh (ts : jsstring) (g : Message.t -> Message.t)
  (ms : list Message.t) :
  (forall m, In m ms -> Message.timestamp m <> ts) ->
  map (fun m => if str_eqb (Message.timestamp m) ts then g m else m) ms = ms.
Proof.
  intros H. induction ms as [|m ms IH]; [reflexivity|]. cbn [map].
  assert (Hm : str_eqb (Message.timestamp m) ts = false)
    by (apply str_eqb_neq, H; now left).
  rewrite Hm, IH; [reflexivity|]. intros m' Hin. apply H. now right.
Qed.

(** The chats after a call that has appended [u] and [a] and performed
    [effects], chat by chat. *)
Lemma store_after_call (i ts : jsstring) (u a : Message.t)
  (effects : list Effect) (s : State) :
  forallb (fun e => negb (appends e)) effects = true ->
  Message.timestamp a = ts ->
  chats (perform_all (mkCall i ts) ([SetAppend u; SetAppend a] ++ effects) s) =
  map (fun chat =>
         if str_eqb (Chat.id chat) i
         then with_messages
                (map (fun m => if str_eqb (Message.timestamp m) ts
                               then updates effects m else m)
                     (Chat.messages chat ++ [u])
                 ++ [updates effects a]) chat
         else chat)
      (chats s).
Proof.
  intros Hno Hts. rewrite (perform_start _ _ _ _ _ Hno).
  unfold on_placeholder, addMessage, map_chat, with_chats.
  cbn [chats chatId aiTimestamp]. rewrite !map_map. apply map_ext.
  intros chat.
  destruct (str_eqb (Chat.id chat) i) eqn:E.
  - cbn [with_messages Chat.id]. rewrite E. cbn [with_messages Chat.id].
    rewrite E. unfold map_message, with_messages.
    cbn [Chat.id Chat.title Chat.model Chat.messages Chat.createdAt].
    f_equal. rewrite map_app. cbn [map]. now rewrite Hts, str_eqb_refl.
  - now rewrite E, E.
Qed.

Lemma find_map_chats (i : jsstring) (F : Chat.t -> Chat.t) (cs : list Chat.t) :
  (forall chat, Chat.id (F chat) = Chat.id chat) ->
  find (fun c => str_eqb (Chat.id c) i) (map F cs) =
  option_map F (find (fun c => str_eqb (Chat.id c) i) cs).
Proof.
  intros HF. induction cs as [|c cs IH]; [reflexivity|]. cbn [map find].
  rewrite HF. now destruct (str_eqb (Chat.id c) i).
Qed.

Lemma found_chat (i : jsstring) (cs : list Chat.t) (chat : Chat.t) :
  find (fun c => str_eqb (Chat.id c) i) cs = Some chat ->
  In chat cs /\ Chat.id chat = i.
Proof.
  intros H. apply find_some in H as [Hin Hid]. split; [assumption|].
  now apply str_eqb_eq.
Qed.

Lemma startsWith_app (prefix rest : jsstring) :
  startsWith prefix (prefix ++ rest) = true.
Proof.
  induction prefix as [|p prefix IH]; [now destruct rest|].
  cbn [app startsWith]. now rewrite N.eqb_refl, IH.
Qed.

Section AfterCall.
Context {rt : Runtime}.

(** The placeholder after a request that failed. *)
Lemma placeholder_after_failure (c : Call) (net : Network)
  (message : jsstring) (request : Request.t) (a : Message.t) :
  failure_of net = Some message ->
  exists effects,
    run (mkTask c AwaitingFetch) (events_of net) =
    Some (mkTask c Returned, effects ++ [SetFinalize])
    /\ forallb calm effects = true
    /\ Message.text (updates (Fetch request :: effects) a) =
       js "Error: " ++ message.
Proof.
  intros Hfail.
  destruct (run_failure c net message Hfail) as [before [Hrun Hquiet]].
  exists (before ++ [SetError message; UpdateSpeedZero]). split; [|split].
  - rewrite Hrun. unfold on_error. now rewrite <- app_assoc.
  - now rewrite forallb_app, (quiet_calm _ Hquiet).
  - change (Fetch request :: before ++ [SetError message; UpdateSpeedZero])
      with ((Fetch request :: before) ++ [SetError message; UpdateSpeedZero]).
    now rewrite updates_app.
Qed.

(** X6: a call of [sendMessage] on an existing chat, when neither
    of the two new ids is the timestamp of a message of the chat and
    the two differ, adds exactly two messages at the end of every chat
    with the id, however the request goes: the user's message with the
    text given, and the answer, from the assistant and no longer marked
    as streaming.  The earlier messages are the ones before the call, in
    the same order, and the chat stays at its place in the list. *)
Theorem sendMessage_appends_two (s : State)
  (chatId messageText uuid1 uuid2 : jsstring) (net : Network) :
  (exists chat, In chat (chats s) /\ Chat.id chat = chatId) ->
  (forall chat m,
      In chat (chats s) -> Chat.id chat = chatId ->
      In m (Chat.messages chat) -> Message.timestamp m <> uuid2) ->
  uuid1 <> uuid2 ->
  exists store effects answer,
    sendMessage chatId messageText uuid1 uuid2 (events_of net) s =
    Finished store effects
    /\ (forall message,
          failure_of net = Some message -> answer = js "Error: " ++ message)
    /\ forall n chat,
         nth_error (chats s) n = Some chat -> Chat.id chat = chatId ->
         nth_error (chats store) n =
         Some (with_messages
                 (Chat.messages chat
                  ++ [Message.mk messageText (js "user") uuid1 None;
                      Message.mk answer (js "ai") uuid2 (Some false)])
                 chat).
Proof.
  intros Hex Hfresh Hdiff. destruct (@find_chat_some _ _ Hex) as [chat0 Hfind].
  destruct (run_network (mkCall chatId uuid2) net) as [before [Hrun Hcalm]].
  set (u := Message.mk messageText (js "user") uuid1 None) in *.
  set (a := Message.mk [] (js "ai") uuid2 (Some true)) in *.
  set (f := Fetch (request_of chat0 u messageText)) in *.
  exists (perform_all (mkCall chatId uuid2)
            ([SetAppend u; SetAppend a] ++ f :: before ++ [SetFinalize]) s).
  exists ([SetAppend u; SetAppend a] ++ f :: before ++ [SetFinalize]).
  exists (Message.text (updates (f :: before) a)).
  split; [|split].
  - unfold sendMessage, sendMessage_start. rewrite Hfind.
    cbn [Message.timestamp]. now rewrite Hrun.
  - intros message Hfail.
    destruct (placeholder_after_failure (mkCall chatId uuid2) net message
                (request_of chat0 u messageText) a Hfail)
      as [effects [Hrun' [_ Htext]]].
    rewrite Hrun in Hrun'.
    assert (E : before ++ [SetFinalize] = effects ++ [SetFinalize])
      by congruence.
    apply app_inj_tail in E as [-> _]. exact Htext.
  - intros n chat Hn Hid.
    assert (Hno : forallb (fun e => negb (appends e))
                          (f :: before ++ [SetFinalize]) = true).
    { cbn [forallb appends negb andb].
      now rewrite forallb_app, (calm_no_append _ Hcalm). }
    rewrite (store_after_call chatId uuid2 u a _ s Hno eq_refl),
      nth_error_map, Hn.
    cbn [option_map].
    apply str_eqb_eq in Hid as Hid'. rewrite Hid'. f_equal. f_equal.
    rewrite map_app, map_unless_fresh.
    + cbn [map u Message.timestamp].
      apply str_eqb_neq in Hdiff. rewrite Hdiff.
      rewrite <- app_assoc. cbn [app]. f_equal. f_equal. f_equal.
      change (f :: before ++ [SetFinalize])
        with ((f :: before) ++ [SetFinalize]).
      now rewrite updates_then_finalize.
    + intros m Hm. apply (Hfresh chat m); [|assumption|assumption].
      eapply nth_error_In. exact Hn.
Qed.

(** X18: a request that fails is shown as an error.  After a call on
    an existing chat whose request fails, the last message of the chat
    passes the test by which [MemoizedMessage] shows an error notice in
    place of Markdown, and it is not marked as streaming; a message of
    the user never passes the test, whatever its text. *)
Theorem failure_is_shown_as_error (s : State)
  (chatId messageText uuid1 uuid2 message : jsstring) (net : Network) :
  (exists chat, In chat (chats s) /\ Chat.id chat = chatId) ->
  failure_of net = Some message ->
  (exists store effects,
      sendMessage chatId messageText uuid1 uuid2 (events_of net) s =
      Finished store effects
      /\ forall chat,
           In chat (chats store) -> Chat.id chat = chatId ->
           exists earlier answer,
             Chat.messages chat = earlier ++ [answer]
             /\ shows_error answer = true
             /\ streaming answer = false)
  /\ forall msg, Message.sender msg = js "user" -> shows_error msg = false.
Proof.
  intros Hex Hfail. split.
  - destruct (@find_chat_some _ _ Hex) as [chat0 Hfind].
    unfold sendMessage, sendMessage_start. rewrite Hfind.
    cbn [Message.timestamp].
    set (u := Message.mk messageText (js "user") uuid1 None).
    set (a := Message.mk [] (js "ai") uuid2 (Some true)).
    set (c := mkCall chatId uuid2).
    destruct (placeholder_after_failure c net message
                (request_of chat0 u messageText) a Hfail)
      as [effects [Hrun [Hcalm Htext]]].
    rewrite Hrun. cbn [phase call].
    set (f := Fetch (request_of chat0 u messageText)) in *.
    assert (Hno : forallb (fun e => negb (appends e))
                          (f :: effects ++ [SetFinalize]) = true).
    { cbn [forallb appends negb andb].
      now rewrite forallb_app, (calm_no_append _ Hcalm). }
    eexists. eexists. split; [reflexivity|].
    intros chat' Hin Hid.
    change ([SetAppend u; SetAppend a; f] ++ effects ++ [SetFinalize])
      with ([SetAppend u; SetAppend a] ++ f :: effects ++ [SetFinalize]) in Hin.
    destruct (chat_after_call c u a _ s chat' Hno eq_refl Hin Hid)
      as [chat1 [_ [_ Hms]]].
    eexists. eexists. split; [exact Hms|].
    change (f :: effects ++ [SetFinalize])
      with ((f :: effects) ++ [SetFinalize]).
    rewrite updates_then_finalize, Htext. unfold shows_error, streaming.
    cbn [Message.sender Message.text Message.isStreaming a].
    now rewrite startsWith_app.
  - intros msg Hsender. unfold shows_error. now rewrite Hsender.
Qed.

(** X10: the next request replays the exchange.  When a call on a
    chat has returned and a second call is started on the chat (the ids
    being new), the request of the second call carries the turns of the
    earlier messages, the first text as a turn of the user, the answer
    of the first call as a turn of the assistant, and the second text.
    When the first request failed, the text "Error: ..." that took the
    place of the answer is sent to the model as if the assistant had
    said it. *)
Theorem next_request_replays_the_exchange (s : State)
  (chatId text1 text2 uuid1 uuid2 uuid3 uuid4 : jsstring) (net : Network)
  (chat : Chat.t) :
  find (fun c => str_eqb (Chat.id c) chatId) (chats s) = Some chat ->
  (forall m, In m (Chat.messages chat) ->
             Message.timestamp m <> uuid2 /\ Message.timestamp m <> uuid3) ->
  uuid1 <> uuid2 -> uuid1 <> uuid3 -> uuid2 <> uuid3 ->
  exists store effects answer,
    sendMessage chatId text1 uuid1 uuid2 (events_of net) s =
    Finished store effects
    /\ (forall message,
          failure_of net = Some message -> answer = js "Error: " ++ message)
    /\ exists t request,
         sendMessage_start chatId text2 uuid3 uuid4 store =
         inr (t, [SetAppend (Message.mk text2 (js "user") uuid3 None);
                  SetAppend (Message.mk [] (js "ai") uuid4 (Some true));
                  Fetch request])
         /\ Request.model request = Chat.model chat
         /\ Request.messages request =
            map turn_of (Chat.messages chat)
            ++ [Request.mkTurn (js "user") text1;
                Request.mkTurn (js "assistant") answer;
                Request.mkTurn (js "user") text2].
Proof.
  intros Hfind Hfresh H12 H13 H23.
  destruct (run_network (mkCall chatId uuid2) net) as [before [Hrun Hcalm]].
  set (u := Message.mk text1 (js "user") uuid1 None) in *.
  set (a := Message.mk [] (js "ai") uuid2 (Some true)) in *.
  set (f := Fetch (request_of chat u text1)) in *.
  exists (perform_all (mkCall chatId uuid2)
            ([SetAppend u; SetAppend a] ++ f :: before ++ [SetFinalize]) s).
  exists ([SetAppend u; SetAppend a] ++ f :: before ++ [SetFinalize]).
  exists (Message.text (updates (f :: before) a)).
  split; [|split].
  - unfold sendMessage, sendMessage_start. rewrite Hfind.
    cbn [Message.timestamp]. now rewrite Hrun.
  - intros message Hfail.
    destruct (placeholder_after_failure (mkCall chatId uuid2) net message
                (request_of chat u text1) a Hfail)
      as [effects [Hrun' [_ Htext]]].
    rewrite Hrun in Hrun'.
    assert (E : before ++ [SetFinalize] = effects ++ [SetFinalize])
      by congruence.
    apply app_inj_tail in E as [-> _]. exact Htext.
  - assert (Hno : forallb (fun e => negb (appends e))
                          (f :: before ++ [SetFinalize]) = true).
    { cbn [forallb appends negb andb].
      now rewrite forallb_app, (calm_no_append _ Hcalm). }
    unfold sendMessage_start.
    rewrite (store_after_call chatId uuid2 u a _ s Hno eq_refl).
    rewrite find_map_chats, Hfind
      by (intros x; now destruct (str_eqb (Chat.id x) _)).
    cbn [option_map].
    destruct (found_chat _ _ _ Hfind) as [_ Hid].
    apply str_eqb_eq in Hid. rewrite Hid.
    eexists. eexists. split; [reflexivity|].
    split; [reflexivity|].
    unfold request_of.
    cbn [Request.messages with_messages Chat.messages Message.timestamp].
    rewrite map_app, map_unless_fresh
      by (intros m Hm; apply (Hfresh m Hm)).
    cbn [map u Message.timestamp].
    apply str_eqb_neq in H12 as E12. rewrite E12.
    change (f :: before ++ [SetFinalize])
      with ((f :: before) ++ [SetFinalize]).
    rewrite updates_then_finalize. cbn [a Message.sender Message.timestamp].
    rewrite <- app_assoc. cbn [app].
    rewrite filter_app. cbn [filter Message.timestamp].
    apply str_eqb_neq in H13 as E13. apply str_eqb_neq in H23 as E23.
    change (Message.timestamp u) with uuid1. rewrite E13, E23. cbn [negb].
    rewrite forallb_filter_id.
    + rewrite map_app. cbn [map]. rewrite <- app_assoc. reflexivity.
    + apply forallb_forall. intros m Hm.
      apply negb_true_iff, str_eqb_neq. apply (Hfresh m Hm).
Qed.

End AfterCall.

Lemma history_chat_exists :
  exists chat, In chat (chats history_state) /\ Chat.id chat = js "c1".
Proof. exists earlier_chat. split; [now left|reflexivity]. Defined.

Lemma sendMessage_appends_two_after_history :
  exists store effects answer,
    sendMessage (js "c1") (js "more") (js "t3") (js "t4")
                (events_of (Unreachable (js "offline"))) history_state =
    Finished store effects
    /\ (forall message,
          failure_of (Unreachable (js "offline")) = Some message ->
          answer = js "Error: " ++ message)
    /\ forall n chat,
         nth_error (chats history_state) n = Some chat ->
         Chat.id chat = js "c1" ->
         nth_error (chats store) n =
         Some (with_messages
                 (Chat.messages chat
                  ++ [Message.mk (js "more") (js "user") (js "t3") None;
                      Message.mk answer (js "ai") (js "t4") (Some false)])
                 chat).
Proof.
  apply (sendMessage_appends_two (rt:=example_runtime)).
  - exact history_chat_exists.
  - intros chat m [<-|[]] _ [<-|[<-|[]]]; discriminate.
  - discriminate.
Defined.

Lemma failure_is_shown_as_error_when_offline :
  (exists store effects,
      sendMessage (js "c1") (js "hi") (js "uuid-1") (js "uuid-2")
                  (events_of (Unreachable (js "offline"))) demo_state =
      Finished store effects
      /\ forall chat,
           In chat (chats store) -> Chat.id chat = js "c1" ->
           exists earlier answer,
             Chat.messages chat = earlier ++ [answer]
             /\ shows_error answer = true
             /\ streaming answer = false)
  /\ forall msg, Message.sender msg = js "user" -> shows_error msg = false.
Proof.
  apply (failure_is_shown_as_error (rt:=example_runtime) demo_state
           (js "c1") (js "hi") (js "uuid-1") (js "uuid-2") (js "offline")).
  - exact demo_chat_exists.
  - reflexivity.
Defined.

Lemma next_request_replays_the_exchange_after_failure :
  exists store effects answer,
    sendMessage (js "c1") (js "more") (js "t3") (js "t4")
                (events_of (BadStatus true)) history_state =
    Finished store effects
    /\ (forall message,
          failure_of (BadStatus true) = Some message ->
          answer = js "Error: " ++ message)
    /\ exists t request,
         sendMessage_start (js "c1") (js "again") (js "t5") (js "t6") store =
         inr (t, [SetAppend (Message.mk (js "again") (js "user") (js "t5") None);
                  SetAppend (Message.mk [] (js "ai") (js "t6") (Some true));
                  Fetch request])
         /\ Request.model request = Chat.model earlier_chat
         /\ Request.messages request =
            map turn_of (Chat.messages earlier_chat)
            ++ [Request.mkTurn (js "user") (js "more");
                Request.mkTurn (js "assistant") answer;
                Request.mkTurn (js "user") (js "again")].
Proof.
  apply (next_request_replays_the_exchange (rt:=example_runtime)).
  - reflexivity.
  - intros m [<-|[<-|[]]]; split; discriminate.
  - discriminate.
  - discriminate.
  - discriminate.
Defined.

(** ** Invariants of the store *)

Lemma ids_of_headers (cs : list Chat.t) :
  map Chat.id cs = map (fun h => fst (fst (fst h))) (map chat_header cs).
Proof. rewrite map_map. now apply map_ext. Qed.

Lemma rest_kept_ids (i : jsstring) (s store : State) :
  rest_kept i s store -> map Chat.id (chats store) = map Chat.id (chats s).
Proof.
  intros (_ & _ & _ & _ & H & _). now rewrite !ids_of_headers, H.
Qed.

Lemma listed_ids (i : jsstring) (s : State) :
  listed i s = existsb (fun j => str_eqb j i) (map Chat.id (chats s)).
Proof.
  unfold listed. induction (chats s) as [|c cs IH]; [reflexivity|].
  cbn [existsb map]. now rewrite IH.
Qed.

Lemma listed_In (i : jsstring) (s : State) :
  listed i s = true <-> In i (map Chat.id (chats s)).
Proof.
  rewrite listed_ids, existsb_exists. split.
  - intros [j [Hin Hj]]. apply str_eqb_eq in Hj. now subst.
  - intros Hin. exists i. split; [assumption|apply str_eqb_refl].
Qed.

Lemma rest_kept_addMessage (i : jsstring) (m : Message.t) (s : State) :
  rest_kept i s (addMessage i m s).
Proof. now apply rest_kept_map_chat. Qed.

Lemma deleteChat_ids (i : jsstring) (s : State) :
  map Chat.id (chats (deleteChat i s)) =
  filter (fun j => negb (str_eqb j i)) (map Chat.id (chats s)).
Proof.
  unfold deleteChat. cbn [chats].
  induction (chats s) as [|c cs IH]; [reflexivity|]. cbn [filter map].
  destruct (str_eqb (Chat.id c) i); cbn [negb map]; now rewrite IH.
Qed.

Section Invariants.
Context {rt : Runtime}.

(** What an action does to the fields the invariants speak of. *)
Lemma act_cases (w w' : World) (a : Action) :
  act w a = Some w' ->
  match a with
  | DoFetchModels =>
      chats (store w') = chats (store w)
      /\ currentChatId (store w') = currentChatId (store w)
      /\ modelFetches w' = S (modelFetches w)
  | ModelsSettled _ =>
      chats (store w') = chats (store w)
      /\ currentChatId (store w') = currentChatId (store w)
      /\ loadingModels (store w') = false
  | DoCreateChat title model uuid now =>
      w' = w
      \/ exists chat,
           Chat.id chat = uuid
           /\ chats (store w') = chat :: chats (store w)
           /\ currentChatId (store w') = Some uuid
           /\ loadingModels (store w') = loadingModels (store w)
           /\ modelFetches w' = modelFetches w
  | DoDeleteChat chatId =>
      store w' = deleteChat chatId (store w)
      /\ modelFetches w' = modelFetches w
  | DoSetCurrentChat chatId =>
      chats (store w') = chats (store w)
      /\ currentChatId (store w') = Some chatId
      /\ loadingModels (store w') = loadingModels (store w)
      /\ modelFetches w' = modelFetches w
  | DoSendMessage chatId _ _ _ | DoAddMessage chatId _ =>
      rest_kept chatId (store w) (store w')
      /\ modelFetches w' = modelFetches w
  | Settled _ _ =>
      (exists chatId, rest_kept chatId (store w) (store w'))
      /\ modelFetches w' = modelFetches w
  end.
Proof.
  destruct a as [|outcome|title model uuid now|chatId text u1 u2|n ev
                 |chatId m|chatId|chatId]; cbn [act].
  - intros [= <-]. now cbn.
  - destruct (modelFetches w); [discriminate|]. intros [= <-].
    now destruct outcome.
  - unfold createChat. destruct (is_empty model).
    + intros [= <-]. now left.
    + intros [= <-]. right.
      exists (Chat.mk uuid (if is_empty title then js "New Chat" else title)
                      model [] now).
      cbn. auto 6.
  - destruct (sendMessage_start chatId text u1 u2 (store w))
      as [message|[t effects]] eqn:E.
    + intros [= <-]. split; [apply rest_kept_refl|reflexivity].
    + intros [= <-]. cbn [store modelFetches]. split; [|reflexivity].
      unfold sendMessage_start in E.
      destruct (find _ (chats (store w))); [|discriminate].
      injection E as <- <-. apply (rest_kept_perform_all (mkCall chatId u2)).
  - destruct (nth_error (tasks w) n) as [t|]; [|discriminate].
    destruct (resume t ev) as [[t' effects]|]; [|discriminate].
    intros [= <-]. cbn [store modelFetches]. split; [|reflexivity].
    eexists. apply rest_kept_perform_all.
  - intros [= <-]. split; [apply rest_kept_addMessage|reflexivity].
  - intros [= <-]. now cbn.
  - intros [= <-]. now cbn.
Qed.

(** X15: as long as [uuidv4()] gives [createChat] an id that no chat
    of the store carries, the ids of the chats are pairwise distinct in
    every store that can be reached, whatever the operations and the
    events of the network and in whatever order the calls under way are
    resumed. *)
Theorem chat_ids_stay_distinct (w : World) :
  reachable_by fresh_id w -> NoDup (map Chat.id (chats (store w))).
Proof.
  induction 1 as [|w a w' _ IH Hfresh Hact]; [constructor|].
  pose proof (act_cases w w' a Hact) as Hcases.
  destruct a; cbn [fresh_id] in Hfresh.
  - destruct Hcases as [-> _]. exact IH.
  - destruct Hcases as [-> _]. exact IH.
  - destruct Hcases as [->|[chat (Hid & -> & _)]]; [exact IH|].
    cbn [map]. constructor; [|exact IH]. rewrite Hid.
    intros Hin. apply listed_In in Hin.
    now rewrite Hin in Hfresh.
  - destruct Hcases as [Hkept _]. now rewrite (rest_kept_ids _ _ _ Hkept).
  - destruct Hcases as [[i Hkept] _]. now rewrite (rest_kept_ids _ _ _ Hkept).
  - destruct Hcases as [Hkept _]. now rewrite (rest_kept_ids _ _ _ Hkept).
  - destruct Hcases as [-> _]. rewrite deleteChat_ids.
    now apply NoDup_filter.
  - destruct Hcases as [-> _]. exact IH.
Qed.

(** X16: when [setCurrentChat] is called only as the sidebar calls
    it, with the id of a chat of the store, the pointer to the current
    chat is null or the id of a chat of the store in every store that
    can be reached: [createChat] points it to the new chat, [deleteChat]
    clears it when its chat goes, and no call of [sendMessage] touches
    it or the ids. *)
Theorem current_chat_is_listed (w : World) :
  reachable_by from_sidebar w -> current_chat_listed (store w).
Proof.
  induction 1 as [|w a w' _ IH Hallowed Hact]; [exact I|].
  pose proof (act_cases w w' a Hact) as Hcases.
  unfold current_chat_listed in *.
  assert (Hkept : forall i, rest_kept i (store w) (store w') ->
            match currentChatId (store w') with
            | Some chatId => listed chatId (store w') = true
            | None => True
            end).
  { intros i Hk. pose proof (rest_kept_ids _ _ _ Hk) as Hids.
    destruct Hk as [-> _]. destruct (currentChatId (store w)); [|exact I].
    now rewrite listed_ids, Hids, <- listed_ids. }
  destruct a as [|outcome|title model uuid now|i text u1 u2|n ev|i m|i|i];
    cbn [from_sidebar] in Hallowed.
  - destruct Hcases as (Hc & -> & _).
    destruct (currentChatId (store w)); [|exact I].
    unfold listed in *. now rewrite Hc.
  - destruct Hcases as (Hc & -> & _).
    destruct (currentChatId (store w)); [|exact I].
    unfold listed in *. now rewrite Hc.
  - destruct Hcases as [->|[chat (Hid & Hc & -> & _)]]; [exact IH|].
    unfold listed. rewrite Hc. cbn [existsb].
    now rewrite Hid, str_eqb_refl.
  - destruct Hcases as [Hk _]. exact (Hkept _ Hk).
  - destruct Hcases as [[j Hk] _]. exact (Hkept _ Hk).
  - destruct Hcases as [Hk _]. exact (Hkept _ Hk).
  - destruct Hcases as [-> _]. unfold deleteChat at 1. cbn [currentChatId].
    destruct (currentChatId (store w)) as [cur|]; [|exact I].
    destruct (str_eqb cur i) eqn:E; [exact I|].
    rewrite listed_ids, deleteChat_ids.
    rewrite listed_ids in IH. apply existsb_exists in IH as [j [Hin Hj]].
    apply existsb_exists. exists j. split; [|assumption].
    apply filter_In. split; [assumption|].
    apply str_eqb_eq in Hj. subst j. now rewrite E.
  - destruct Hcases as (Hc & -> & _). unfold listed in *. now rewrite Hc.
Qed.

(** X17: in a session that starts with the loading flag off (with the
    initial state, or with a store that was not saved while models were
    being fetched), the flag is off whenever no call of [fetchModels]
    is under way, however the calls overlap: no operation of the store
    other than [fetchModels] writes the flag, a call sets it when it
    starts, and the [finally] clause of every call clears it.  (A store
    saved in the middle of a fetch is read back with the flag on and no
    call under way; such a start is not covered.) *)
Theorem loading_is_off_when_idle (s0 : State) (w : World) :
  loadingModels s0 = false ->
  reachable s0 w -> modelFetches w = 0 -> loadingModels (store w) = false.
Proof.
  intros Hoff.
  induction 1 as [|w a w' _ IH Hact]; [intros _; exact Hoff|].
  pose proof (act_cases w w' a Hact) as Hcases.
  destruct a.
  - destruct Hcases as (_ & _ & ->). discriminate.
  - now destruct Hcases as (_ & _ & ->).
  - destruct Hcases as [->|[chat (_ & _ & _ & -> & ->)]]; exact IH.
  - destruct Hcases as [(_ & _ & -> & _) ->]. exact IH.
  - destruct Hcases as [[i (_ & _ & -> & _)] ->]. exact IH.
  - destruct Hcases as [(_ & _ & -> & _) ->]. exact IH.
  - destruct Hcases as [-> ->]. exact IH.
  - destruct Hcases as (_ & _ & -> & ->). exact IH.
Qed.

Lemma played_by (allowed : World -> Action -> bool) (actions : list Action) :
  forall w w', reachable_by allowed w ->
               play_by allowed w actions = Some w' ->
               reachable_by allowed w'.
Proof.
  induction actions as [|a rest IH]; intros w w' Hw; cbn [play_by].
  - now intros [= <-].
  - destruct (allowed w a) eqn:D; [|discriminate].
    destruct (act w a) as [w1|] eqn:E; [|discriminate].
    apply IH. eapply by_act; eassumption.
Qed.

End Invariants.

Lemma chat_ids_stay_distinct_on_tour :
  NoDup (map Chat.id (chats (store tour_world))).
Proof.
  apply (chat_ids_stay_distinct (rt:=example_runtime)).
  apply (played_by fresh_id tour initial_world).
  - apply by_initial.
  - vm_compute. reflexivity.
Defined.

Lemma current_chat_is_listed_on_tour :
  current_chat_listed (store tour_world).
Proof.
  apply (current_chat_is_listed (rt:=example_runtime)).
  apply (played_by from_sidebar tour initial_world).
  - apply by_initial.
  - vm_compute. reflexivity.
Defined.

Lemma loading_is_off_when_idle_on_tour :
  loadingModels (store tour_world) = false.
Proof.
  apply (loading_is_off_when_idle (rt:=example_runtime) initial_state).
  - reflexivity.
  - apply (played_reachable initial_state tour initial_world).
    + apply reachable_start.
    + vm_compute. reflexivity.
  - vm_compute. reflexivity.
Defined.

(** ** The forms of the pages *)

(** X19: the form of [Home] never runs into the error of
    [createChat] and never uses its default title.  With a blank input
    or no model selected a submit does nothing; otherwise it creates a
    chat titled with the trimmed input, without messages, puts it in
    front of the others and makes it the current chat, clears the input
    and navigates to the page of the new id, where the lookup of the
    [Chat] page finds the new chat (also when another chat carries the
    same id). *)
Theorem home_submit_opens_the_new_chat (uuid now : jsstring)
  (view : HomePage.t) (s : State) :
  (forall message, handleSubmit uuid now view s <> inl message)
  /\ (is_empty (trim (HomePage.input view)) = true
      \/ HomePage.selectedModel view = [] ->
      handleSubmit uuid now view s = inr (view, None, s))
  /\ (is_empty (trim (HomePage.input view)) = false ->
      HomePage.selectedModel view <> [] ->
      exists s',
        handleSubmit uuid now view s =
        inr (HomePage.mk [] (HomePage.selectedModel view),
             Some (js "/chat/" ++ uuid), s')
        /\ chats s' =
           Chat.mk uuid (trim (HomePage.input view))
                   (HomePage.selectedModel view) [] now :: chats s
        /\ currentChatId s' = Some uuid
        /\ find (fun c => str_eqb (Chat.id c) uuid) (chats s') =
           Some (Chat.mk uuid (trim (HomePage.input view))
                         (HomePage.selectedModel view) [] now)).
Proof.
  unfold handleSubmit, createChat.
  destruct (is_empty (trim (HomePage.input view))) eqn:Einput;
    destruct (HomePage.selectedModel view) as [|c model] eqn:Emodel;
    cbn [orb is_empty]; (split; [discriminate|]);
    (split; [intros [H|H]; try reflexivity; discriminate|]);
    intros H1 H2; try discriminate; try congruence.
  eexists. split; [reflexivity|].
  cbn [chats currentChatId Chat.id find]. rewrite str_eqb_refl. auto.
Qed.

Section ChatForm.
Context {rt : Runtime}.

(** X20: the form of the [Chat] page.  A submit with a blank input,
    while a call from the page is under way, or on a page whose chat is
    not in the store does nothing.  Any other submit calls
    [sendMessage] on the chat of the page with the trimmed input, which
    is not empty; the call does not throw; and however the request
    goes, a failure included, the page is left with an empty input and
    ready to send again. *)
Theorem chat_submit_sends_trimmed_text (id uuid1 uuid2 : jsstring)
  (net : Network) (view : ChatPage.t) (s : State) :
  (is_empty (trim (ChatPage.input view)) = true
   \/ ChatPage.isSending view = true
   \/ (forall chat, In chat (chats s) -> Chat.id chat <> id) ->
   handleSendMessage id uuid1 uuid2 (events_of net) view s = Ignored)
  /\ (is_empty (trim (ChatPage.input view)) = false ->
      ChatPage.isSending view = false ->
      (exists chat, In chat (chats s) /\ Chat.id chat = id) ->
      trim (ChatPage.input view) <> []
      /\ exists store effects,
           handleSendMessage id uuid1 uuid2 (events_of net) view s =
           Sent (ChatPage.mk [] false) (Finished store effects)
           /\ sendMessage id (trim (ChatPage.input view)) uuid1 uuid2
                          (events_of net) s =
              Finished store effects).
Proof.
  unfold handleSendMessage. split.
  - intros [H|[H|H]].
    + now rewrite H.
    + rewrite H. destruct (is_empty _); [reflexivity|].
      now destruct (find _ _).
    + rewrite (find_chat_none _ _ H). now destruct (is_empty _).
  - intros Hinput Hsending Hex. rewrite Hinput, Hsending.
    split; [now destruct (trim (ChatPage.input view))|].
    destruct (find_chat_some _ _ Hex) as [chat Hfind]. rewrite Hfind.
    destruct (found_chat _ _ _ Hfind) as [_ ->].
    destruct (sendMessage_finishes s id (trim (ChatPage.input view))
                uuid1 uuid2 net chat Hfind) as [before [_ Hsend]].
    rewrite Hsend. eexists. eexists. split; reflexivity.
Qed.

End ChatForm.

(** ** Lines that end with a carriage return *)

Lemma skip_ws_cr (s : jsstring) :
  skip_ws (s ++ [13%N]) =
  match skip_ws s with
  | [] => []
  | c :: rest => c :: rest ++ [13%N]
  end.
Proof.
  induction s as [|c s IH]; [reflexivity|]. cbn [app skip_ws].
  destruct (is_json_space c); [exact IH|reflexivity].
Qed.

Lemma parse_string_chars_cr (s : jsstring) :
  forall acc,
    parse_string_chars (s ++ [13%N]) acc = followed (parse_string_chars s acc).
Proof.
  induction s as [s IH] using (well_founded_induction
                                 (Wf_nat.well_founded_ltof _ (@List.length N))).
  unfold Wf_nat.ltof in IH.
  intros acc. destruct s as [|c s]; [reflexivity|].
  cbn [app parse_string_chars].
  destruct (N.eqb c 34); [reflexivity|].
  destruct (N.eqb c 92).
  - destruct s as [|e s]; [reflexivity|]. cbn [app].
    destruct (N.eqb e 117).
    + destruct s as [|h1 [|h2 [|h3 [|h4 s]]]]; try reflexivity.
      * cbn [app]. unfold hex4.
        destruct (hex_value h1); [|reflexivity].
        destruct (hex_value h2); [|reflexivity].
        now destruct (hex_value h3).
      * cbn [app]. destruct (hex4 h1 h2 h3 h4); [|reflexivity].
        apply IH. cbn [List.length]. lia.
    + destruct (escape_value e); [|reflexivity].
      apply IH. cbn [List.length]. lia.
  - destruct (N.ltb c 32); [reflexivity|].
    apply IH. cbn [List.length]. lia.
Qed.

Lemma span_digits_cr (s : jsstring) :
  span_digits (s ++ [13%N]) =
  (fst (span_digits s), snd (span_digits s) ++ [13%N]).
Proof.
  induction s as [|c s IH]; [reflexivity|]. cbn [app span_digits].
  destruct (is_digit c); [|reflexivity].
  rewrite IH. now destruct (span_digits s).
Qed.

Lemma parse_int_part_cr (s : jsstring) :
  parse_int_part (s ++ [13%N]) = followed (parse_int_part s).
Proof.
  destruct s as [|d s]; [reflexivity|]. cbn [app parse_int_part].
  destruct (N.eqb d 48); [reflexivity|].
  destruct (in_range 49 57 d); [|reflexivity].
  rewrite span_digits_cr. now destruct (span_digits s).
Qed.

Lemma parse_frac_part_cr (s : jsstring) :
  parse_frac_part (s ++ [13%N]) = followed (parse_frac_part s).
Proof.
  destruct s as [|c s]; [reflexivity|]. cbn [app parse_frac_part].
  destruct (N.eqb c 46); [|reflexivity].
  rewrite span_digits_cr. now destruct (span_digits s) as [[|d ds] r].
Qed.

Lemma parse_exp_digits_cr (mark s : jsstring) :
  parse_exp_digits mark (s ++ [13%N]) = followed (parse_exp_digits mark s).
Proof.
  unfold parse_exp_digits. rewrite span_digits_cr.
  now destruct (span_digits s) as [[|d ds] r].
Qed.

Lemma parse_exp_part_cr (s : jsstring) :
  parse_exp_part (s ++ [13%N]) = followed (parse_exp_part s).
Proof.
  destruct s as [|e s]; [reflexivity|]. cbn [app parse_exp_part].
  destruct (N.eqb e 101 || N.eqb e 69); [|reflexivity].
  destruct s as [|sg s]; [reflexivity|]. cbn [app].
  destruct (N.eqb sg 43 || N.eqb sg 45).
  - apply parse_exp_digits_cr.
  - apply (parse_exp_digits_cr [e] (sg :: s)).
Qed.

Lemma parse_number_cr (s : jsstring) :
  parse_number (s ++ [13%N]) = followed (parse_number s).
Proof.
  unfold parse_number.
  assert (Hsplit :
    match s ++ [13%N] with
    | c :: rest => if N.eqb c 45 then ([c], rest) else ([], s ++ [13%N])
    | [] => ([], s ++ [13%N])
    end =
    (fst match s with
         | c :: rest => if N.eqb c 45 then ([c], rest) else ([], s)
         | [] => ([], s)
         end,
     snd match s with
         | c :: rest => if N.eqb c 45 then ([c], rest) else ([], s)
         | [] => ([], s)
         end ++ [13%N])).
  { destruct s as [|c s]; [reflexivity|]. cbn [app].
    now destruct (N.eqb c 45). }
  rewrite Hsplit.
  destruct (match s with
            | c :: rest => if N.eqb c 45 then ([c], rest) else ([], s)
            | [] => ([], s)
            end) as [sign s1]. cbn [fst snd].
  rewrite parse_int_part_cr.
  destruct (parse_int_part s1) as [[int s2]|]; [|reflexivity]. cbn [followed].
  rewrite parse_frac_part_cr.
  destruct (parse_frac_part s2) as [[frac s3]|]; [|reflexivity].
  cbn [followed]. rewrite parse_exp_part_cr.
  now destruct (parse_exp_part s3) as [[ex s4]|].
Qed.

Lemma strip_prefix_cr (p s : jsstring) :
  forallb (fun x => negb (N.eqb x 13)) p = true ->
  strip_prefix p (s ++ [13%N]) =
  option_map (fun rest => rest ++ [13%N]) (strip_prefix p s).
Proof.
  revert s. induction p as [|x p IH]; intros s H; [reflexivity|].
  cbn [forallb] in H. apply andb_true_iff in H as [Hx Hp].
  destruct s as [|y s]; cbn [app strip_prefix].
  - apply negb_true_iff in Hx. now rewrite Hx.
  - destruct (N.eqb x y); [now apply IH|reflexivity].
Qed.

Lemma parsers_cr (fuel : nat) :
  (forall s, parse_value fuel (s ++ [13%N]) = followed (parse_value fuel s))
  /\ (forall s acc, parse_elements fuel (s ++ [13%N]) acc =
                    followed (parse_elements fuel s acc))
  /\ (forall s acc, parse_members fuel (s ++ [13%N]) acc =
                    followed (parse_members fuel s acc)).
Proof.
  induction fuel as [|f [IHv [IHe IHm]]]; [repeat split|].
  split; [|split].
  - intros s. rewrite !parse_value_step, skip_ws_cr.
    destruct (skip_ws s) as [|c rest]; [reflexivity|].
    destruct (N.eqb c 123).
    { rewrite skip_ws_cr. destruct (skip_ws rest) as [|c' rest'];
        [reflexivity|].
      destruct (N.eqb c' 125); [reflexivity|apply IHm]. }
    destruct (N.eqb c 91).
    { rewrite skip_ws_cr. destruct (skip_ws rest) as [|c' rest'];
        [reflexivity|].
      destruct (N.eqb c' 93); [reflexivity|apply IHe]. }
    destruct (N.eqb c 34).
    { rewrite parse_string_chars_cr.
      now destruct (parse_string_chars rest []) as [[str rest']|]. }
    destruct (N.eqb c 45 || is_digit c).
    { change (c :: rest ++ [13%N]) with ((c :: rest) ++ [13%N]).
      rewrite parse_number_cr.
      now destruct (parse_number (c :: rest)) as [[lit rest']|]. }
    change (c :: rest ++ [13%N]) with ((c :: rest) ++ [13%N]).
    rewrite !strip_prefix_cr by reflexivity.
    destruct (strip_prefix (js "true") (c :: rest)); [reflexivity|].
    destruct (strip_prefix (js "false") (c :: rest)); [reflexivity|].
    now destruct (strip_prefix (js "null") (c :: rest)).
  - intros s acc. rewrite !parse_elements_step, IHv.
    destruct (parse_value f s) as [[v rest]|]; [|reflexivity].
    cbn [followed]. rewrite skip_ws_cr.
    destruct (skip_ws rest) as [|c rest']; [reflexivity|].
    destruct (N.eqb c 44); [apply IHe|].
    now destruct (N.eqb c 93).
  - intros s acc. rewrite !parse_members_unfold, skip_ws_cr.
    destruct (skip_ws s) as [|q rest]; [reflexivity|].
    destruct (negb (N.eqb q 34)); [reflexivity|].
    rewrite parse_string_chars_cr.
    destruct (parse_string_chars rest []) as [[key rest1]|]; [|reflexivity].
    cbn [followed]. rewrite skip_ws_cr.
    destruct (skip_ws rest1) as [|colon rest2]; [reflexivity|].
    destruct (negb (N.eqb colon 58)); [reflexivity|].
    rewrite IHv.
    destruct (parse_value f rest2) as [[v rest3]|]; [|reflexivity].
    cbn [followed]. rewrite skip_ws_cr.
    destruct (skip_ws rest3) as [|c rest4]; [reflexivity|].
    destruct (N.eqb c 44); [apply IHm|].
    now destruct (N.eqb c 125).
Qed.

(** [JSON.parse] reads a text followed by a carriage return as it reads
    the text. *)
Lemma JSON_parse_cr (line : jsstring) :
  JSON_parse (with_cr line) = JSON_parse line.
Proof.
  unfold JSON_parse, with_cr.
  rewrite (proj1 (parsers_cr _)), length_app. cbn [List.length].
  rewrite (JSON_parse_fuel line) by lia.
  destruct (parse_value (2 * List.length line + 2) line) as [[v rest]|];
    [|reflexivity].
  cbn [followed]. rewrite skip_ws_cr. now destruct (skip_ws rest).
Qed.

Lemma trim_start_blank (s : jsstring) :
  is_empty (trim_start s) = forallb is_white_space s.
Proof.
  induction s as [|c s IH]; [reflexivity|]. cbn [trim_start forallb].
  destruct (is_white_space c); [exact IH|reflexivity].
Qed.

Lemma forallb_trim_start (s : jsstring) :
  forallb is_white_space (trim_start s) = forallb is_white_space s.
Proof.
  induction s as [|c s IH]; [reflexivity|]. cbn [trim_start forallb].
  destruct (is_white_space c) eqn:E; [exact IH|].
  cbn [forallb]. now rewrite E.
Qed.

Lemma forallb_rev {A : Type} (f : A -> bool) (l : list A) :
  forallb f (rev l) = forallb f l.
Proof.
  induction l as [|x l IH]; [reflexivity|]. cbn [rev forallb].
  rewrite forallb_app, IH. cbn [forallb]. rewrite andb_true_r.
  apply andb_comm.
Qed.

(** A text is blank for [trim] when all its code units are white
    space. *)
Lemma trim_blank (s : jsstring) :
  is_empty (trim s) = forallb is_white_space s.
Proof.
  unfold trim.
  assert (Hrev : forall x : jsstring, is_empty (rev x) = is_empty x).
  { intros [|c x]; [reflexivity|]. cbn [rev].
    now destruct (rev x). }
  now rewrite Hrev, trim_start_blank, forallb_rev, forallb_trim_start.
Qed.

Lemma nonblank_cr (line : jsstring) :
  nonblank (with_cr line) = nonblank line.
Proof.
  unfold nonblank, with_cr. rewrite !trim_blank, forallb_app.
  cbn [forallb]. now rewrite !andb_true_r.
Qed.

Lemma indexOf_cr (line : jsstring) :
  indexOf newline line = None -> indexOf newline (with_cr line) = None.
Proof.
  unfold with_cr. induction line as [|c line IH]; [reflexivity|].
  cbn [app indexOf]. destruct (N.eqb c newline); [discriminate|].
  destruct (indexOf newline line); [discriminate|].
  intros _. now rewrite IH.
Qed.

Section CarriageReturns.
Context {rt : Runtime}.

Lemma process_line_cr (line : jsstring) (p : Progress) :
  fst (process_line (with_cr line) (p, [])) = fst (process_line line (p, []))
  /\ written (snd (process_line (with_cr line) (p, []))) =
     written (snd (process_line line (p, []))).
Proof.
  unfold process_line. rewrite JSON_parse_cr.
  destruct (JSON_parse line) as [parsed|]; [|split; reflexivity].
  destruct (message_content parsed) as [content|]; [|split; reflexivity].
  destruct (ToBoolean content); [|split; reflexivity].
  destruct content as [v|]; [|split; reflexivity].
  destruct (appended_text v); [|split; reflexivity].
  destruct (token_estimate v); split; reflexivity.
Qed.

Lemma handle_lines_cr (ls : list jsstring) :
  forall p,
    fst (handle_lines (map with_cr ls) (p, [])) = fst (handle_lines ls (p, []))
    /\ written (snd (handle_lines (map with_cr ls) (p, []))) =
       written (snd (handle_lines ls (p, []))).
Proof.
  induction ls as [|l ls IH]; intros p; [split; reflexivity|].
  change (handle_lines (map with_cr (l :: ls)) (p, []))
    with (handle_lines (map with_cr ls) (process_line (with_cr l) (p, []))).
  change (handle_lines (l :: ls) (p, []))
    with (handle_lines ls (process_line l (p, []))).
  destruct (process_line_cr l p) as [Hp Hw].
  destruct (process_line (with_cr l) (p, [])) as [p1 e1].
  destruct (process_line l (p, [])) as [p2 e2].
  cbn [fst snd] in Hp, Hw. subst p2.
  rewrite (handle_lines_effects (map with_cr ls) p1 e1).
  rewrite (handle_lines_effects ls p1 e2). cbn [fst snd].
  destruct (IH p1) as [IHp IHw].
  split; [exact IHp|]. now rewrite !written_app, Hw, IHw.
Qed.

(** X9: a stream whose lines end with CR LF is read like the same
    stream with bare newlines.  The inner loop cuts the lines at the
    newlines and leaves the carriage returns on them; [trim] and
    [JSON.parse] both take a carriage return at the end for white
    space, so the same lines are blank, the same lines parse, and the
    loop ends with the same text and token count and has written the
    same texts to the store. *)
Theorem carriage_returns_are_tolerated (ls : list jsstring) (p : Progress) :
  Forall (fun l => indexOf newline l = None) ls ->
  exists p' effects effects',
    drain (List.length (join_lines ls)) process_line (join_lines ls) (p, []) =
    ([], (p', effects))
    /\ drain (List.length (join_lines (map with_cr ls))) process_line
             (join_lines (map with_cr ls)) (p, []) =
       ([], (p', effects'))
    /\ written effects' = written effects.
Proof.
  intros Hlines.
  assert (Hcr : Forall (fun l => indexOf newline l = None) (map with_cr ls)).
  { apply Forall_map. eapply Forall_impl; [|exact Hlines].
    intros l. apply indexOf_cr. }
  assert (Hfilter : filter nonblank (map with_cr ls) =
                    map with_cr (filter nonblank ls)).
  { clear. induction ls as [|l ls IH]; [reflexivity|]. cbn [map filter].
    rewrite nonblank_cr, IH. now destruct (nonblank l). }
  destruct (handle_lines_cr (filter nonblank ls) p) as [Hp Hw].
  exists (fst (handle_lines (filter nonblank ls) (p, []))).
  exists (snd (handle_lines (filter nonblank ls) (p, []))).
  exists (snd (handle_lines (map with_cr (filter nonblank ls)) (p, []))).
  split; [|split].
  - rewrite drain_lines by lia. rewrite lines_of_join by exact Hlines.
    cbn [fst snd]. fold (handle_lines (filter nonblank ls) (p, [])).
    now destruct (handle_lines (filter nonblank ls) (p, [])).
  - rewrite drain_lines by lia. rewrite lines_of_join by exact Hcr.
    cbn [fst snd]. rewrite Hfilter.
    fold (handle_lines (map with_cr (filter nonblank ls)) (p, [])).
    rewrite <- Hp.
    now destruct (handle_lines (map with_cr (filter nonblank ls)) (p, [])).
  - exact Hw.
Qed.

End CarriageReturns.

Lemma carriage_returns_are_tolerated_on_demo :
  exists p' effects effects',
    drain (List.length (join_lines demo_lines)) process_line
          (join_lines demo_lines) (progress new_reader, []) =
    ([], (p', effects))
    /\ drain (List.length (join_lines (map with_cr demo_lines))) process_line
             (join_lines (map with_cr demo_lines)) (progress new_reader, []) =
       ([], (p', effects'))
    /\ written effects' = written effects.
Proof.
  apply (carriage_returns_are_tolerated (rt:=example_runtime)).
  exact demo_lines_are_lines.
Defined.

(** ** The storage *)

Lemma getItem_setItem (key value : jsstring) (storage : Storage) :
  getItem key (setItem key value storage) = Some value.
Proof. unfold getItem, setItem. cbn [find fst]. now rewrite str_eqb_refl. Qed.

Lemma getItem_setItem_other (key other value : jsstring) (storage : Storage) :
  str_eqb other key = false ->
  getItem key (setItem other value storage) = getItem key storage.
Proof.
  intros H. unfold getItem, setItem. cbn [find fst]. rewrite H. f_equal.
  induction storage as [|[k v] storage IH]; [reflexivity|].
  cbn [filter find fst].
  destruct (str_eqb k other) eqn:E; cbn [negb find fst].
  - apply str_eqb_eq in E. subst k. now rewrite H.
  - destruct (str_eqb k key); [reflexivity|exact IH].
Qed.

(** X21: the API key of the [Settings] page and the chats of the
    store are kept apart in the storage.  A key that is saved is the
    key the page starts with the next time, the empty key included;
    saving the key leaves the saved chats as they are, and saving the
    chats leaves the key as it is, in whichever order the two are
    written; an empty storage gives the empty key and no chats. *)
Theorem api_key_and_chats_are_kept_apart (key : jsstring)
  (s : Persist.Sessions) (storage : Storage) :
  apiKey (saveApiKey key storage) = key
  /\ apiKey (persist s (saveApiKey key storage)) = key
  /\ rehydrate (saveApiKey key (persist s storage)) = Some s
  /\ rehydrate (saveApiKey key storage) = rehydrate storage
  /\ apiKey [] = [] /\ rehydrate [] = None.
Proof.
  unfold apiKey, rehydrate, saveApiKey, persist.
  split; [|split; [|split; [|split; [|split]]]]; try reflexivity.
  - rewrite getItem_setItem. now destruct key.
  - rewrite getItem_setItem_other by reflexivity.
    rewrite getItem_setItem. now destruct key.
  - rewrite getItem_setItem_other by reflexivity.
    rewrite getItem_setItem.
    unfold Persist.deserialize, Persist.serialize.
    rewrite (JSON_parse_stringify _ (plain_sessions s)).
    apply sessions_read_back.
  - now rewrite getItem_setItem_other by reflexivity.
Qed.

(** ** Streams of ASCII text *)

Lemma decode_byte_ascii (d : Utf8Decoder) (b : byte) :
  bytes_needed d = 0%N -> (Byte.to_N b <= 127)%N ->
  decode_byte d b =
  (mkDecoder (code_point d) (bytes_seen d) 0 (lower_boundary d)
             (upper_boundary d) true,
   [Byte.to_N b]).
Proof.
  intros Hd Hb. unfold decode_byte, utf8_handler, utf8_lead.
  rewrite Hd. cbn [N.eqb].
  destruct (N.leb_spec (Byte.to_N b) 127) as [_|Hgt]; [|lia].
  cbn [bom_seen strip_bom].
  assert (Hbom : N.eqb (Byte.to_N b) 65279 = false)
    by (apply N.eqb_neq; lia).
  assert (Hunit : utf16_units (Byte.to_N b) = [Byte.to_N b]).
  { unfold utf16_units.
    destruct (N.leb_spec (Byte.to_N b) 65535) as [_|Hgt]; [reflexivity|lia]. }
  destruct (bom_seen d); [|rewrite Hbom];
    cbn [flat_map code_point bytes_seen bytes_needed lower_boundary
         upper_boundary app]; now rewrite Hunit, Hd.
Qed.

Lemma decode_ascii (bytes : list byte) :
  forall d,
    bytes_needed d = 0%N ->
    Forall (fun b => (Byte.to_N b <= 127)%N) bytes ->
    snd (decode d bytes) = map Byte.to_N bytes.
Proof.
  induction bytes as [|b bytes IH]; intros d Hd Hall; [reflexivity|].
  inversion Hall as [|b' bytes' Hb Hrest]; subst.
  cbn [decode map]. rewrite (decode_byte_ascii d b Hd Hb).
  specialize (IH (mkDecoder (code_point d) (bytes_seen d) 0
                            (lower_boundary d) (upper_boundary d) true)
                 eq_refl Hrest).
  destruct (decode _ bytes) as [d2 out2]. cbn [snd] in *. now rewrite IH.
Qed.

Lemma bytes_of_ascii (s : jsstring) :
  forallb (fun c => N.leb c 127) s = true ->
  map Byte.to_N (bytes_of s) = s
  /\ Forall (fun b => (Byte.to_N b <= 127)%N) (bytes_of s).
Proof.
  unfold bytes_of. induction s as [|c s IH]; [split; constructor|].
  cbn [forallb map]. intros H. apply andb_true_iff in H as [Hc Hs].
  apply N.leb_le in Hc. destruct (IH Hs) as [IHmap IHall].
  destruct (Byte.of_N c) as [b|] eqn:E.
  - apply Byte.to_of_N in E. split.
    + now rewrite E, IHmap.
    + constructor; [rewrite E; exact Hc|exact IHall].
  - apply Byte.of_N_None_iff in E. lia.
Qed.

Lemma lines_of_sent (ls : list jsstring) (tail : jsstring) :
  Forall (fun l => indexOf newline l = None) ls ->
  indexOf newline tail = None ->
  lines_of (join_lines ls ++ tail) = (ls, tail).
Proof.
  intros Hls Htail. rewrite lines_of_app, (lines_of_join ls Hls).
  cbn [fst snd app]. rewrite (indexOf_None_lines _ Htail). cbn [fst snd].
  now rewrite app_nil_r.
Qed.

(** X22: a stream of ASCII text is read as it was sent.  When the
    bytes of the chunks are those of lines that are each ended by a
    newline, followed by a rest without a newline, the lines handed to
    the parser are the non-blank ones among the lines sent, in order,
    wherever the chunks are cut; the rest stays in the buffer and is
    never handed to the inner loop. *)
Theorem ascii_lines_are_read_as_sent (chunks : list (list byte))
  (ls : list jsstring) (tail : jsstring) :
  List.concat chunks = bytes_of (join_lines ls ++ tail) ->
  forallb (fun c => N.leb c 127) (join_lines ls ++ tail) = true ->
  Forall (fun l => indexOf newline l = None) ls ->
  indexOf newline tail = None ->
  lines_of_chunks chunks (new_TextDecoder, []) = filter nonblank ls
  /\ complete_lines (List.concat chunks) = filter nonblank ls
  /\ forall (rt : Runtime),
       buffer (fst (feed (List.concat chunks) new_reader)) = tail.
Proof.
  intros Hbytes Hascii Hls Htail.
  destruct (bytes_of_ascii _ Hascii) as [Hmap Hall].
  assert (Hdecoded :
    snd (decode new_TextDecoder (List.concat chunks)) = join_lines ls ++ tail).
  { rewrite Hbytes, (decode_ascii _ new_TextDecoder eq_refl Hall).
    exact Hmap. }
  split; [|split].
  - rewrite lines_of_chunks_concat by reflexivity. cbn [app].
    now rewrite Hdecoded, (lines_of_sent ls tail Hls Htail).
  - unfold complete_lines.
    now rewrite Hdecoded, (lines_of_sent ls tail Hls Htail).
  - intros rt. rewrite feed_by_lines. cbn [fst buffer new_reader decoder app].
    now rewrite Hdecoded, (lines_of_sent ls tail Hls Htail).
Qed.

Lemma ascii_lines_are_read_as_sent_on_demo :
  lines_of_chunks
    [firstn 20 (bytes_of (join_lines demo_lines ++ jsq "{'mess"));
     skipn 20 (bytes_of (join_lines demo_lines ++ jsq "{'mess"))]
    (new_TextDecoder, []) = filter nonblank demo_lines
  /\ complete_lines
       (List.concat
          [firstn 20 (bytes_of (join_lines demo_lines ++ jsq "{'mess"));
           skipn 20 (bytes_of (join_lines demo_lines ++ jsq "{'mess"))]) =
     filter nonblank demo_lines
  /\ forall (rt : Runtime),
       buffer (fst (feed
                      (List.concat
                         [firstn 20 (bytes_of (join_lines demo_lines
                                               ++ jsq "{'mess"));
                          skipn 20 (bytes_of (join_lines demo_lines
                                              ++ jsq "{'mess"))])
                      new_reader)) = jsq "{'mess".
Proof.
  apply (ascii_lines_are_read_as_sent
           [firstn 20 (bytes_of (join_lines demo_lines ++ jsq "{'mess"));
            skipn 20 (bytes_of (join_lines demo_lines ++ jsq "{'mess"))]
           demo_lines (jsq "{'mess")).
  - vm_compute. reflexivity.
  - vm_compute. reflexivity.
  - exact demo_lines_are_lines.
  - reflexivity.
Defined.

(** ** A second call while the first is streaming *)

Section Overlap.
Context {rt : Runtime}.

(** X23: a message sent while the answer to the one before is still
    streaming.  When the stream of a first call on a chat is under way
    and a second call is started on the chat (the ids being new), the
    request of the second call carries the turns of the earlier
    messages, the first text as a turn of the user, the part of the
    first answer that has arrived so far (the texts of the complete
    lines read, possibly none) as a turn of the assistant, and the
    second text. *)
Theorem second_request_carries_partial_answer (s : State)
  (chatId text1 text2 uuid1 uuid2 uuid3 uuid4 : jsstring)
  (values : list (option (list byte))) (chat : Chat.t) :
  find (fun c => str_eqb (Chat.id c) chatId) (chats s) = Some chat ->
  (forall m, In m (Chat.messages chat) ->
             Message.timestamp m <> uuid2 /\ Message.timestamp m <> uuid3) ->
  uuid1 <> uuid2 -> uuid1 <> uuid3 -> uuid2 <> uuid3 ->
  forallb textual (complete_lines (bytes_read values)) = true ->
  exists store task effects,
    sendMessage chatId text1 uuid1 uuid2
                (FetchResolved true true :: reads values) s =
    Pending store task effects
    /\ exists t request,
         sendMessage_start chatId text2 uuid3 uuid4 store =
         inr (t, [SetAppend (Message.mk text2 (js "user") uuid3 None);
                  SetAppend (Message.mk [] (js "ai") uuid4 (Some true));
                  Fetch request])
         /\ Request.messages request =
            map turn_of (Chat.messages chat)
            ++ [Request.mkTurn (js "user") text1;
                Request.mkTurn (js "assistant")
                  (flat_map delta_of (complete_lines (bytes_read values)));
                Request.mkTurn (js "user") text2].
Proof.
  intros Hfind Hfresh H12 H13 H23 Htextual.
  unfold sendMessage. unfold sendMessage_start at 1. rewrite Hfind.
  cbn [Message.timestamp]. rewrite run_stream_begins. cbn [phase call].
  set (bytes := bytes_read values) in *.
  destruct (feed_written bytes Htextual) as [Hquiet Hlast].
  set (read := snd (feed bytes new_reader)) in *.
  set (u := Message.mk text1 (js "user") uuid1 None).
  set (a := Message.mk [] (js "ai") uuid2 (Some true)).
  set (before := Fetch (request_of chat u text1) :: read).
  assert (Hsilent : forallb silent before = true).
  { subst before. cbn [forallb silent andb]. apply (quiet_silent _ Hquiet). }
  pose proof (silent_no_append _ Hsilent) as Hno.
  change ([SetAppend u; SetAppend a; Fetch (request_of chat u text1)] ++ read)
    with ([SetAppend u; SetAppend a] ++ before).
  eexists. eexists. eexists. split; [reflexivity|].
  unfold sendMessage_start.
  rewrite (store_after_call chatId uuid2 u a _ s Hno eq_refl).
  rewrite find_map_chats, Hfind
    by (intros x; now destruct (str_eqb (Chat.id x) _)).
  cbn [option_map].
  destruct (found_chat _ _ _ Hfind) as [_ Hid].
  apply str_eqb_eq in Hid. rewrite Hid.
  eexists. eexists. split; [reflexivity|].
  unfold request_of.
  cbn [Request.messages with_messages Chat.messages Message.timestamp].
  rewrite map_app, map_unless_fresh by (intros m Hm; apply (Hfresh m Hm)).
  cbn [map u Message.timestamp].
  apply str_eqb_neq in H12 as E12. rewrite E12.
  rewrite (updates_silent before a Hsilent).
  subst before a. cbn [written flat_map app Message.text Message.sender
    Message.timestamp Message.isStreaming].
  fold (written read). rewrite Hlast.
  rewrite <- app_assoc. cbn [app].
  rewrite filter_app. cbn [filter Message.timestamp].
  apply str_eqb_neq in H13 as E13. apply str_eqb_neq in H23 as E23.
  change (Message.timestamp u) with uuid1. rewrite E13, E23. cbn [negb].
  rewrite forallb_filter_id.
  - rewrite map_app. cbn [map]. rewrite <- app_assoc. reflexivity.
  - apply forallb_forall. intros m Hm.
    apply negb_true_iff, str_eqb_neq. apply (Hfresh m Hm).
Qed.

End Overlap.

Lemma second_request_carries_partial_answer_on_history :
  exists store task effects,
    sendMessage (js "c1") (js "more") (js "t3") (js "t4")
      (FetchResolved true true
       :: reads [Some (firstn 20 hello_stream);
                 Some (firstn 20 (skipn 20 hello_stream))])
      history_state =
    Pending store task effects
    /\ exists t request,
         sendMessage_start (js "c1") (js "again") (js "t5") (js "t6") store =
         inr (t, [SetAppend (Message.mk (js "again") (js "user") (js "t5") None);
                  SetAppend (Message.mk [] (js "ai") (js "t6") (Some true));
                  Fetch request])
         /\ Request.messages request =
            map turn_of (Chat.messages earlier_chat)
            ++ [Request.mkTurn (js "user") (js "more");
                Request.mkTurn (js "assistant") (js "He");
                Request.mkTurn (js "user") (js "again")].
Proof.
  apply (second_request_carries_partial_answer (rt:=example_runtime)
           history_state (js "c1") (js "more") (js "again")
           (js "t3") (js "t4") (js "t5") (js "t6")
           [Some (firstn 20 hello_stream);
            Some (firstn 20 (skipn 20 hello_stream))]
           earlier_chat).
  - reflexivity.
  - intros m [<-|[<-|[]]]; split; discriminate.
  - discriminate.
  - discriminate.
  - discriminate.
  - vm_compute. reflexivity.
Defined.
